(** * SocketStream: matchmaking server, agent adapter and client hooks

    A shallow embedding of the TypeScript sources of SocketStream:

    - [shared/index.ts]          the shared types ([Shared]);
    - the signaling server       [callGeminiRetry], the [join_mode], [signal],
                                 [leave_chat], [disconnecting] and
                                 [send_message] handlers ([Agent], [Server]);
    - the [useWebRTC] hook       the per-participant connection state machine
                                 ([WebRTC], [Negotiation]);
    - the [useMediaStream] hook  the camera stream of a participant ([Media]);
    - the [App] component        the interest-tag input handlers ([App]), the
                                 views, session and chat handlers ([Chat]).

    JavaScript arrays are lists, strings are [string], numbers that are only
    ever small integers are [Z] or [nat].  The socket.io rooms adapter is kept
    as an ordered membership list, since [socket.rooms] is iterated in
    insertion order. *)

From Stdlib Require Import String Ascii List ZArith Bool Arith Lia Sorted.
From Stdlib Require Import DecimalString.
Import ListNotations.
Local Open Scope string_scope.
Local Open Scope list_scope.

(** ** Shared types ([shared/index.ts]) *)

Module Shared.

Inductive UserMode := human | ai.

Record ChatRequest := mkChatRequest {
  mode : UserMode;
  interests : list string
}.

Inductive Sender := me | peer | system | ai_sender.

Record ChatMessage := mkChatMessage {
  msg_id : string;
  sender : Sender;
  text : string;
  timestamp : Z
}.

Record ChatInstance := mkChatInstance {
  roomId : string;
  peerId : string;
  isAi : bool
}.

(** [SignalData] of simple-peer: an SDP description or an ICE candidate.
    Nothing in these sources looks inside it. *)
Definition SignalData := string.

End Shared.

(** ** JavaScript string and array primitives used by the sources *)

Module Js.

(** [hay.includes(needle)] on strings: [needle] occurs as a substring. *)
Fixpoint str_includes (needle hay : string) : bool :=
  String.prefix needle hay ||
  match hay with
  | EmptyString => false
  | String _ hay' => str_includes needle hay'
  end.

(** [arr.includes(x)] on arrays of strings. *)
Definition arr_includes (arr : list string) (x : string) : bool :=
  existsb (String.eqb x) arr.

(** [arr.some(p)]. *)
Definition some {A} (p : A -> bool) (arr : list A) : bool := existsb p arr.

(** Truthiness of a string: only the empty string is falsy. *)
Definition nonempty (s : string) : bool :=
  match s with
  | EmptyString => false
  | String _ _ => true
  end.

(** [s.toLowerCase()] on ASCII text: the letters A to Z are mapped to a to
    z, every other byte is kept. *)
Definition lower_ascii (c : ascii) : ascii :=
  let n := nat_of_ascii c in
  if (65 <=? n)%nat && (n <=? 90)%nat then ascii_of_nat (n + 32) else c.

Fixpoint toLowerCase (s : string) : string :=
  match s with
  | EmptyString => EmptyString
  | String c s' => String (lower_ascii c) (toLowerCase s')
  end.

(** White space of ASCII text: tab, line feed, vertical tab, form feed,
    carriage return and space. *)
Definition is_space (c : ascii) : bool :=
  let n := nat_of_ascii c in
  ((9 <=? n)%nat && (n <=? 13)%nat) || (n =? 32)%nat.

Fixpoint trimStart (s : string) : string :=
  match s with
  | EmptyString => EmptyString
  | String c s' => if is_space c then trimStart s' else s
  end.

Fixpoint trimEnd (s : string) : string :=
  match s with
  | EmptyString => EmptyString
  | String c s' =>
      match trimEnd s' with
      | EmptyString => if is_space c then EmptyString else String c EmptyString
      | rest => String c rest
      end
  end.

(** [s.trim()] on ASCII text. *)
Definition trim (s : string) : string := trimEnd (trimStart s).

(** Truthiness of an optional string: [undefined] and the empty string are
    falsy. *)
Definition truthy (s : option string) : bool :=
  match s with
  | None => false
  | Some EmptyString => false
  | Some _ => true
  end.

End Js.

(** ** Agent adapter: [callGeminiRetry] *)

Module Agent.

(** A thrown value, as far as the handler looks at it: [error?.message]. *)
Record Error := mkError { message : option string }.

(** What one [genAI.models.generateContent] call does: it resolves to a
    response whose [text] may be missing, or it rejects. *)
Inductive BackendResult :=
| Response (res_text : option string)
| Failure (error : Error).

(** How a call of [callGeminiRetry] ends. *)
Inductive Outcome :=
| Returned (resText : string)
| Thrown (error : Error).

Definition empty_response : Error := mkError (Some "Empty response").

Definition fallback : string :=
  "I'm having trouble connecting to Gemini right now.".

(** [msg.includes("503") || msg.includes("500") || msg.includes("429")] *)
Definition transient (msg : string) : bool :=
  Js.str_includes "503" msg || Js.str_includes "500" msg ||
  Js.str_includes "429" msg.

(** [error?.message || ""] *)
Definition message_of (e : Error) : string :=
  match message e with
  | Some m => m
  | None => ""
  end.

Section Retry.

(** The backend is opaque: [backend k] is what the call made by attempt
    number [k] does. *)
Variable backend : nat -> BackendResult.
Variables (retries : nat) (delay : Z).

(** The body of the [try] block of one iteration: either the text to
    return, or the value that reaches the [catch] clause. *)
Definition try_generate (attempt : nat) : string + Error :=
  match backend attempt with
  | Response res_text =>
      if Js.truthy res_text
      then inl (match res_text with Some t => t | None => "" end)
      else inr empty_response
  | Failure error => inr error
  end.

(** The [for] loop, from iteration [attempt] on; [fuel] is the number of
    iterations left, [retries + 1 - attempt].  The second component lists
    the delays handed to [setTimeout], in order. *)
Fixpoint attempts (fuel attempt : nat) : Outcome * list Z :=
  match fuel with
  | O => (Returned fallback, [])
  | S fuel' =>
      match try_generate attempt with
      | inl resText => (Returned resText, [])
      | inr error =>
          let msg := message_of error in
          if (attempt <? retries)%nat && transient msg then
            let d := (delay * 2 ^ Z.of_nat attempt)%Z in
            let (o, ds) := attempts fuel' (S attempt) in
            (o, d :: ds)
          else (Thrown error, [])
      end
  end.

Definition callGeminiRetry : Outcome * list Z := attempts retries 1.

End Retry.

(** The defaults of the signature: [retries = 3, delay = 1000].  The delays
    [delay * Math.pow(2, attempt)] are then small integers, on which the
    arithmetic of JavaScript numbers is exact. *)
Definition callGeminiRetry_default (backend : nat -> BackendResult) :=
  callGeminiRetry backend 3 1000.

End Agent.

(** ** The signaling server *)

Module Server.

Import Shared.

(** An entry of the matchmaking queue. *)
Record QueuedUser := mkQueuedUser {
  id : string;
  interests : list string
}.

(** The [match_found] payload is [{ ...chatData, initiator }]. *)
Inductive OutEvent :=
| match_found (chatData : ChatInstance) (initiator : bool)
| waiting_in_queue
| signal_received (signal : SignalData) (from : string)
| peer_disconnected
| receive_message (msg : ChatMessage).

(** One event put on the control channel of one socket. *)
Definition Delivery : Type := string * OutEvent.

(** *** The socket.io rooms adapter

    A membership list of (socket id, room) pairs in join order, without
    repetitions.  Every connected socket is in the room named by its own id. *)
Definition Adapter : Type := list (string * string).

Definition same_member (a b : string * string) : bool :=
  String.eqb (fst a) (fst b) && String.eqb (snd a) (snd b).

Definition is_member (ad : Adapter) (sid room : string) : bool :=
  existsb (same_member (sid, room)) ad.

(** [socket.join(room)] *)
Definition join (ad : Adapter) (sid room : string) : Adapter :=
  if is_member ad sid room then ad else ad ++ [(sid, room)].

(** [socket.leave(room)] *)
Definition leave (ad : Adapter) (sid room : string) : Adapter :=
  filter (fun m => negb (same_member m (sid, room))) ad.

(** What socket.io does when a socket closes: it leaves every room. *)
Definition leaveAll (ad : Adapter) (sid : string) : Adapter :=
  filter (fun m => negb (String.eqb (fst m) sid)) ad.

(** [socket.rooms], in insertion order. *)
Definition rooms_of (ad : Adapter) (sid : string) : list string :=
  map snd (filter (fun m => String.eqb (fst m) sid) ad).

(** The sockets in [room]. *)
Definition members (ad : Adapter) (room : string) : list string :=
  map fst (filter (fun m => String.eqb (snd m) room) ad).

(** [socket.emit(ev)] *)
Definition emit_socket (sid : string) (ev : OutEvent) : list Delivery :=
  [(sid, ev)].

(** [io.to(room).emit(ev)]: every socket in the room. *)
Definition emit_room (ad : Adapter) (room : string) (ev : OutEvent)
  : list Delivery :=
  map (fun t => (t, ev)) (members ad room).

(** [socket.to(room).emit(ev)]: every socket in the room but the sender. *)
Definition emit_room_except (ad : Adapter) (sid room : string)
  (ev : OutEvent) : list Delivery :=
  map (fun t => (t, ev))
      (filter (fun t => negb (String.eqb t sid)) (members ad room)).

(** *** Server state: the global [waitingQueue], the connected sockets
    ([io.sockets.sockets]) and the rooms. *)
Record State := mkState {
  waitingQueue : list QueuedUser;
  sockets : list string;
  adapter : Adapter
}.

Definition init : State := mkState [] [] [].

(** [waitingQueue.filter(user => user.id !== socket.id)] *)
Definition sanitize (sid : string) (queue : list QueuedUser)
  : list QueuedUser :=
  filter (fun user => negb (String.eqb (id user) sid)) queue.

(** The linear scan of [join_mode]: the loop from index [i] on, over the
    rest of the queue; the result is [matchedIndex], [-1] when the loop runs
    to its end.  The guard [if (potentialMatch)] always holds for an index
    below [waitingQueue.length]. *)
Fixpoint scan (userTags : list string) (queue : list QueuedUser) (i : Z)
  : Z :=
  match queue with
  | [] => (-1)%Z
  | potentialMatch :: rest =>
      if (length userTags =? 0)%nat &&
         (length (interests potentialMatch) =? 0)%nat
      then i
      else if (0 <? length userTags)%nat &&
              (0 <? length (interests potentialMatch))%nat &&
              Js.some
                (fun tag => Js.arr_includes (interests potentialMatch) tag)
                userTags
      then i
      else scan userTags rest (i + 1)%Z
  end.

(** [queue.splice(index, 1)]: the removed elements and what is left. *)
Definition splice1 (queue : list QueuedUser) (index : Z)
  : list QueuedUser * list QueuedUser :=
  let n := Z.to_nat index in
  (firstn 1 (skipn n queue), firstn n queue ++ skipn (S n) queue).

(** The [join_mode] handler of socket [sid].  In human mode the handler first
    logs [request.interests.join(", ")], so [request.interests] is an array
    and [request.interests || []] is that array. *)
Definition join_mode (sid : string) (request : ChatRequest) (st : State)
  : State * list Delivery :=
  let queue := sanitize sid (waitingQueue st) in
  match mode request with
  | ai =>
      let chatData := mkChatInstance ("ai_" ++ sid)%string "ai-agent" true in
      (mkState queue (sockets st) (adapter st),
       emit_socket sid (match_found chatData true))
  | human =>
      let userTags := Shared.interests request in
      let matchedIndex := scan userTags queue 0 in
      if negb (matchedIndex =? -1)%Z then
        let (removed, queue') := splice1 queue matchedIndex in
        let partnerId :=
          match removed with
          | partner :: _ => id partner
          | [] => ""
          end in
        let roomId := ("room_" ++ partnerId ++ "_" ++ sid)%string in
        let ad1 := join (adapter st) sid roomId in
        let ad2 :=
          if existsb (String.eqb partnerId) (sockets st)
          then join ad1 partnerId roomId
          else ad1 in
        let partnerMatch := mkChatInstance roomId sid false in
        let selfMatch := mkChatInstance roomId partnerId false in
        (mkState queue' (sockets st) ad2,
         emit_room ad2 partnerId (match_found partnerMatch true) ++
         emit_socket sid (match_found selfMatch false))
      else
        (mkState (queue ++ [mkQueuedUser sid userTags]) (sockets st)
                 (adapter st),
         emit_socket sid waiting_in_queue)
  end.

(** The [signal] handler. *)
Definition signal (sid target : string) (payload : SignalData) (st : State)
  : State * list Delivery :=
  (st, emit_room (adapter st) target (signal_received payload sid)).

(** The [socket.rooms.forEach] of [leave_chat]: notify, then leave. *)
Fixpoint leave_rooms (sid : string) (rooms : list string) (ad : Adapter)
  : Adapter * list Delivery :=
  match rooms with
  | [] => (ad, [])
  | room :: rest =>
      if negb (String.eqb room sid) then
        let out := emit_room_except ad sid room peer_disconnected in
        let (ad', outs) := leave_rooms sid rest (leave ad sid room) in
        (ad', out ++ outs)
      else leave_rooms sid rest ad
  end.

(** The [leave_chat] handler. *)
Definition leave_chat (sid : string) (st : State) : State * list Delivery :=
  let queue := sanitize sid (waitingQueue st) in
  let (ad, out) := leave_rooms sid (rooms_of (adapter st) sid) (adapter st) in
  (mkState queue (sockets st) ad, out).

(** The [socket.rooms.forEach] of [disconnecting]: notify only. *)
Definition notify_rooms (sid : string) (rooms : list string) (ad : Adapter)
  : list Delivery :=
  flat_map
    (fun room =>
       if negb (String.eqb room sid)
       then emit_room_except ad sid room peer_disconnected
       else [])
    rooms.

(** The [disconnecting] handler, followed by what socket.io does once the
    listeners have run: the socket leaves all its rooms and is dropped from
    [io.sockets.sockets]. *)
Definition disconnecting (sid : string) (st : State)
  : State * list Delivery :=
  let queue := sanitize sid (waitingQueue st) in
  let out := notify_rooms sid (rooms_of (adapter st) sid) (adapter st) in
  (mkState queue
           (filter (fun s => negb (String.eqb s sid)) (sockets st))
           (leaveAll (adapter st) sid),
   out).

(** [io.on("connection")]: the socket is registered and sits in the room of
    its own id. *)
Definition connection (sid : string) (st : State) : State * list Delivery :=
  (mkState (waitingQueue st)
           (if existsb (String.eqb sid) (sockets st)
            then sockets st else sockets st ++ [sid])
           (join (adapter st) sid sid),
   []).

(** *** [send_message] *)

(** One entry of the [history] array handed to the backend. *)
Definition Turn : Type := string * string.

Record MessageData := mkMessageData {
  m_roomId : string;
  m_text : string;
  m_isAi : bool;
  m_history : option (list Turn)
}.

(** [data.history || []] *)
Definition history_of (data : MessageData) : list Turn :=
  match m_history data with
  | Some history => history
  | None => []
  end.

Section SendMessage.

(** The backend call for a given history and attempt; the id drawn from
    [Math.random] and the clock. *)
Variable backend : list Turn -> nat -> Agent.BackendResult.
Variables (random_id : string) (now : Z).

Definition offline_message : ChatMessage :=
  mkChatMessage "error" system "AI is currently offline" now.

(** The deliveries of the handler, and the backoff delays it waited. *)
Definition send_message (sid : string) (data : MessageData) (st : State)
  : list Delivery * list Z :=
  if m_isAi data then
    match Agent.callGeminiRetry_default (backend (history_of data)) with
    | (Agent.Returned resText, slept) =>
        (emit_socket sid
           (receive_message (mkChatMessage random_id ai_sender resText now)),
         slept)
    | (Agent.Thrown _, slept) =>
        (emit_socket sid (receive_message offline_message), slept)
    end
  else
    (emit_room_except (adapter st) sid (m_roomId data)
       (receive_message (mkChatMessage random_id peer (m_text data) now)),
     []).

End SendMessage.

(** *** Event traces *)

Inductive Event :=
| Connection (sid : string)
| JoinMode (sid : string) (request : ChatRequest)
| Signal (sid target : string) (payload : SignalData)
| LeaveChat (sid : string)
| Disconnecting (sid : string).

Definition step (st : State) (e : Event) : State * list Delivery :=
  match e with
  | Connection sid => connection sid st
  | JoinMode sid request => join_mode sid request st
  | Signal sid target payload => signal sid target payload st
  | LeaveChat sid => leave_chat sid st
  | Disconnecting sid => disconnecting sid st
  end.

(** The server processes events one at a time, in order. *)
Fixpoint run (st : State) (es : list Event) : State * list Delivery :=
  match es with
  | [] => (st, [])
  | e :: es' =>
      let (st1, out1) := step st e in
      let (st2, out2) := run st1 es' in
      (st2, out1 ++ out2)
  end.

(** The rooms of a socket other than its own default room: its sessions. *)
Definition sessions_of (ad : Adapter) (sid : string) : list string :=
  filter (fun room => negb (String.eqb room sid)) (rooms_of ad sid).

Definition session_rooms (st : State) (sid : string) : list string :=
  sessions_of (adapter st) sid.

End Server.

(** ** The [useWebRTC] hook: the connection state machine of one participant *)

Module WebRTC.

Import Shared.

Inductive ConnectionState := idle | connecting | connected | failed.

(** A media stream handle; the hook only passes it on. *)
Definition MediaStream := string.

(** [ChatInstance & { initiator: boolean }] *)
Record ChatData := mkChatData {
  chat : ChatInstance;
  initiator : bool
}.

(** The simple-peer instance as the hook drives it: how it was built, the
    payloads handed to [peer.signal] so far (oldest first), and whether it
    is destroyed, by a call of [destroy] or by an error of its own. *)
Record Peer := mkPeer {
  p_initiator : bool;
  p_stream : MediaStream;
  signalled : list SignalData;
  destroyed : bool
}.

(** The state of one mounted hook.  [peer] is the object built by the last
    run of the effect, which its listeners close over; [peerRef] tells
    whether [peerRef.current] still points to it; [listener] is the
    [chatData] captured by the [handleIncomingSignal] that is registered on
    the socket, if one is. *)
Record Hook := mkHook {
  peerStream : option MediaStream;
  connectionState : ConnectionState;
  peer : option Peer;
  peerRef : bool;
  listener : option ChatData
}.

Definition initial : Hook := mkHook None idle None false None.

Definition destroy (p : option Peer) : option Peer :=
  option_map (fun q => mkPeer (p_initiator q) (p_stream q) (signalled q) true) p.

(** The first effect, run when [isPeerDisconnected] changes. *)
Definition on_peer_disconnected (isPeerDisconnected : bool) (h : Hook)
  : Hook :=
  if isPeerDisconnected && peerRef h then
    mkHook None idle (destroy (peer h)) false (listener h)
  else h.

(** The body of the second effect. *)
Definition setup (chatData : option ChatData) (myStream : option MediaStream)
  (isPeerDisconnected : bool) (h : Hook) : Hook :=
  match chatData, myStream with
  | Some cd, Some stream =>
      if isPeerDisconnected then h
      else if peerRef h then h
      else
        mkHook (peerStream h) connecting
               (Some (mkPeer (initiator cd) stream [] false))
               true (Some cd)
  | _, _ => h
  end.

(** The cleanup returned by the second effect. *)
Definition cleanup (h : Hook) : Hook :=
  mkHook None idle
         (if peerRef h then destroy (peer h) else peer h)
         false None.

(** [peer.on("stream")] *)
Definition on_stream (remoteStream : MediaStream) (h : Hook) : Hook :=
  mkHook (Some remoteStream) connected (peer h) (peerRef h) (listener h).

(** [peer.on("error")].  simple-peer emits [error] from within its own
    [destroy(err)], so the peer is destroyed when the listener runs; the
    listener sets the state and leaves [peerRef.current] as it is. *)
Definition on_error (h : Hook) : Hook :=
  mkHook (peerStream h) failed (destroy (peer h)) (peerRef h) (listener h).

(** The payload of [signal_received]. *)
Record Incoming := mkIncoming {
  signal : SignalData;
  from : string
}.

(** [peer.signal(payload)] *)
Definition feed (payload : SignalData) (p : option Peer) : option Peer :=
  option_map
    (fun q =>
       mkPeer (p_initiator q) (p_stream q) (signalled q ++ [payload])
              (destroyed q))
    p.

(** A [signal_received] event on the socket: it reaches
    [handleIncomingSignal] when that listener is registered. *)
Definition handleIncomingSignal (data : Incoming) (h : Hook) : Hook :=
  match listener h with
  | Some chatData =>
      if String.eqb (from data) (peerId (chat chatData)) then
        mkHook (peerStream h) (connectionState h)
               (feed (signal data) (peer h)) (peerRef h) (listener h)
      else h
  | None => h
  end.

End WebRTC.

(** ** The [App] component: entering interest tags *)

Module App.

Record Form := mkForm {
  interestInput : string;
  interests : list string
}.

Definition empty_form : Form := mkForm "" [].

Section Handlers.

(** [String.prototype.trim] and [toLowerCase].  The handlers only call
    them, so they are taken as given; [Js.trim] and [Js.toLowerCase] are
    their restrictions to ASCII text. *)
Variables (trim toLowerCase : string -> string).

(** [handleAddInterest], for the key that was pressed. *)
Definition handleAddInterest (key : string) (f : Form) : Form :=
  if String.eqb key "Enter" || String.eqb key "," then
    let val := toLowerCase (trim (interestInput f)) in
    mkForm ""
           (if Js.nonempty val && negb (Js.arr_includes (interests f) val)
            then interests f ++ [val]
            else interests f)
  else f.

(** [handleRemoveInterest] *)
Definition handleRemoveInterest (tagToRemove : string) (f : Form) : Form :=
  mkForm (interestInput f)
         (filter (fun tag => negb (String.eqb tag tagToRemove))
                 (interests f)).

(** [onChange] of the input field. *)
Definition setInterestInput (value : string) (f : Form) : Form :=
  mkForm value (interests f).

(** Typing [value] into the field and pressing Enter. *)
Definition enter_tag (f : Form) (value : string) : Form :=
  handleAddInterest "Enter" (setInterestInput value f).

(** The tags a participant ends up with after entering [typed], one after
    the other, into a fresh form. *)
Definition tags_of (typed : list string) : list string :=
  interests (fold_left enter_tag typed empty_form).

(** The request that the hardware effect sends: [{ mode, interests }]. *)
Definition request_of (mode : Shared.UserMode) (f : Form)
  : Shared.ChatRequest :=
  Shared.mkChatRequest mode (interests f).

End Handlers.

End App.

(** ** Concrete inputs used by the examples below *)

Module Samples.

Import Shared.

(** A backend whose first answer has no text and whose later answers are
    fine. *)
Definition empty_then_hi (k : nat) : Agent.BackendResult :=
  match k with
  | 1 => Agent.Response None
  | _ => Agent.Response (Some "hi")
  end.

(** The same backend with a service-unavailable error in place of the empty
    answer. *)
Definition unavailable_then_hi (k : nat) : Agent.BackendResult :=
  match k with
  | 1 => Agent.Failure (Agent.mkError (Some "got status: 503 Service Unavailable"))
  | _ => Agent.Response (Some "hi")
  end.

(** A backend that is rate limited on every call. *)
Definition always_limited (history : list Server.Turn) (k : nat)
  : Agent.BackendResult :=
  Agent.Failure (Agent.mkError (Some "429 Too Many Requests")).

Definition ai_question : Server.MessageData :=
  Server.mkMessageData "ai_A" "hello" true (Some [("user", "hello")]).

Definition no_tags : ChatRequest := mkChatRequest human [].

(** The hook of the responder of room [room_A_B], whose peer is A, once its
    effect has run. *)
Definition answering : WebRTC.Hook :=
  WebRTC.setup
    (Some (WebRTC.mkChatData (mkChatInstance "room_A_B" "A" false) false))
    (Some "camera") false WebRTC.initial.

(** A late signal of a former peer Z. *)
Definition stale : WebRTC.Incoming := WebRTC.mkIncoming "candidate" "Z".

(** B is matched with A and then asks for a match again without leaving. *)
Definition double_join : list Server.Event :=
  [Server.Connection "A"; Server.Connection "B"; Server.Connection "C";
   Server.JoinMode "A" no_tags; Server.JoinMode "B" no_tags;
   Server.JoinMode "B" no_tags; Server.JoinMode "C" no_tags].

(** A and B are matched. *)
Definition paired : list Server.Event :=
  [Server.Connection "A"; Server.Connection "B";
   Server.JoinMode "A" no_tags; Server.JoinMode "B" no_tags].

(** A and B are matched and then, neither of them having left, matched with
    each other again: B asks first and waits, A asks and takes B. *)
Definition rematched : list Server.Event :=
  paired ++ [Server.JoinMode "B" no_tags; Server.JoinMode "A" no_tags].

(** The scenario of the specification: three participants with tags. *)
Definition three_tagged : list Server.Event :=
  [Server.Connection "A"; Server.Connection "B"; Server.Connection "C";
   Server.JoinMode "A" (mkChatRequest human ["music"]);
   Server.JoinMode "B" (mkChatRequest human ["sports"]);
   Server.JoinMode "C" (mkChatRequest human ["music"; "travel"])].

End Samples.

(** ** The vocabulary of the specification *)

Module Spec.

Import Shared Server.

(** Tag compatibility in the words of the specification: both tag sets are
    empty, or both are non-empty and share a tag. *)
Definition tag_compatible (a b : list string) : Prop :=
  (a = [] /\ b = []) \/
  (a <> [] /\ b <> [] /\ exists tag, In tag a /\ In tag b).

(** The test that the scan of [join_mode] applies to one entry: its two
    [if]s taken together. *)
Definition passes (userTags : list string) (potentialMatch : QueuedUser)
  : bool :=
  ((length userTags =? 0)%nat &&
   (length (interests potentialMatch) =? 0)%nat) ||
  ((0 <? length userTags)%nat &&
   (0 <? length (interests potentialMatch))%nat &&
   Js.some (fun tag => Js.arr_includes (interests potentialMatch) tag)
     userTags).

(** The adapter after a match of requester [sid] with the waiting
    [partnerId]. *)
Definition matched_adapter (st : State) (sid partnerId : string) : Adapter :=
  let roomId := ("room_" ++ partnerId ++ "_" ++ sid)%string in
  let ad1 := join (adapter st) sid roomId in
  if existsb (String.eqb partnerId) (sockets st)
  then join ad1 partnerId roomId
  else ad1.

(** [e] is the oldest entry of [queue] that is compatible with [userTags]:
    the entries before it, [pre], are not. *)
Definition oldest_compatible (userTags : list string)
  (queue pre : list QueuedUser) (e : QueuedUser) (post : list QueuedUser)
  : Prop :=
  queue = pre ++ e :: post /\
  Forall (fun u => ~ tag_compatible userTags (interests u)) pre /\
  tag_compatible userTags (interests e).

(** A, B and C wait with one tag each. *)
Definition three_waiting : State :=
  fst (run init
         [Connection "A"; Connection "B"; Connection "C"; Connection "R";
          JoinMode "A" (mkChatRequest human ["x"]);
          JoinMode "B" (mkChatRequest human ["y"]);
          JoinMode "C" (mkChatRequest human ["z"])]).

(** A trace is polite when every [join_mode] comes from a socket that is in
    no session room at that moment, as with the [App] client, whose
    [handleNext] and [handleStop] emit [leave_chat] first. *)
Definition from_lobby (st : State) (e : Event) : bool :=
  match e with
  | JoinMode sid _ =>
      match session_rooms st sid with
      | [] => true
      | _ :: _ => false
      end
  | _ => true
  end.

Fixpoint polite (st : State) (es : list Event) : bool :=
  match es with
  | [] => true
  | e :: es' => from_lobby st e && polite (fst (step st e)) es'
  end.

(** What [leave_rooms sid rooms] keeps of the adapter: everything but the
    memberships of [sid] in the rooms of [rooms] other than its own. *)
Definition kept (sid : string) (rooms : list string) (m : string * string)
  : bool :=
  negb (String.eqb (fst m) sid && negb (String.eqb (snd m) sid) &&
        existsb (String.eqb (snd m)) rooms).

(** The invariant behind mutual exclusivity: the ids of the queue are
    pairwise distinct, a queued socket is in no session room, and no socket
    is in more than one session room. *)
Definition exclusive (st : State) : Prop :=
  NoDup (map id (waitingQueue st)) /\
  (forall u, In u (waitingQueue st) -> session_rooms st (id u) = []) /\
  (forall sid, (length (session_rooms st sid) <= 1)%nat).

Definition is_peer_disconnected (ev : OutEvent) : bool :=
  match ev with
  | peer_disconnected => true
  | _ => false
  end.

(** How many [peer_disconnected] events [out] delivers to socket [q]. *)
Definition notified (q : string) (out : list Delivery) : nat :=
  length
    (filter (fun d => String.eqb (fst d) q && is_peer_disconnected (snd d))
            out).

(** The session rooms of [p] that [q] is in as well. *)
Definition shared_rooms (st : State) (p q : string) : list string :=
  filter (fun room => is_member (adapter st) q room) (session_rooms st p).

(** The two ways a participant withdraws. *)
Definition withdrawal (sid : string) (e : Event) : Prop :=
  e = LeaveChat sid \/ e = Disconnecting sid.

End Spec.

(** ** The [useMediaStream] hook *)

Module Media.

Definition MediaStream := WebRTC.MediaStream.

(** The state of one mounted hook, and what it holds of the outside world.
    Every run of the effect has its own [mounted] variable: [mounted] names
    the run whose variable is still true (runs are numbered from [next_run]
    on), [pending] the runs whose [getUserMedia] promise is not settled yet.
    [live] lists the streams whose tracks were started and not stopped. *)
Record Hook := mkHook {
  stream : option MediaStream;
  error : option string;
  streamRef : option MediaStream;
  mounted : option nat;
  pending : list nat;
  next_run : nat;
  live : list MediaStream
}.

Definition initial : Hook := mkHook None None None None [] 0 [].

Definition denied_message : string :=
  "Camera/Mic access denied. Please enable permissions.".

(** [s.getTracks().forEach((track) => track.stop())] *)
Definition stop_tracks (s : MediaStream) (running : list MediaStream)
  : list MediaStream :=
  filter (fun t => negb (String.eqb t s)) running.

(** [if (streamRef.current) { stop its tracks; streamRef.current = null }] *)
Definition release (h : Hook) : list MediaStream :=
  match streamRef h with
  | Some s => stop_tracks s (live h)
  | None => live h
  end.

(** The cleanup returned by the effect. *)
Definition cleanup (h : Hook) : Hook :=
  mkHook (stream h) (error h) None None (pending h) (next_run h) (release h).

(** The body of the effect for one value of [enabled]. *)
Definition effect (enabled : bool) (h : Hook) : Hook :=
  let run := next_run h in
  if enabled then
    mkHook (stream h) (error h) (streamRef h) (Some run) (run :: pending h)
           (S run) (live h)
  else
    mkHook None (error h) None (Some run) (pending h) (S run) (release h).

Definition is_mounted (run : nat) (h : Hook) : bool :=
  match mounted h with
  | Some r => Nat.eqb r run
  | None => false
  end.

Definition settle (run : nat) (h : Hook) : list nat :=
  filter (fun r => negb (Nat.eqb r run)) (pending h).

(** The [getUserMedia] call of [run] resolves with [currentStream]: the rest
    of the [try] block of [startCamera]. *)
Definition granted (run : nat) (currentStream : MediaStream) (h : Hook)
  : Hook :=
  if existsb (Nat.eqb run) (pending h) then
    if is_mounted run h then
      mkHook (Some currentStream) (error h) (Some currentStream) (mounted h)
             (settle run h) (next_run h) (currentStream :: live h)
    else
      mkHook (stream h) (error h) (streamRef h) (mounted h) (settle run h)
             (next_run h) (stop_tracks currentStream (currentStream :: live h))
  else h.

(** The [getUserMedia] call of [run] rejects: the [catch] clause. *)
Definition denied (run : nat) (h : Hook) : Hook :=
  if existsb (Nat.eqb run) (pending h) then
    mkHook (stream h)
           (if is_mounted run h then Some denied_message else error h)
           (streamRef h) (mounted h) (settle run h) (next_run h) (live h)
  else h.

(** What happens to a mounted hook: React runs the effect again when
    [enabled] changes (the cleanup of the last run first), unmounts it, or a
    promise settles. *)
Inductive Event :=
| Render (enabled : bool)
| Unmount
| Granted (run : nat) (currentStream : MediaStream)
| Denied (run : nat).

Definition step (h : Hook) (e : Event) : Hook :=
  match e with
  | Render enabled => effect enabled (cleanup h)
  | Unmount => cleanup h
  | Granted run currentStream => granted run currentStream h
  | Denied run => denied run h
  end.

Definition run (events : list Event) : Hook := fold_left step events initial.

(** The hook is tidy when every stream with running tracks is the one it
    returns and [streamRef] points to, there is at most one such stream, and
    there is none while the mounted run still waits for [getUserMedia]. *)
Definition tidy (h : Hook) : Prop :=
  (forall s, In s (live h) -> streamRef h = Some s /\ stream h = Some s) /\
  (length (live h) <= 1)%nat /\
  (forall r, mounted h = Some r -> In r (pending h) ->
             streamRef h = None /\ live h = []).

End Media.

(** ** The events of the [useWebRTC] hook *)

Module Negotiation.

Import Shared WebRTC.

(** [peer.on("signal")]: the payload goes to the peer of the [chatData] the
    effect closed over. *)
Definition on_signal (signalData : SignalData) (h : Hook)
  : list (string * SignalData) :=
  match listener h with
  | Some chatData => [(peerId (chat chatData), signalData)]
  | None => []
  end.

(** The peer the hook holds is there and was not destroyed.  A destroyed
    simple-peer instance emits neither [stream] nor [error]. *)
Definition peer_alive (h : Hook) : bool :=
  match peer h with
  | Some p => negb (destroyed p)
  | None => false
  end.

Inductive Event :=
| Setup (chatData : option ChatData) (myStream : option MediaStream)
        (isPeerDisconnected : bool)
| Cleanup
| PeerDisconnected (isPeerDisconnected : bool)
| Stream (remoteStream : MediaStream)
| Error
| Incoming (data : WebRTC.Incoming).

Definition step (h : Hook) (e : Event) : Hook :=
  match e with
  | Setup chatData myStream isPeerDisconnected =>
      setup chatData myStream isPeerDisconnected h
  | Cleanup => cleanup h
  | PeerDisconnected isPeerDisconnected =>
      on_peer_disconnected isPeerDisconnected h
  | Stream remoteStream => if peer_alive h then on_stream remoteStream h else h
  | Error => if peer_alive h then on_error h else h
  | Incoming data => handleIncomingSignal data h
  end.

Definition run (events : list Event) : Hook := fold_left step events initial.

(** The peer the hook holds is alive exactly while [peerRef.current]
    points to it and no error was reported; the hook reports [idle] exactly
    while [peerRef.current] is empty, and then shows no remote stream. *)
Definition consistent (h : Hook) : Prop :=
  (peer_alive h = true <->
   peerRef h = true /\ connectionState h <> failed) /\
  (connectionState h = idle <-> peerRef h = false) /\
  (connectionState h = idle -> peerStream h = None) /\
  (connectionState h = connected -> peerStream h <> None).

End Negotiation.

(** ** The [App] component: views, session and chat *)

Module Chat.

Import Shared.

Inductive View := HOME | INTERESTS | MODE | HARDWARE | WAITING | ROOM.

Record State := mkState {
  view : View;
  form : App.Form;
  mode : option UserMode;
  hardwareRequested : bool;
  chatData : option WebRTC.ChatData;
  isPeerDisconnected : bool;
  messages : list ChatMessage;
  messageInput : string
}.

Definition initial : State :=
  mkState HOME App.empty_form None false None false [] "".

(** What the component emits on its socket.  [mode!] only silences the type
    checker, so a request carries the [mode] state as it is. *)
Inductive Emit :=
| join_mode (mode : option UserMode) (interests : list string)
| leave_chat
| send_message (data : Server.MessageData).

Definition setView (v : View) (st : State) : State :=
  mkState v (form st) (mode st) (hardwareRequested st) (chatData st)
          (isPeerDisconnected st) (messages st) (messageInput st).

Definition setForm (f : App.Form) (st : State) : State :=
  mkState (view st) f (mode st) (hardwareRequested st) (chatData st)
          (isPeerDisconnected st) (messages st) (messageInput st).

Definition setMessages (ms : list ChatMessage) (st : State) : State :=
  mkState (view st) (form st) (mode st) (hardwareRequested st) (chatData st)
          (isPeerDisconnected st) ms (messageInput st).

(** [n.toString()] for an integer. *)
Definition toString (n : Z) : string := NilZero.string_of_int (Z.to_int n).

Definition disconnected_text : string := "Your partner has disconnected.".

(** The hardware effect: once the camera stream is there, ask for a match. *)
Definition hardware_effect (myStream : option WebRTC.MediaStream) (st : State)
  : State * list Emit :=
  match view st, myStream with
  | HARDWARE, Some _ =>
      (setView WAITING st, [join_mode (mode st) (App.interests (form st))])
  | _, _ => (st, [])
  end.

(** The socket listeners. *)
Definition on_waiting_in_queue (st : State) : State := setView WAITING st.

Definition on_match_found (data : WebRTC.ChatData) (st : State) : State :=
  mkState ROOM (form st) (mode st) (hardwareRequested st) (Some data) false
          (messages st) (messageInput st).

Definition on_receive_message (msg : ChatMessage) (st : State) : State :=
  setMessages (messages st ++ [msg]) st.

(** [prev[prev.length - 1]] *)
Definition lastMsg (prev : list ChatMessage) : option ChatMessage :=
  nth_error prev (length prev - 1).

(** The updater handed to [setMessages] by the [peer_disconnected] listener;
    [now_id] and [now] are the two readings of the clock. *)
Definition note_disconnect (now_id now : Z) (prev : list ChatMessage)
  : list ChatMessage :=
  match lastMsg prev with
  | Some m =>
      if String.eqb (text m) disconnected_text then prev
      else prev ++ [mkChatMessage (toString now_id) system disconnected_text now]
  | None => prev ++ [mkChatMessage (toString now_id) system disconnected_text now]
  end.

Definition on_peer_disconnected (now_id now : Z) (st : State) : State :=
  mkState (view st) (form st) (mode st) (hardwareRequested st) (chatData st)
          true (note_disconnect now_id now (messages st)) (messageInput st).

(** [handleStop] *)
Definition handleStop (st : State) : State * list Emit :=
  (mkState INTERESTS (form st) (mode st) false None false [] (messageInput st),
   [leave_chat]).

(** [handleNext] *)
Definition handleNext (st : State) : State * list Emit :=
  (mkState WAITING (form st) (mode st) (hardwareRequested st) None false []
           (messageInput st),
   [leave_chat; join_mode (mode st) (App.interests (form st))]).

Definition is_me (s : Sender) : bool :=
  match s with me => true | _ => false end.

Definition is_ai (s : Sender) : bool :=
  match s with ai_sender => true | _ => false end.

(** [formattedHistory] before the current message is pushed. *)
Definition formatHistory (ms : list ChatMessage) : list Server.Turn :=
  map (fun m => (if is_me (sender m) then "user" else "model", text m))
      (filter (fun m => is_me (sender m) || is_ai (sender m)) ms).

Section Handlers.

Variables (trim toLowerCase : string -> string).

(** [handleSendMessage] *)
Definition handleSendMessage (now_id now : Z) (st : State)
  : State * list Emit :=
  let rawText := trim (messageInput st) in
  match chatData st with
  | Some cd =>
      if negb (Js.nonempty rawText) || isPeerDisconnected st then (st, [])
      else
        let myMsg := mkChatMessage (toString now_id) me rawText now in
        let formattedHistory :=
          formatHistory (messages st) ++ [("user", rawText)] in
        (mkState (view st) (form st) (mode st) (hardwareRequested st)
                 (chatData st) (isPeerDisconnected st)
                 (messages st ++ [myMsg]) "",
         [send_message
            (Server.mkMessageData (roomId (WebRTC.chat cd)) rawText
               (isAi (WebRTC.chat cd)) (Some formattedHistory))])
  | None => (st, [])
  end.

(** [handleKeyDown] of the message field. *)
Definition handleKeyDown (key : string) (now_id now : Z) (st : State)
  : State * list Emit :=
  if String.eqb key "Enter" then handleSendMessage now_id now st else (st, []).

(** What the user and the socket do to the component.  A button or field
    acts only in the view that renders it, and not while it is disabled. *)
Inductive Action :=
| ChatNow
| NextStep
| BackHome
| TypeInterest (value : string)
| InterestKey (key : string)
| RemoveInterest (tag : string)
| ChooseMode (m : UserMode)
| BackToInterests
| AllowCamera
| CancelHardware
| HardwareEffect (myStream : option WebRTC.MediaStream)
| Stop
| Next
| TypeMessage (value : string)
| Send (now_id now : Z)
| MessageKey (key : string) (now_id now : Z)
| OnWaitingInQueue
| OnMatchFound (data : WebRTC.ChatData)
| OnReceiveMessage (msg : ChatMessage)
| OnPeerDisconnected (now_id now : Z).

Definition in_view (v : View) (st : State) : bool :=
  match view st, v with
  | HOME, HOME | INTERESTS, INTERESTS | MODE, MODE | HARDWARE, HARDWARE
  | WAITING, WAITING | ROOM, ROOM => true
  | _, _ => false
  end.

Definition act (st : State) (a : Action) : State * list Emit :=
  match a with
  | ChatNow => (if in_view HOME st then setView INTERESTS st else st, [])
  | NextStep => (if in_view INTERESTS st then setView MODE st else st, [])
  | BackHome => (if in_view INTERESTS st then setView HOME st else st, [])
  | TypeInterest value =>
      (if in_view INTERESTS st
       then setForm (App.setInterestInput value (form st)) st else st, [])
  | InterestKey key =>
      (if in_view INTERESTS st
       then setForm (App.handleAddInterest trim toLowerCase key (form st)) st
       else st, [])
  | RemoveInterest tag =>
      (if in_view INTERESTS st
       then setForm (App.handleRemoveInterest tag (form st)) st else st, [])
  | ChooseMode m =>
      (if in_view MODE st
       then mkState HARDWARE (form st) (Some m) (hardwareRequested st)
                    (chatData st) (isPeerDisconnected st) (messages st)
                    (messageInput st)
       else st, [])
  | BackToInterests => (if in_view MODE st then setView INTERESTS st else st, [])
  | AllowCamera =>
      (if in_view HARDWARE st && negb (hardwareRequested st)
       then mkState (view st) (form st) (mode st) true (chatData st)
                    (isPeerDisconnected st) (messages st) (messageInput st)
       else st, [])
  | CancelHardware =>
      (if in_view HARDWARE st
       then mkState MODE (form st) (mode st) false (chatData st)
                    (isPeerDisconnected st) (messages st) (messageInput st)
       else st, [])
  | HardwareEffect myStream => hardware_effect myStream st
  | Stop =>
      if in_view WAITING st || in_view ROOM st then handleStop st else (st, [])
  | Next => if in_view ROOM st then handleNext st else (st, [])
  | TypeMessage value =>
      (if in_view ROOM st && negb (isPeerDisconnected st)
       then mkState (view st) (form st) (mode st) (hardwareRequested st)
                    (chatData st) (isPeerDisconnected st) (messages st) value
       else st, [])
  | Send now_id now =>
      if in_view ROOM st && negb (isPeerDisconnected st)
      then handleSendMessage now_id now st else (st, [])
  | MessageKey key now_id now =>
      if in_view ROOM st && negb (isPeerDisconnected st)
      then handleKeyDown key now_id now st else (st, [])
  | OnWaitingInQueue => (on_waiting_in_queue st, [])
  | OnMatchFound data => (on_match_found data st, [])
  | OnReceiveMessage msg => (on_receive_message msg st, [])
  | OnPeerDisconnected now_id now => (on_peer_disconnected now_id now st, [])
  end.

(** The component after a sequence of actions, and all it emitted. *)
Fixpoint play (st : State) (actions : list Action) : State * list Emit :=
  match actions with
  | [] => (st, [])
  | a :: rest =>
      let (st1, out1) := act st a in
      let (st2, out2) := play st1 rest in
      (st2, out1 ++ out2)
  end.

End Handlers.

(** The server reads the mode of a request with [request.mode === "ai"]:
    anything else, a missing mode included, takes the human branch. *)
Definition mode_read (m : option UserMode) : UserMode :=
  match m with
  | Some ai => ai
  | _ => human
  end.

(** The events of the server trace that socket [sid] causes by what the
    component emits; a [send_message] changes nothing of the server state
    and is not part of the trace. *)
Definition to_event (sid : string) (e : Emit) : list Server.Event :=
  match e with
  | join_mode m tags => [Server.JoinMode sid (mkChatRequest (mode_read m) tags)]
  | leave_chat => [Server.LeaveChat sid]
  | send_message _ => []
  end.

End Chat.

(** ** More vocabulary for the properties *)

Module Protocol.

Import Shared Server.

(** Whether a socket id is listed. *)
Definition listed (sid : string) (l : list string) : bool :=
  existsb (String.eqb sid) l.

(** A trace alternates when no socket sends two [join_mode] without a
    [leave_chat] or a disconnect in between; [joined] lists the sockets whose
    last such event is a [join_mode]. *)
Fixpoint alternating (joined : list string) (es : list Event) : bool :=
  match es with
  | [] => true
  | JoinMode sid _ :: es' =>
      negb (listed sid joined) && alternating (sid :: joined) es'
  | LeaveChat sid :: es' | Disconnecting sid :: es' =>
      alternating (filter (fun s => negb (String.eqb s sid)) joined) es'
  | _ :: es' => alternating joined es'
  end.

(** The sockets that are not listed as joined are in no session room and
    not in the queue. *)
Definition quiet (st : State) (joined : list string) : Prop :=
  forall s,
    listed s joined = false ->
    session_rooms st s = [] /\ ~ In s (map id (waitingQueue st)).

(** The same for what one component emits. *)
Fixpoint alternates (joined : bool) (out : list Chat.Emit) : bool :=
  match out with
  | [] => true
  | Chat.join_mode _ _ :: out' => negb joined && alternates true out'
  | Chat.leave_chat :: out' => alternates false out'
  | Chat.send_message _ :: out' => alternates joined out'
  end.

(** The sockets of a room other than [sid]. *)
Definition others (ad : Adapter) (sid room : string) : list string :=
  filter (fun t => negb (String.eqb t sid)) (members ad room).

(** No entry of the queue is compatible with a later one. *)
Definition strangers (queue : list QueuedUser) : Prop :=
  ForallOrdPairs
    (fun u v => ~ Spec.tag_compatible (interests u) (interests v)) queue.

(** Whether the last [join_mode] or [leave_chat] of [out] is a [join_mode]
    ([joined] when there is none). *)
Fixpoint joined_after (joined : bool) (out : list Chat.Emit) : bool :=
  match out with
  | [] => joined
  | Chat.join_mode _ _ :: out' => joined_after true out'
  | Chat.leave_chat :: out' => joined_after false out'
  | Chat.send_message _ :: out' => joined_after joined out'
  end.

(** The socket an event comes from. *)
Definition owner (e : Event) : string :=
  match e with
  | Connection sid | JoinMode sid _ | Signal sid _ _ | LeaveChat sid
  | Disconnecting sid => sid
  end.

(** One browser tab: its socket (one connection, without reconnection),
    what happens in the component, and whether the tab is closed in the
    end. *)
Record Client := mkClient {
  socket : string;
  actions : list Chat.Action;
  closes : bool
}.

Section Clients.

Variables (trim toLowerCase : string -> string).

(** What the server receives from one client, in the order it was sent: the
    connection, the events of the component, and the disconnect if the tab
    is closed. *)
Definition client_events (c : Client) : list Event :=
  Connection (socket c) ::
  flat_map (Chat.to_event (socket c))
           (snd (Chat.play trim toLowerCase Chat.initial (actions c))) ++
  (if closes c then [Disconnecting (socket c)] else []).

End Clients.

(** [es] takes its events from the streams, each stream in its own order. *)
Inductive interleaving : list (list Event) -> list Event -> Prop :=
| interleaving_done streams :
    Forall (fun stream => stream = []) streams -> interleaving streams []
| interleaving_next before e stream after es :
    interleaving (before ++ stream :: after) es ->
    interleaving (before ++ (e :: stream) :: after) (e :: es).

(** What the interest field may hold in the course of [steps]: nothing, or
    a value that its [onChange] gave it. *)
Definition typed (steps : list Chat.Action) (x : string) : Prop :=
  x = "" \/ In (Chat.TypeInterest x) steps.

(** Tags as the form stores them: pairwise distinct, none empty, each the
    trimmed lower-case form of one of [inputs]. *)
Definition clean (trim toLowerCase : string -> string)
  (inputs : string -> Prop) (tags : list string) : Prop :=
  NoDup tags /\
  Forall (fun tag => Js.nonempty tag = true /\
                     exists x, inputs x /\ tag = toLowerCase (trim x)) tags.

(** A component whose last request is a [join_mode] shows the waiting room
    or the chat room. *)
Definition settled (j : bool) (st : Chat.State) : Prop :=
  j = true -> Chat.in_view Chat.WAITING st || Chat.in_view Chat.ROOM st = true.

(** The condition on the streams that are still to be merged: each one
    holds events of one socket only and alternates on its own. *)
Definition streams_alternate (J : list string)
  (sids : list string) (streams : list (list Event)) : Prop :=
  Forall2
    (fun sid stream =>
       Forall (fun e => owner e = sid) stream /\ alternating J stream = true)
    sids streams.

End Protocol.


(** ** More concrete inputs *)

Module Cases.

Import Shared.



(** A first visit: one tag, human mode, camera allowed, request sent. *)
Definition first_visit : list Chat.Action :=
  [Chat.ChatNow; Chat.TypeInterest " Music"; Chat.InterestKey "Enter";
   Chat.NextStep; Chat.ChooseMode human; Chat.AllowCamera;
   Chat.HardwareEffect (Some "camera")].

Definition matched_with_B : WebRTC.ChatData :=
  WebRTC.mkChatData (mkChatInstance "room_B_A" "B" false) true.

(** The visit goes on: a match arrives and the user says hello. *)
Definition first_chat : list Chat.Action :=
  first_visit ++
  [Chat.OnMatchFound matched_with_B; Chat.TypeMessage " hello ";
   Chat.Send 5 6].

(** Two tabs; the second one asks for the next partner and is closed. *)
Definition two_clients : list Protocol.Client :=
  [Protocol.mkClient "A" first_visit false;
   Protocol.mkClient "B"
     (first_visit ++ [Chat.OnMatchFound matched_with_B; Chat.Next]) true].

Definition music : ChatRequest := mkChatRequest human ["music"].

(** One order in which the server may see what the two tabs send. *)
Definition two_clients_trace : list Server.Event :=
  [Server.Connection "A"; Server.Connection "B";
   Server.JoinMode "A" music; Server.JoinMode "B" music;
   Server.LeaveChat "B"; Server.JoinMode "B" music;
   Server.Disconnecting "B"].

End Cases.

(** * Properties *)

(** ** The agent adapter *)

Module AgentFacts.

Import Agent.

Lemma empty_response_not_transient :
  transient (message_of empty_response) = false.
Proof. reflexivity. Qed.

(** One iteration of the loop, by what its [try] block did. *)
Lemma attempts_returned backend retries delay fuel attempt resText :
  try_generate backend attempt = inl resText ->
  attempts backend retries delay (S fuel) attempt = (Returned resText, []).
Proof. intros H. cbn [attempts]. now rewrite H. Qed.

Lemma attempts_retry backend retries delay fuel attempt error :
  try_generate backend attempt = inr error ->
  (attempt < retries)%nat ->
  transient (message_of error) = true ->
  attempts backend retries delay (S fuel) attempt =
  (fst (attempts backend retries delay fuel (S attempt)),
   (delay * 2 ^ Z.of_nat attempt)%Z ::
   snd (attempts backend retries delay fuel (S attempt))).
Proof.
  intros Htry Hlt Htr. cbn [attempts]. rewrite Htry.
  apply Nat.ltb_lt in Hlt. rewrite Hlt, Htr. cbn [andb].
  now destruct (attempts backend retries delay fuel (S attempt)).
Qed.

Lemma attempts_terminal backend retries delay fuel attempt error :
  try_generate backend attempt = inr error ->
  (attempt <? retries)%nat && transient (message_of error) = false ->
  attempts backend retries delay (S fuel) attempt = (Thrown error, []).
Proof. intros Htry Hno. cbn [attempts]. now rewrite Htry, Hno. Qed.

Lemma try_generate_empty backend attempt res_text :
  backend attempt = Response res_text ->
  Js.truthy res_text = false ->
  try_generate backend attempt = inr empty_response.
Proof. intros Hb Hf. unfold try_generate. now rewrite Hb, Hf. Qed.

Lemma try_generate_failure backend attempt error :
  backend attempt = Failure error ->
  try_generate backend attempt = inr error.
Proof. intros Hb. unfold try_generate. now rewrite Hb. Qed.

(** The delays slept from iteration [attempt] on are
    [delay * 2^attempt, delay * 2^(attempt+1), ...]. *)
Lemma attempts_delays backend retries delay fuel :
  forall attempt,
  exists n,
    snd (attempts backend retries delay fuel attempt) =
    map (fun k => (delay * 2 ^ Z.of_nat k)%Z) (seq attempt n).
Proof.
  induction fuel as [|fuel IH]; intros attempt.
  - exists 0%nat. reflexivity.
  - cbn [attempts].
    destruct (try_generate backend attempt) as [resText|error].
    + exists 0%nat. reflexivity.
    + destruct ((attempt <? retries)%nat && transient (message_of error)).
      * destruct (IH (S attempt)) as [n Hn].
        destruct (attempts backend retries delay fuel (S attempt)) as [o ds].
        exists (S n). cbn [snd seq map] in *. now rewrite Hn.
      * exists 0%nat. reflexivity.
Qed.

Lemma doubling_sorted (delay : Z) (n : nat) :
  (0 <= delay)%Z ->
  forall start,
    Sorted Z.le (map (fun k => (delay * 2 ^ Z.of_nat k)%Z) (seq start n)).
Proof.
  intros Hd. induction n as [|n IH]; intros start; cbn [seq map].
  - constructor.
  - constructor; [apply IH|].
    destruct n as [|n]; cbn [seq map]; constructor.
    apply Z.mul_le_mono_nonneg_l; [assumption|].
    apply Z.pow_le_mono_r; lia.
Qed.

(** With a non-negative base delay, the backoff delays of one call never
    decrease. *)
Lemma backoff_nondecreasing backend retries delay :
  (0 <= delay)%Z ->
  Sorted Z.le (snd (callGeminiRetry backend retries delay)).
Proof.
  intros Hd. unfold callGeminiRetry.
  destruct (attempts_delays backend retries delay retries 1) as [n Hn].
  rewrite Hn. now apply doubling_sorted.
Qed.

(** C6, as the code has it: an answer without text raises the error
    [Empty response] inside the [try] block, and since that message carries
    none of the transient signatures the iteration that meets it rethrows it
    at once; no delay is waited and no further attempt is made, whatever
    number of attempts remain. *)
Theorem empty_response_is_terminal :
  forall backend retries delay fuel attempt res_text,
    backend attempt = Response res_text ->
    Js.truthy res_text = false ->
    attempts backend retries delay (S fuel) attempt =
      (Thrown empty_response, []) /\
    (attempt = 1%nat ->
     callGeminiRetry backend (S fuel) delay = (Thrown empty_response, [])).
Proof.
  intros backend retries delay fuel attempt res_text Hb Hf.
  pose proof (try_generate_empty backend attempt res_text Hb Hf) as Htry.
  split.
  - apply attempts_terminal; [assumption|].
    rewrite empty_response_not_transient. apply andb_false_r.
  - intros ->. unfold callGeminiRetry.
    apply attempts_terminal; [assumption|].
    rewrite empty_response_not_transient. apply andb_false_r.
Qed.

Lemma empty_response_is_terminal_witness :
  Samples.empty_then_hi 1 = Response None /\
  Js.truthy None = false /\
  attempts Samples.empty_then_hi 3 1000 3 1 = (Thrown empty_response, []) /\
  callGeminiRetry Samples.empty_then_hi 3 1000 = (Thrown empty_response, []).
Proof.
  split; [reflexivity|]. split; [reflexivity|].
  destruct (empty_response_is_terminal Samples.empty_then_hi 3 1000 2 1 None)
    as [Hloop Hcall]; [reflexivity | reflexivity |].
  split; [exact Hloop | now apply Hcall].
Defined.

(** C6 as stated fails: with two attempts left, an empty answer ends the
    call with the error and no backoff, where a transient error in its place
    is followed by a delay of 2000 ms and a second attempt. *)
Lemma empty_response_retried_counterexample :
  Samples.empty_then_hi 1 = Response None /\
  callGeminiRetry_default Samples.empty_then_hi =
    (Thrown empty_response, []) /\
  callGeminiRetry_default Samples.unavailable_then_hi =
    (Returned "hi", [2000%Z]).
Proof. repeat split. Qed.

End AgentFacts.

(** ** Matchmaking: the scan of [join_mode] *)

Module Matchmaking.

Import Shared Server Spec.

Lemma arr_includes_In (arr : list string) (x : string) :
  Js.arr_includes arr x = true <-> In x arr.
Proof.
  unfold Js.arr_includes. rewrite existsb_exists. split.
  - intros [y [Hy Heq]]. apply String.eqb_eq in Heq. now subst.
  - intros H. exists x. split; [assumption | apply String.eqb_refl].
Qed.

Lemma length_zero_nil {A} (l : list A) : (length l =? 0)%nat = true <-> l = [].
Proof. destruct l; cbn; split; congruence. Qed.

Lemma length_pos_cons {A} (l : list A) : (0 <? length l)%nat = true <-> l <> [].
Proof. destruct l; cbn; split; congruence. Qed.

(** The test of the scan says what the specification calls compatible. *)
Lemma passes_spec userTags potentialMatch :
  passes userTags potentialMatch = true <->
  tag_compatible userTags (interests potentialMatch).
Proof.
  unfold passes, tag_compatible, Js.some.
  rewrite orb_true_iff, !andb_true_iff, !length_zero_nil, !length_pos_cons.
  rewrite existsb_exists.
  split.
  - intros [[Ha Hb] | [[Ha Hb] [tag [Hin Hinc]]]]; [left; now split | right].
    apply arr_includes_In in Hinc. repeat split; try assumption.
    now exists tag.
  - intros [[Ha Hb] | [Ha [Hb [tag [Hin Hinc]]]]]; [left; now split | right].
    repeat split; try assumption.
    exists tag. split; [assumption | now apply arr_includes_In].
Qed.

Lemma scan_cons userTags potentialMatch rest i :
  scan userTags (potentialMatch :: rest) i =
  if passes userTags potentialMatch then i
  else scan userTags rest (i + 1)%Z.
Proof.
  cbn [scan]. unfold passes.
  destruct ((length userTags =? 0)%nat &&
            (length (interests potentialMatch) =? 0)%nat); [reflexivity|].
  cbn [orb]. reflexivity.
Qed.

(** The scan stops at the first entry that passes the test. *)
Lemma scan_first pre e post userTags :
  Forall (fun u => passes userTags u = false) pre ->
  passes userTags e = true ->
  forall i, scan userTags (pre ++ e :: post) i = (i + Z.of_nat (length pre))%Z.
Proof.
  intros Hpre He. induction Hpre as [|u pre Hu Hpre IH]; intros i.
  - rewrite app_nil_l, scan_cons, He. cbn. lia.
  - rewrite <- app_comm_cons, scan_cons, Hu, IH. cbn [length]. lia.
Qed.

Lemma scan_none queue userTags :
  Forall (fun u => passes userTags u = false) queue ->
  forall i, scan userTags queue i = (-1)%Z.
Proof.
  intros H. induction H as [|u queue Hu H IH]; intros i.
  - reflexivity.
  - now rewrite scan_cons, Hu, IH.
Qed.

(** Every queue either has no entry that passes, or splits at the first one
    that does. *)
Lemma first_passing userTags (queue : list QueuedUser) :
  Forall (fun u => passes userTags u = false) queue \/
  exists pre e post,
    queue = pre ++ e :: post /\
    Forall (fun u => passes userTags u = false) pre /\
    passes userTags e = true.
Proof.
  induction queue as [|u queue IH].
  - left. constructor.
  - destruct (passes userTags u) eqn:Hu.
    + right. exists [], u, queue. repeat split; [constructor | assumption].
    + destruct IH as [Hall | [pre [e [post [Hq [Hpre He]]]]]].
      * left. now constructor.
      * right. exists (u :: pre), e, post. subst queue.
        repeat split; [now constructor | assumption].
Qed.

Lemma skipn_length_app {A} (pre l : list A) :
  skipn (length pre) (pre ++ l) = l.
Proof. induction pre as [|x pre IH]; [reflexivity | exact IH]. Qed.

Lemma firstn_length_app {A} (pre l : list A) :
  firstn (length pre) (pre ++ l) = pre.
Proof.
  induction pre as [|x pre IH]; cbn; [now destruct l | now rewrite IH].
Qed.

Lemma splice1_at (pre : list QueuedUser) e post :
  splice1 (pre ++ e :: post) (Z.of_nat (length pre)) = ([e], pre ++ post).
Proof.
  unfold splice1. cbv zeta. rewrite Nat2Z.id.
  rewrite skipn_length_app, firstn_length_app.
  replace (S (length pre)) with (length (pre ++ [e]))
    by (rewrite length_app; cbn; lia).
  replace (pre ++ e :: post) with ((pre ++ [e]) ++ post)
    by (now rewrite <- app_assoc).
  now rewrite skipn_length_app.
Qed.

(** [join_mode] in human mode when no waiting entry passes: the requester
    is appended to the queue. *)
Lemma join_mode_enqueued st sid userTags :
  Forall (fun u => passes userTags u = false)
         (sanitize sid (waitingQueue st)) ->
  join_mode sid (mkChatRequest human userTags) st =
  (mkState (sanitize sid (waitingQueue st) ++ [mkQueuedUser sid userTags])
           (sockets st) (adapter st),
   [(sid, waiting_in_queue)]).
Proof.
  intros H. unfold join_mode. cbn [mode Shared.interests].
  now rewrite (scan_none _ _ H).
Qed.

(** [join_mode] in human mode when [e] is the first waiting entry that
    passes: [e] leaves the queue and both sides are told. *)
Lemma join_mode_matched st sid userTags pre e post :
  sanitize sid (waitingQueue st) = pre ++ e :: post ->
  Forall (fun u => passes userTags u = false) pre ->
  passes userTags e = true ->
  let roomId := ("room_" ++ id e ++ "_" ++ sid)%string in
  join_mode sid (mkChatRequest human userTags) st =
  (mkState (pre ++ post) (sockets st) (matched_adapter st sid (id e)),
   emit_room (matched_adapter st sid (id e)) (id e)
     (match_found (mkChatInstance roomId sid false) true) ++
   [(sid, match_found (mkChatInstance roomId (id e) false) false)]).
Proof.
  intros Hq Hpre He roomId. unfold join_mode. cbn [mode Shared.interests].
  rewrite Hq, (scan_first _ _ _ _ Hpre He). rewrite Z.add_0_l.
  replace (negb (Z.of_nat (length pre) =? -1)%Z) with true
    by (symmetry; apply negb_true_iff, Z.eqb_neq; lia).
  rewrite splice1_at. reflexivity.
Qed.

Lemma not_passes_spec userTags u :
  passes userTags u = false <-> ~ tag_compatible userTags (interests u).
Proof.
  rewrite <- passes_spec. symmetry. apply not_true_iff_false.
Qed.

Lemma oldest_compatible_passes userTags queue pre e post :
  oldest_compatible userTags queue pre e post ->
  queue = pre ++ e :: post /\
  Forall (fun u => passes userTags u = false) pre /\
  passes userTags e = true.
Proof.
  intros [Hq [Hpre He]]. repeat split; [assumption | | now apply passes_spec].
  eapply Forall_impl; [|exact Hpre]. intros u Hu. now apply not_passes_spec.
Qed.

(** Deliveries of [match_found] to a room all carry the flag of the emit. *)
Lemma emit_room_match_found ad room chatData initiator t chatData' initiator' :
  In (t, match_found chatData' initiator')
     (emit_room ad room (match_found chatData initiator)) ->
  chatData' = chatData /\ initiator' = initiator /\ In t (members ad room).
Proof.
  unfold emit_room. rewrite in_map_iff. intros [x [Heq Hin]].
  inversion Heq; subst. now repeat split.
Qed.

Lemma join_incl ad sid room : incl ad (join ad sid room).
Proof.
  unfold join. destruct (is_member ad sid room); [apply incl_refl|].
  now apply incl_appl, incl_refl.
Qed.

Lemma members_incl ad ad' room :
  incl ad ad' -> incl (members ad room) (members ad' room).
Proof.
  intros Hincl t. unfold members. rewrite !in_map_iff.
  intros [m [Hm Hin]]. exists m. split; [assumption|].
  apply filter_In in Hin. apply filter_In. split; [|tauto].
  apply Hincl. tauto.
Qed.

Lemma matched_adapter_incl st sid partnerId :
  incl (adapter st) (matched_adapter st sid partnerId).
Proof.
  unfold matched_adapter.
  destruct (existsb (String.eqb partnerId) (sockets st)).
  - eapply incl_tran; apply join_incl.
  - apply join_incl.
Qed.

Lemma sanitize_In sid queue u :
  In u (sanitize sid queue) <-> In u queue /\ id u <> sid.
Proof.
  unfold sanitize. rewrite filter_In, negb_true_iff, String.eqb_neq.
  reflexivity.
Qed.

(** C1: in human mode the requester is told of a match exactly when the
    pool holds an entry of another participant that is compatible with its
    tags, that is when both tag sets are empty or both are non-empty and
    share a tag (an entry of the requester itself is dropped before the scan
    and never matched); the entry it is paired with is in the pool and
    compatible, so neither side of a pair has an empty tag set when the
    other has not. *)
Theorem tag_correctness :
  forall st sid userTags,
    let out := snd (join_mode sid (mkChatRequest human userTags) st) in
    ((exists e,
        In e (waitingQueue st) /\ id e <> sid /\
        tag_compatible userTags (interests e)) <->
     (exists chatData, In (sid, match_found chatData false) out)) /\
    (forall chatData,
       In (sid, match_found chatData false) out ->
       exists e,
         In e (waitingQueue st) /\ id e <> sid /\ id e = peerId chatData /\
         tag_compatible userTags (interests e) /\
         (userTags = [] <-> interests e = [])).
Proof.
  intros st sid userTags out.
  destruct (first_passing userTags (sanitize sid (waitingQueue st)))
    as [Hnone | [pre [e [post [Hq [Hpre He]]]]]].
  - assert (Hout : out = [(sid, waiting_in_queue)])
      by (unfold out; now rewrite join_mode_enqueued).
    rewrite Hout. split.
    + split.
      * intros [e [Hin [Hne Hc]]]. apply passes_spec in Hc.
        rewrite Forall_forall in Hnone.
        rewrite (Hnone e (proj2 (sanitize_In sid _ e) (conj Hin Hne))) in Hc.
        discriminate.
      * intros [chatData [Heq | []]]. discriminate.
    + intros chatData [Heq | []]. discriminate.
  - pose proof (join_mode_matched st sid userTags pre e post Hq Hpre He) as Hj.
    cbv zeta in Hj.
    assert (Hin : In e (waitingQueue st) /\ id e <> sid)
      by (apply sanitize_In; rewrite Hq; apply in_elt).
    destruct Hin as [Hin Hne].
    assert (Hc : tag_compatible userTags (interests e))
      by now apply passes_spec.
    unfold out. rewrite Hj. cbn [snd]. split.
    + split; intros _.
      * eexists. apply in_or_app. right. left. reflexivity.
      * now exists e.
    + intros chatData Hcd. apply in_app_or in Hcd.
      destruct Hcd as [Hroom | [Heq | []]].
      * apply emit_room_match_found in Hroom. destruct Hroom as [_ [Hf _]].
        discriminate.
      * inversion Heq; subst chatData. exists e. cbn [peerId].
        repeat split; try assumption.
        -- intros ->. destruct Hc as [[_ Hb] | [Ha _]]; [assumption | now elim Ha].
        -- intros Hb. destruct Hc as [[Ha _] | [_ [Hb' _]]]; [assumption | now elim Hb'].
Qed.

(** With A, B and C waiting with the tags x, y and z: a requester with the
    tag y is matched, and with B; a requester without tags is not matched;
    and A, asking again with its own tag, is not matched with the entry it
    left in the pool. *)
Lemma tag_correctness_witness :
  (exists chatData,
     In ("R", match_found chatData false)
        (snd (join_mode "R" (mkChatRequest human ["w"; "y"]) three_waiting))) /\
  (forall chatData,
     In ("R", match_found chatData false)
        (snd (join_mode "R" (mkChatRequest human ["w"; "y"]) three_waiting)) ->
     peerId chatData = "B") /\
  ~ (exists chatData,
       In ("R", match_found chatData false)
          (snd (join_mode "R" (mkChatRequest human []) three_waiting))) /\
  ~ (exists chatData,
       In ("A", match_found chatData false)
          (snd (join_mode "A" (mkChatRequest human ["x"]) three_waiting))).
Proof.
  assert (Hpool : waitingQueue three_waiting =
                  [mkQueuedUser "A" ["x"]; mkQueuedUser "B" ["y"];
                   mkQueuedUser "C" ["z"]]) by reflexivity.
  assert (Hno : forall userTags u,
             passes userTags u = false ->
             ~ tag_compatible userTags (interests u))
    by (intros userTags u H; now apply not_passes_spec).
  split; [|split; [|split]].
  - apply (proj1 (tag_correctness three_waiting "R" ["w"; "y"])).
    exists (mkQueuedUser "B" ["y"]). split; [right; left; reflexivity|].
    split; [discriminate | apply passes_spec; reflexivity].
  - intros chatData Hin.
    destruct (proj2 (tag_correctness three_waiting "R" ["w"; "y"]) chatData Hin)
      as [e [He [_ [Hid [Hc _]]]]].
    rewrite <- Hid. rewrite Hpool in He.
    destruct He as [<- | [<- | [<- | []]]];
      [exfalso; revert Hc; now apply Hno | reflexivity
       | exfalso; revert Hc; now apply Hno].
  - intros Hm.
    apply (proj1 (tag_correctness three_waiting "R" [])) in Hm.
    destruct Hm as [e [He [_ Hc]]]. rewrite Hpool in He.
    destruct He as [<- | [<- | [<- | []]]]; revert Hc; now apply Hno.
  - intros Hm.
    apply (proj1 (tag_correctness three_waiting "A" ["x"])) in Hm.
    destruct Hm as [e [He [Hne Hc]]]. rewrite Hpool in He.
    destruct He as [<- | [<- | [<- | []]]];
      [now apply Hne | revert Hc; now apply Hno | revert Hc; now apply Hno].
Defined.

(** C3: the queue is scanned from its oldest entry on and the first
    compatible entry wins: when [A] is the oldest waiting entry compatible
    with the requester, however many compatible entries follow it, the
    requester is matched with [A] and with nobody else, and only [A] leaves
    the queue. *)
Theorem first_fit_oldest :
  forall st sid userTags pre A post,
    oldest_compatible userTags (sanitize sid (waitingQueue st)) pre A post ->
    let res := join_mode sid (mkChatRequest human userTags) st in
    let roomId := ("room_" ++ id A ++ "_" ++ sid)%string in
    waitingQueue (fst res) = pre ++ post /\
    In (sid, match_found (mkChatInstance roomId (id A) false) false)
       (snd res) /\
    (forall chatData,
       In (sid, match_found chatData false) (snd res) ->
       peerId chatData = id A).
Proof.
  intros st sid userTags pre A post Hold res roomId.
  apply oldest_compatible_passes in Hold. destruct Hold as [Hq [Hpre HA]].
  pose proof (join_mode_matched st sid userTags pre A post Hq Hpre HA) as Hj.
  cbv zeta in Hj. unfold res. rewrite Hj. cbn [fst snd].
  split; [reflexivity|]. split.
  - apply in_or_app. right. now left.
  - intros chatData Hcd. apply in_app_or in Hcd.
    destruct Hcd as [Hroom | [Heq | []]].
    + apply emit_room_match_found in Hroom. destruct Hroom as [_ [Hf _]].
      discriminate.
    + now inversion Heq.
Qed.

(** With A, B and C enqueued in this order and a requester compatible with
    all three, the match is A. *)
Lemma first_fit_oldest_witness :
  map id (waitingQueue three_waiting) = ["A"; "B"; "C"] /\
  Forall (fun u => tag_compatible ["x"; "y"; "z"] (interests u))
         (waitingQueue three_waiting) /\
  waitingQueue
    (fst (join_mode "R" (mkChatRequest human ["x"; "y"; "z"])
            three_waiting)) =
    [mkQueuedUser "B" ["y"]; mkQueuedUser "C" ["z"]] /\
  In ("R", match_found (mkChatInstance "room_A_R" "A" false) false)
     (snd (join_mode "R" (mkChatRequest human ["x"; "y"; "z"])
             three_waiting)).
Proof.
  split; [reflexivity|]. split.
  - change (waitingQueue three_waiting)
      with [mkQueuedUser "A" ["x"]; mkQueuedUser "B" ["y"];
            mkQueuedUser "C" ["z"]].
    repeat (apply Forall_cons; [apply passes_spec; reflexivity|]).
    apply Forall_nil.
  - pose proof
      (first_fit_oldest three_waiting "R" ["x"; "y"; "z"] []
         (mkQueuedUser "A" ["x"])
         [mkQueuedUser "B" ["y"]; mkQueuedUser "C" ["z"]]) as H.
    destruct H as [Hq [Hin _]].
    + split; [reflexivity|]. split; [constructor|].
      apply passes_spec. reflexivity.
    + split; [exact Hq | exact Hin].
Defined.

(** C4: in a human match the requester, whose join triggered the match, is
    told it is the responder ([initiator] false, peer: the waiting
    participant), and the [match_found] that names the requester as peer and
    carries [initiator] true is sent to the waiting participant's own room,
    so that a waiting participant that is still connected receives it. *)
Theorem role_assignment :
  forall st sid userTags pre partner post,
    oldest_compatible userTags (sanitize sid (waitingQueue st))
                      pre partner post ->
    let roomId := ("room_" ++ id partner ++ "_" ++ sid)%string in
    let out := snd (join_mode sid (mkChatRequest human userTags) st) in
    out =
      emit_room (matched_adapter st sid (id partner)) (id partner)
        (match_found (mkChatInstance roomId sid false) true) ++
      emit_socket sid
        (match_found (mkChatInstance roomId (id partner) false) false) /\
    (In (id partner) (members (adapter st) (id partner)) ->
     In (id partner, match_found (mkChatInstance roomId sid false) true)
        out) /\
    id partner <> sid.
Proof.
  intros st sid userTags pre partner post Hold roomId out.
  apply oldest_compatible_passes in Hold. destruct Hold as [Hq [Hpre Hp]].
  pose proof (join_mode_matched st sid userTags pre partner post Hq Hpre Hp)
    as Hj.
  cbv zeta in Hj. unfold out. rewrite Hj. cbn [snd].
  split; [reflexivity|]. split.
  - intros Hconn. apply in_or_app. left. unfold emit_room.
    apply in_map_iff. exists (id partner). split; [reflexivity|].
    eapply members_incl; [apply matched_adapter_incl | exact Hconn].
  - assert (Hin : In partner (sanitize sid (waitingQueue st)))
      by (rewrite Hq; apply in_elt).
    now apply sanitize_In in Hin.
Qed.

Lemma role_assignment_witness :
  snd (join_mode "R" (mkChatRequest human ["x"; "y"; "z"]) three_waiting) =
    [("A", match_found (mkChatInstance "room_A_R" "R" false) true);
     ("R", match_found (mkChatInstance "room_A_R" "A" false) false)].
Proof.
  pose proof
    (role_assignment three_waiting "R" ["x"; "y"; "z"] []
       (mkQueuedUser "A" ["x"])
       [mkQueuedUser "B" ["y"]; mkQueuedUser "C" ["z"]]) as H.
  destruct H as [Hout _].
  - split; [reflexivity|]. split; [constructor|].
    apply passes_spec. reflexivity.
  - exact Hout.
Defined.

End Matchmaking.

(** ** The rooms adapter *)

Module Rooms.

Import Shared Server Spec.

Lemma same_member_eq a b : same_member a b = true <-> a = b.
Proof.
  unfold same_member. rewrite andb_true_iff, !String.eqb_eq.
  destruct a, b; cbn. split; [intros [-> ->]; reflexivity|].
  intros H; inversion H; now split.
Qed.

Lemma is_member_In ad sid room :
  is_member ad sid room = true <-> In (sid, room) ad.
Proof.
  unfold is_member. rewrite existsb_exists. split.
  - intros [m [Hin Hm]]. apply same_member_eq in Hm. now subst.
  - intros Hin. exists (sid, room). split; [assumption|].
    now apply same_member_eq.
Qed.

Lemma sessions_of_app ad ad' sid :
  sessions_of (ad ++ ad') sid = sessions_of ad sid ++ sessions_of ad' sid.
Proof.
  unfold sessions_of, rooms_of. now rewrite filter_app, map_app, filter_app.
Qed.

Lemma sessions_of_cons m ad sid :
  sessions_of (m :: ad) sid =
  (if String.eqb (fst m) sid && negb (String.eqb (snd m) sid)
   then [snd m] else []) ++ sessions_of ad sid.
Proof.
  unfold sessions_of, rooms_of. cbn [filter].
  destruct (String.eqb (fst m) sid); cbn [andb map filter]; [|reflexivity].
  now destruct (negb (String.eqb (snd m) sid)).
Qed.

(** Joining a room changes the sessions of no other socket. *)
Lemma sessions_of_join_other ad sid room sid' :
  sid' <> sid ->
  sessions_of (join ad sid room) sid' = sessions_of ad sid'.
Proof.
  intros Hne. unfold join. destruct (is_member ad sid room); [reflexivity|].
  rewrite sessions_of_app, sessions_of_cons. cbn [fst snd].
  apply not_eq_sym, String.eqb_neq in Hne. rewrite Hne. cbn.
  now rewrite app_nil_r.
Qed.

(** Joining a room adds at most one session. *)
Lemma sessions_of_join_le ad sid room sid' :
  (length (sessions_of (join ad sid room) sid') <=
   S (length (sessions_of ad sid')))%nat.
Proof.
  unfold join. destruct (is_member ad sid room); [lia|].
  rewrite sessions_of_app, sessions_of_cons, length_app. cbn [fst snd].
  destruct (String.eqb sid sid' && negb (String.eqb room sid')); cbn; lia.
Qed.

(** Joining one's own default room adds no session. *)
Lemma sessions_of_join_default ad sid sid' :
  sessions_of (join ad sid sid) sid' = sessions_of ad sid'.
Proof.
  unfold join. destruct (is_member ad sid sid); [reflexivity|].
  rewrite sessions_of_app, sessions_of_cons. cbn [fst snd].
  destruct (String.eqb sid sid') eqn:E; cbn; [|now rewrite app_nil_r].
  now rewrite app_nil_r.
Qed.

(** Dropping memberships never adds a session. *)
Lemma sessions_of_filter_le f ad sid :
  (length (sessions_of (filter f ad) sid) <= length (sessions_of ad sid))%nat.
Proof.
  induction ad as [|m ad IH]; [cbn; lia|].
  cbn [filter]. destruct (f m).
  - rewrite !sessions_of_cons, !length_app. lia.
  - rewrite sessions_of_cons, length_app. lia.
Qed.

Lemma filter_all {A} (f : A -> bool) (l : list A) :
  (forall x, In x l -> f x = true) -> filter f l = l.
Proof.
  induction l as [|x l IH]; intros H; [reflexivity|].
  cbn [filter]. rewrite (H x (or_introl eq_refl)). f_equal.
  apply IH. intros y Hy. apply H. now right.
Qed.

Lemma filter_filter {A} (f g : A -> bool) (l : list A) :
  filter f (filter g l) = filter (fun x => g x && f x) l.
Proof.
  induction l as [|x l IH]; [reflexivity|].
  cbn [filter]. destruct (g x); cbn [filter andb]; [|exact IH].
  destruct (f x); now rewrite IH.
Qed.

(** [leave_rooms] only drops memberships, and it drops those of [kept]. *)
Lemma leave_rooms_adapter sid rooms :
  forall ad, fst (leave_rooms sid rooms ad) = filter (kept sid rooms) ad.
Proof.
  induction rooms as [|room rooms IH]; intros ad.
  - cbn [leave_rooms fst]. symmetry. apply filter_all.
    intros m _. unfold kept. cbn [existsb]. now rewrite andb_false_r.
  - cbn [leave_rooms]. destruct (String.eqb room sid) eqn:E; cbn [negb].
    + rewrite IH. apply filter_ext. intros m. unfold kept. cbn [existsb].
      apply String.eqb_eq in E. subst room.
      destruct (String.eqb (snd m) sid); cbn;
        [now rewrite !andb_false_r | reflexivity].
    + specialize (IH (leave ad sid room)).
      destruct (leave_rooms sid rooms (leave ad sid room)) as [ad' outs].
      cbn [fst] in *. rewrite IH. unfold leave. rewrite filter_filter.
      apply filter_ext. intros m. unfold kept, same_member. cbn [existsb fst snd].
      destruct (String.eqb (snd m) room) eqn:Er.
      * apply String.eqb_eq in Er. rewrite Er, E. cbn.
        destruct (String.eqb (fst m) sid); cbn; [reflexivity|reflexivity].
      * cbn. now rewrite andb_false_r.
Qed.

Lemma nil_of_no_In {A} (l : list A) : (forall x, ~ In x l) -> l = [].
Proof.
  destruct l as [|x l]; [reflexivity|]. intros H. elim (H x). now left.
Qed.

Lemma sessions_of_In ad sid room :
  In room (sessions_of ad sid) <-> In (sid, room) ad /\ room <> sid.
Proof.
  unfold sessions_of, rooms_of.
  rewrite filter_In, in_map_iff, negb_true_iff, String.eqb_neq.
  split.
  - intros [[m [Hm Hin]] Hne]. apply filter_In in Hin.
    destruct Hin as [Hin Hf]. apply String.eqb_eq in Hf.
    destruct m as [s r]. cbn in *. subst. now split.
  - intros [Hin Hne]. split; [|assumption].
    exists (sid, room). split; [reflexivity|].
    apply filter_In. split; [assumption | apply String.eqb_refl].
Qed.

(** After [leave_chat] the socket is in no session room. *)
Lemma sessions_of_after_leave_rooms ad sid :
  sessions_of (fst (leave_rooms sid (rooms_of ad sid) ad)) sid = [].
Proof.
  rewrite leave_rooms_adapter. apply nil_of_no_In. intros room Hin.
  apply sessions_of_In in Hin. destruct Hin as [Hin Hne].
  apply filter_In in Hin. destruct Hin as [Hin Hk].
  unfold kept in Hk. cbn [fst snd] in Hk.
  rewrite String.eqb_refl in Hk.
  apply String.eqb_neq in Hne. rewrite Hne in Hk. cbn in Hk.
  apply negb_true_iff in Hk.
  assert (Hex : existsb (String.eqb room) (rooms_of ad sid) = true).
  { apply existsb_exists. exists room. split; [|apply String.eqb_refl].
    unfold rooms_of. apply in_map_iff. exists (sid, room).
    split; [reflexivity|]. apply filter_In.
    split; [assumption | apply String.eqb_refl]. }
  congruence.
Qed.

(** After a disconnect the socket is in no room at all. *)
Lemma sessions_of_after_leaveAll ad sid : sessions_of (leaveAll ad sid) sid = [].
Proof.
  apply nil_of_no_In. intros room Hin. apply sessions_of_In in Hin.
  destruct Hin as [Hin _]. unfold leaveAll in Hin. apply filter_In in Hin.
  destruct Hin as [_ Hf]. cbn [fst] in Hf. now rewrite String.eqb_refl in Hf.
Qed.

End Rooms.

(** ** Mutual exclusivity of the queue and of the session rooms *)

Module Exclusivity.

Import Shared Server Spec Matchmaking Rooms.

Lemma fst_run_cons st e es :
  fst (run st (e :: es)) = fst (run (fst (step st e)) es).
Proof.
  cbn [run]. destruct (step st e) as [st1 out1]. cbn [fst].
  now destruct (run st1 es).
Qed.

Lemma snd_run_cons st e es :
  snd (run st (e :: es)) =
  snd (step st e) ++ snd (run (fst (step st e)) es).
Proof.
  cbn [run]. destruct (step st e) as [st1 out1]. cbn [fst snd].
  now destruct (run st1 es).
Qed.

(** In human mode [join_mode] takes one of two shapes. *)
Lemma join_mode_human_cases st sid userTags :
  let queue := sanitize sid (waitingQueue st) in
  join_mode sid (mkChatRequest human userTags) st =
    (mkState (queue ++ [mkQueuedUser sid userTags]) (sockets st) (adapter st),
     [(sid, waiting_in_queue)]) \/
  exists pre e post,
    queue = pre ++ e :: post /\
    fst (join_mode sid (mkChatRequest human userTags) st) =
    mkState (pre ++ post) (sockets st) (matched_adapter st sid (id e)).
Proof.
  intros queue.
  destruct (first_passing userTags queue)
    as [Hnone | [pre [e [post [Hq [Hpre He]]]]]].
  - left. now apply join_mode_enqueued.
  - right. exists pre, e, post. split; [assumption|].
    pose proof (join_mode_matched st sid userTags pre e post Hq Hpre He) as Hj.
    cbv zeta in Hj. now rewrite Hj.
Qed.

(** Sanitizing the queue keeps its ids pairwise distinct. *)
Lemma sanitize_unique sid queue :
  NoDup (map id queue) -> NoDup (map id (sanitize sid queue)).
Proof.
  unfold sanitize. induction queue as [|u queue IH]; intros Hnd.
  - exact Hnd.
  - cbn [map] in Hnd. apply NoDup_cons_iff in Hnd. destruct Hnd as [Hu Hnd].
    cbn [filter]. destruct (negb (String.eqb (id u) sid)); [|now apply IH].
    cbn [map]. apply NoDup_cons; [|now apply IH].
    intros Hin. apply Hu. apply in_map_iff in Hin.
    destruct Hin as [v [Hv Hin]]. apply filter_In in Hin.
    apply in_map_iff. exists v. tauto.
Qed.

Lemma sanitize_id_fresh sid queue : ~ In sid (map id (sanitize sid queue)).
Proof.
  intros Hin. apply in_map_iff in Hin. destruct Hin as [u [Hu Hin]].
  apply sanitize_In in Hin. tauto.
Qed.

Lemma NoDup_snoc {A} (l : list A) (x : A) :
  NoDup l -> ~ In x l -> NoDup (l ++ [x]).
Proof.
  induction l as [|y l IH]; cbn; intros Hnd Hnotin.
  - constructor; [tauto | constructor].
  - inversion Hnd as [|z l' Hy Hl]; subst. constructor.
    + rewrite in_app_iff. cbn. intros [H | [H | []]]; [tauto | subst; tauto].
    + apply IH; tauto.
Qed.

(** The ids of the queue stay pairwise distinct, whatever the event. *)
Lemma step_queue_unique st e :
  NoDup (map id (waitingQueue st)) ->
  NoDup (map id (waitingQueue (fst (step st e)))).
Proof.
  intros Hnd.
  assert (Hsan : forall sid,
             NoDup (map id (sanitize sid (waitingQueue st))))
    by (intros sid; now apply sanitize_unique).
  destruct e as [sid | sid [[|] userTags] | sid target payload | sid | sid];
    cbn [step].
  - exact Hnd.
  - destruct (join_mode_human_cases st sid userTags)
      as [Heq | [pre [e [post [Hq Heq]]]]]; rewrite Heq; cbn [fst waitingQueue].
    + rewrite map_app. cbn [map id]. apply NoDup_snoc; [apply Hsan|].
      apply sanitize_id_fresh.
    + specialize (Hsan sid). rewrite Hq, map_app in Hsan. cbn [map] in Hsan.
      rewrite map_app. now apply NoDup_remove_1 in Hsan.
  - unfold join_mode. cbn [mode fst waitingQueue]. apply Hsan.
  - exact Hnd.
  - unfold leave_chat.
    destruct (leave_rooms sid (rooms_of (adapter st) sid) (adapter st)).
    cbn [fst waitingQueue]. apply Hsan.
  - unfold disconnecting. cbn [fst waitingQueue]. apply Hsan.
Qed.

Lemma run_queue_unique es :
  forall st,
    NoDup (map id (waitingQueue st)) ->
    NoDup (map id (waitingQueue (fst (run st es)))).
Proof.
  induction es as [|e es IH]; intros st Hnd; [exact Hnd|].
  rewrite fst_run_cons. apply IH. now apply step_queue_unique.
Qed.

Lemma length_le_0_nil {A} (l : list A) : (length l <= 0)%nat -> l = [].
Proof. destruct l; cbn; [reflexivity | lia]. Qed.

(** An event that only drops memberships and queue entries keeps the
    invariant. *)
Lemma exclusive_shrink st queue' socks' f :
  exclusive st ->
  NoDup (map id queue') ->
  incl queue' (waitingQueue st) ->
  exclusive (mkState queue' socks' (filter f (adapter st))).
Proof.
  intros [Hnd [Hq Hs]] Hnd' Hincl. split; [exact Hnd'|]. split.
  - intros u Hu. cbn [waitingQueue] in Hu. unfold session_rooms. cbn [adapter].
    apply length_le_0_nil.
    pose proof (sessions_of_filter_le f (adapter st) (id u)) as Hle.
    specialize (Hq u (Hincl u Hu)). unfold session_rooms in Hq.
    rewrite Hq in Hle. exact Hle.
  - intros sid. unfold session_rooms. cbn [adapter].
    pose proof (sessions_of_filter_le f (adapter st) sid) as Hle.
    specialize (Hs sid). unfold session_rooms in Hs. lia.
Qed.

Lemma sanitize_incl sid queue : incl (sanitize sid queue) queue.
Proof. intros u Hu. now apply sanitize_In in Hu. Qed.

Lemma filter_true {A} (l : list A) : filter (fun _ => true) l = l.
Proof. apply filter_all. reflexivity. Qed.

(** The sessions of each socket after a match. *)
Lemma sessions_of_matched st sid partnerId sid' :
  sid' <> sid -> sid' <> partnerId ->
  sessions_of (matched_adapter st sid partnerId) sid' =
  sessions_of (adapter st) sid'.
Proof.
  intros Hs Hp. unfold matched_adapter.
  destruct (existsb (String.eqb partnerId) (sockets st));
    now rewrite ?sessions_of_join_other by assumption.
Qed.

Lemma sessions_of_matched_le st sid partnerId sid' :
  sid <> partnerId ->
  (length (sessions_of (matched_adapter st sid partnerId) sid') <=
   S (length (sessions_of (adapter st) sid')))%nat.
Proof.
  intros Hne. unfold matched_adapter.
  set (roomId := ("room_" ++ partnerId ++ "_" ++ sid)%string).
  destruct (existsb (String.eqb partnerId) (sockets st));
    [|apply sessions_of_join_le].
  destruct (String.eqb sid' partnerId) eqn:E.
  - apply String.eqb_eq in E. subst sid'.
    eapply Nat.le_trans; [apply sessions_of_join_le|].
    rewrite sessions_of_join_other by congruence. lia.
  - apply String.eqb_neq in E. rewrite sessions_of_join_other by assumption.
    apply sessions_of_join_le.
Qed.

(** One event from a socket that respects the protocol keeps the
    invariant. *)
Lemma step_exclusive st e :
  exclusive st -> from_lobby st e = true -> exclusive (fst (step st e)).
Proof.
  intros Hex Hlobby. pose proof Hex as [Hnd [Hq Hs]].
  pose proof (step_queue_unique st e Hnd) as Hnd'.
  destruct e as [sid | sid [[|] userTags] | sid target payload | sid | sid];
    cbn [step] in *.
  - (* connection *)
    split; [exact Hnd'|]. unfold connection, session_rooms.
    cbn [fst waitingQueue adapter].
    split; [intros u Hu | intros s]; rewrite sessions_of_join_default;
      [now apply Hq | apply Hs].
  - (* join_mode, human *)
    cbn [from_lobby] in Hlobby.
    assert (Hsid : session_rooms st sid = [])
      by (destruct (session_rooms st sid); [reflexivity | discriminate]).
    destruct (join_mode_human_cases st sid userTags)
      as [Heq | [pre [e [post [Hsan Heq]]]]]; rewrite Heq in *;
      cbn [fst waitingQueue] in *.
    + split; [exact Hnd'|]. unfold session_rooms. cbn [waitingQueue adapter].
      split; [|exact Hs].
      intros u Hu. apply in_app_or in Hu. destruct Hu as [Hu | [<- | []]].
      * apply Hq. now apply sanitize_incl in Hu.
      * exact Hsid.
    + assert (He : In e (waitingQueue st) /\ id e <> sid).
      { apply sanitize_In. rewrite Hsan. apply in_elt. }
      destruct He as [He Hne].
      assert (Hfresh : ~ In (id e) (map id (pre ++ post))).
      { pose proof (sanitize_unique sid _ Hnd) as Hnds.
        rewrite Hsan, map_app in Hnds. cbn [map] in Hnds.
        apply NoDup_remove_2 in Hnds. now rewrite map_app. }
      split; [exact Hnd'|]. unfold session_rooms. cbn [waitingQueue adapter].
      split.
      * intros u Hu.
        assert (Hu' : In u (sanitize sid (waitingQueue st))).
        { rewrite Hsan. apply in_app_or in Hu. apply in_or_app.
          destruct Hu; [now left | right; now right]. }
        apply sanitize_In in Hu'. destruct Hu' as [Hu' Hus].
        rewrite sessions_of_matched; [now apply Hq | assumption |].
        intros Heq'. apply Hfresh. rewrite <- Heq'. now apply in_map.
      * intros s.
        destruct (String.eqb s sid) eqn:Es;
          [|destruct (String.eqb s (id e)) eqn:Ee].
        -- apply String.eqb_eq in Es. subst s.
           eapply Nat.le_trans;
             [apply sessions_of_matched_le; congruence|].
           unfold session_rooms in Hsid. rewrite Hsid. cbn. lia.
        -- apply String.eqb_eq in Ee. subst s.
           eapply Nat.le_trans;
             [apply sessions_of_matched_le; congruence|].
           specialize (Hq e He). unfold session_rooms in Hq. rewrite Hq.
           cbn. lia.
        -- apply String.eqb_neq in Es, Ee.
           rewrite sessions_of_matched by assumption. apply Hs.
  - (* join_mode, ai *)
    unfold join_mode in *. cbn [mode fst waitingQueue] in *.
    rewrite <- (filter_true (adapter st)).
    apply exclusive_shrink; [assumption | assumption | apply sanitize_incl].
  - (* signal *)
    exact Hex.
  - (* leave_chat *)
    unfold leave_chat in *.
    pose proof (leave_rooms_adapter sid (rooms_of (adapter st) sid)
                  (adapter st)) as Had.
    destruct (leave_rooms sid (rooms_of (adapter st) sid) (adapter st))
      as [ad out].
    cbn [fst waitingQueue] in *. subst ad.
    apply exclusive_shrink; [assumption | assumption | apply sanitize_incl].
  - (* disconnecting *)
    unfold disconnecting, leaveAll in *. cbn [fst waitingQueue] in *.
    apply exclusive_shrink; [assumption | assumption | apply sanitize_incl].
Qed.

Lemma run_exclusive es :
  forall st,
    exclusive st -> polite st es = true -> exclusive (fst (run st es)).
Proof.
  induction es as [|e es IH]; intros st Hex Hpol; [exact Hex|].
  cbn [polite] in Hpol. apply andb_true_iff in Hpol.
  destruct Hpol as [Hlobby Hpol].
  rewrite fst_run_cons. apply IH; [now apply step_exclusive | assumption].
Qed.

Lemma exclusive_init : exclusive init.
Proof.
  split; [constructor|]. split; [intros u []|]. intros sid. cbn. lia.
Qed.

(** C2, as the code has it: after every sequence of events the ids of the
    waiting queue are pairwise distinct; and when every [join_mode] comes
    from a socket that has left its previous room (as the client does, which
    emits [leave_chat] before it joins again), no socket is ever in more
    than one session room. *)
Theorem mutual_exclusion :
  forall es,
    let st := fst (run init es) in
    NoDup (map id (waitingQueue st)) /\
    (polite init es = true ->
     forall sid, (length (session_rooms st sid) <= 1)%nat).
Proof.
  intros es st. split.
  - apply run_queue_unique. constructor.
  - intros Hpol. now apply (run_exclusive es init exclusive_init Hpol).
Qed.

Lemma mutual_exclusion_witness :
  polite init Samples.three_tagged = true /\
  NoDup (map id (waitingQueue (fst (run init Samples.three_tagged)))) /\
  (length (session_rooms (fst (run init Samples.three_tagged)) "A") <= 1)%nat.
Proof.
  split; [reflexivity|].
  destruct (mutual_exclusion Samples.three_tagged) as [Hnd Hs].
  split; [exact Hnd | apply Hs; reflexivity].
Defined.

(** C2 as stated fails: a socket that is matched and asks for a match again
    without leaving ends up in two session rooms. *)
Lemma mutual_exclusion_counterexample :
  session_rooms (fst (run init Samples.double_join)) "B" =
    ["room_A_B"; "room_B_C"] /\
  ~ (forall es sid, (length (session_rooms (fst (run init es)) sid) <= 1)%nat).
Proof.
  split; [reflexivity|]. intros H.
  specialize (H Samples.double_join "B"). cbn in H. lia.
Qed.

End Exclusivity.

(** ** The session relay: withdrawal and agent replies *)

Module Relay.

Import Shared Server Spec Rooms Exclusivity.

Lemma join_NoDup ad sid room : NoDup ad -> NoDup (join ad sid room).
Proof.
  intros Hnd. unfold join. destruct (is_member ad sid room) eqn:E.
  - exact Hnd.
  - apply NoDup_snoc; [exact Hnd|]. intros Hin.
    apply is_member_In in Hin. congruence.
Qed.

(** The adapter holds every membership once. *)
Lemma step_adapter_NoDup st e :
  NoDup (adapter st) -> NoDup (adapter (fst (step st e))).
Proof.
  intros Hnd.
  destruct e as [sid | sid [[|] userTags] | sid target payload | sid | sid];
    cbn [step].
  - cbn. now apply join_NoDup.
  - destruct (join_mode_human_cases st sid userTags)
      as [Heq | [pre [e [post [_ Heq]]]]]; rewrite Heq; cbn [fst adapter].
    + exact Hnd.
    + unfold matched_adapter.
      destruct (existsb (String.eqb (id e)) (sockets st));
        repeat apply join_NoDup; exact Hnd.
  - exact Hnd.
  - exact Hnd.
  - unfold leave_chat.
    pose proof (leave_rooms_adapter sid (rooms_of (adapter st) sid)
                  (adapter st)) as Had.
    destruct (leave_rooms sid (rooms_of (adapter st) sid) (adapter st)).
    cbn [fst adapter] in *. subst. now apply NoDup_filter.
  - cbn. now apply NoDup_filter.
Qed.

Lemma run_adapter_NoDup es :
  forall st, NoDup (adapter st) -> NoDup (adapter (fst (run st es))).
Proof.
  induction es as [|e es IH]; intros st Hnd; [exact Hnd|].
  rewrite fst_run_cons. apply IH. now apply step_adapter_NoDup.
Qed.

Lemma members_In ad room sid :
  In sid (members ad room) <-> In (sid, room) ad.
Proof.
  unfold members. rewrite in_map_iff. split.
  - intros [m [Hm Hin]]. apply filter_In in Hin. destruct Hin as [Hin Hf].
    apply String.eqb_eq in Hf. destruct m as [s r]. cbn in *. now subst.
  - intros Hin. exists (sid, room). split; [reflexivity|].
    apply filter_In. split; [assumption | apply String.eqb_refl].
Qed.

(** A room lists each of its sockets once. *)
Lemma members_NoDup ad room : NoDup ad -> NoDup (members ad room).
Proof.
  induction ad as [|m ad IH]; intros Hnd; [constructor|].
  inversion Hnd as [|m' ad' Hnotin Hnd']; subst.
  unfold members. cbn [filter].
  destruct (String.eqb (snd m) room) eqn:E; [|now apply IH].
  cbn [map]. constructor; [|now apply IH].
  fold (members ad room). rewrite members_In.
  apply String.eqb_eq in E. subst room. now destruct m.
Qed.

Lemma count_one (l : list string) (q : string) :
  NoDup l -> In q l ->
  length (filter (fun t => String.eqb t q) l) = 1%nat.
Proof.
  induction l as [|x l IH]; intros Hnd Hin; [contradiction|].
  inversion Hnd as [|x' l' Hnotin Hnd']; subst. cbn [filter].
  destruct (String.eqb x q) eqn:E.
  - apply String.eqb_eq in E. subst x. cbn [length]. f_equal.
    rewrite (proj2 (length_zero_iff_nil _)); [reflexivity|].
    apply nil_of_no_In. intros y Hy. apply filter_In in Hy.
    destruct Hy as [Hy Hq]. apply String.eqb_eq in Hq. now subst.
  - apply String.eqb_neq in E. apply IH; [assumption|].
    destruct Hin; [contradiction | assumption].
Qed.

Lemma notified_emit (l : list string) (q : string) :
  notified q (map (fun t => (t, peer_disconnected)) l) =
  length (filter (fun t => String.eqb t q) l).
Proof.
  unfold notified. induction l as [|x l IH]; [reflexivity|].
  cbn [map filter fst snd is_peer_disconnected].
  rewrite andb_true_r. destruct (String.eqb x q); cbn [length]; now rewrite IH.
Qed.

(** A member of the room other than the sender gets the notification of
    [socket.to(room).emit] once. *)
Lemma notified_room_except ad sid room q :
  NoDup ad -> In q (members ad room) -> q <> sid ->
  notified q (emit_room_except ad sid room peer_disconnected) = 1%nat.
Proof.
  intros Hnd Hin Hne. unfold emit_room_except. rewrite notified_emit.
  apply count_one.
  - apply NoDup_filter. now apply members_NoDup.
  - apply filter_In. split; [assumption|].
    now apply negb_true_iff, String.eqb_neq.
Qed.

(** [leave_rooms] emits nothing when the socket is in no session room. *)
Lemma leave_rooms_silent sid rooms :
  filter (fun room => negb (String.eqb room sid)) rooms = [] ->
  forall ad, snd (leave_rooms sid rooms ad) = [].
Proof.
  induction rooms as [|room rooms IH]; intros Hf ad; [reflexivity|].
  cbn [filter] in Hf. cbn [leave_rooms].
  destruct (negb (String.eqb room sid)); [discriminate | now apply IH].
Qed.

Lemma notify_rooms_filter sid rooms ad :
  notify_rooms sid rooms ad =
  flat_map (fun room => emit_room_except ad sid room peer_disconnected)
           (filter (fun room => negb (String.eqb room sid)) rooms).
Proof.
  unfold notify_rooms. induction rooms as [|room rooms IH]; [reflexivity|].
  cbn [flat_map filter]. rewrite IH.
  now destruct (negb (String.eqb room sid)).
Qed.

(** A withdrawal of a socket that is in no session room notifies nobody. *)
Lemma withdrawal_silent st p e :
  session_rooms st p = [] -> withdrawal p e -> snd (step st e) = [].
Proof.
  unfold session_rooms, sessions_of. intros Hs [-> | ->]; cbn [step].
  - unfold leave_chat.
    pose proof (leave_rooms_silent p _ Hs (adapter st)) as Hout.
    now destruct (leave_rooms p (rooms_of (adapter st) p) (adapter st)).
  - unfold disconnecting. cbn [snd]. now rewrite notify_rooms_filter, Hs.
Qed.

(** After a withdrawal the socket is in no session room. *)
Lemma withdrawal_leaves st p e :
  withdrawal p e -> session_rooms (fst (step st e)) p = [].
Proof.
  unfold session_rooms. intros [-> | ->]; cbn [step].
  - unfold leave_chat.
    pose proof (sessions_of_after_leave_rooms (adapter st) p) as H.
    now destruct (leave_rooms p (rooms_of (adapter st) p) (adapter st)).
  - unfold disconnecting. cbn [fst adapter]. apply sessions_of_after_leaveAll.
Qed.

Lemma notified_app q out out' :
  notified q (out ++ out') = (notified q out + notified q out')%nat.
Proof. unfold notified. now rewrite filter_app, length_app. Qed.

(** C7: when the backend fails with a transient-classified error on each of
    the three attempts, [send_message] delivers exactly one message, the
    system message, to the sender; the two backoff delays waited are 2000
    and 4000 ms, in non-decreasing order. *)
Theorem transient_exhaustion :
  forall backend random_id now sid data st,
    m_isAi data = true ->
    (forall k, (1 <= k <= 3)%nat ->
       exists error,
         backend (history_of data) k = Agent.Failure error /\
         Agent.transient (Agent.message_of error) = true) ->
    let res := send_message backend random_id now sid data st in
    fst res =
      [(sid,
        receive_message
          (mkChatMessage "error" system "AI is currently offline" now))] /\
    snd res = [2000; 4000]%Z /\
    Sorted Z.le (snd res).
Proof.
  intros backend random_id now sid data st Hai Hfail res.
  destruct (Hfail 1%nat ltac:(lia)) as [e1 [Hb1 Ht1]].
  destruct (Hfail 2%nat ltac:(lia)) as [e2 [Hb2 Ht2]].
  destruct (Hfail 3%nat ltac:(lia)) as [e3 [Hb3 Ht3]].
  set (b := backend (history_of data)) in *.
  assert (H3 : Agent.attempts b 3 1000 1 3 = (Agent.Thrown e3, [])).
  { apply AgentFacts.attempts_terminal;
      [now apply AgentFacts.try_generate_failure | reflexivity]. }
  assert (H2 : Agent.attempts b 3 1000 2 2 = (Agent.Thrown e3, [4000%Z])).
  { rewrite (AgentFacts.attempts_retry b 3 1000 1 2 e2);
      [now rewrite H3 | now apply AgentFacts.try_generate_failure
       | lia | assumption]. }
  assert (H1 : Agent.attempts b 3 1000 3 1 =
               (Agent.Thrown e3, [2000%Z; 4000%Z])).
  { rewrite (AgentFacts.attempts_retry b 3 1000 2 1 e1);
      [now rewrite H2 | now apply AgentFacts.try_generate_failure
       | lia | assumption]. }
  assert (Hres : res =
                 (emit_socket sid (receive_message (offline_message now)),
                  [2000%Z; 4000%Z])).
  { unfold res, send_message. rewrite Hai.
    unfold Agent.callGeminiRetry_default, Agent.callGeminiRetry.
    fold b. now rewrite H1. }
  rewrite Hres. cbn [fst snd]. repeat split.
  repeat constructor; lia.
Qed.

Lemma transient_exhaustion_witness :
  send_message Samples.always_limited "r4nd0m" 1700000000000 "A"
    Samples.ai_question init =
  ([("A",
     receive_message
       (mkChatMessage "error" system "AI is currently offline"
                      1700000000000))],
   [2000; 4000]%Z).
Proof.
  pose proof
    (transient_exhaustion Samples.always_limited "r4nd0m" 1700000000000 "A"
       Samples.ai_question init) as H.
  destruct H as [Hout [Hslept _]].
  - reflexivity.
  - intros k _. eexists. split; reflexivity.
  - rewrite <- Hout, <- Hslept. now destruct (send_message _ _ _ _ _ _).
Defined.

End Relay.

(** ** The connection state machine of the client *)

Module Handshake.

Import Shared WebRTC.

(** A signal of the session peer is handed to [peer.signal]. *)
Lemma peer_signal_fed h chatData data :
  listener h = Some chatData ->
  from data = peerId (chat chatData) ->
  option_map signalled (peer (handleIncomingSignal data h)) =
  option_map (fun q => signalled q ++ [signal data]) (peer h).
Proof.
  intros Hl Hfrom. unfold handleIncomingSignal. rewrite Hl, Hfrom.
  rewrite String.eqb_refl. cbn [peer]. now destruct (peer h).
Qed.

(** Once the effect has run, the hook is connecting and listens for the
    peer of its [chatData]. *)
Lemma setup_listens chatData stream h :
  peerRef h = false ->
  let h' := setup (Some chatData) (Some stream) false h in
  connectionState h' = connecting /\ listener h' = Some chatData.
Proof. intros Href. unfold setup. rewrite Href. now split. Qed.

(** C8: in every state in which the hook listens for signals, so in
    particular while it is connecting or connected, a [signal_received]
    whose [from] is not the peer of its session is ignored: the whole state
    of the hook is as before, in particular its connection state and the
    payloads that were handed to [peer.signal]. *)
Theorem stale_signal_ignored :
  forall h chatData data,
    listener h = Some chatData ->
    from data <> peerId (chat chatData) ->
    handleIncomingSignal data h = h /\
    connectionState (handleIncomingSignal data h) = connectionState h /\
    option_map signalled (peer (handleIncomingSignal data h)) =
      option_map signalled (peer h).
Proof.
  intros h chatData data Hl Hfrom.
  assert (Heq : handleIncomingSignal data h = h).
  { unfold handleIncomingSignal. rewrite Hl.
    apply String.eqb_neq in Hfrom. now rewrite Hfrom. }
  rewrite Heq. now repeat split.
Qed.

Lemma stale_signal_ignored_witness :
  connectionState Samples.answering = connecting /\
  handleIncomingSignal Samples.stale Samples.answering = Samples.answering /\
  handleIncomingSignal Samples.stale
    (on_stream "remote" Samples.answering) =
    on_stream "remote" Samples.answering.
Proof.
  split; [reflexivity|]. split.
  - apply (stale_signal_ignored Samples.answering
             (mkChatData (mkChatInstance "room_A_B" "A" false) false)
             Samples.stale); [reflexivity | discriminate].
  - apply (stale_signal_ignored (on_stream "remote" Samples.answering)
             (mkChatData (mkChatInstance "room_A_B" "A" false) false)
             Samples.stale); [reflexivity | discriminate].
Defined.

End Handshake.

(** ** Interest tags from the form to the queue *)

Module Tags.

Import Shared Server Spec Matchmaking.

Section Normalised.

Variables (trim toLowerCase : string -> string).

Lemma enter_tag_interests f x :
  App.interests (App.enter_tag trim toLowerCase f x) =
  if Js.nonempty (toLowerCase (trim x)) &&
     negb (Js.arr_includes (App.interests f) (toLowerCase (trim x)))
  then App.interests f ++ [toLowerCase (trim x)]
  else App.interests f.
Proof. reflexivity. Qed.

Lemma enter_tag_keeps f x tag :
  In tag (App.interests f) ->
  In tag (App.interests (App.enter_tag trim toLowerCase f x)).
Proof.
  intros Hin. rewrite enter_tag_interests.
  destruct (_ && _); [apply in_or_app; now left | assumption].
Qed.

Lemma enter_tag_adds f x :
  Js.nonempty (toLowerCase (trim x)) = true ->
  In (toLowerCase (trim x))
     (App.interests (App.enter_tag trim toLowerCase f x)).
Proof.
  intros Hne. rewrite enter_tag_interests, Hne. cbn [andb].
  destruct (Js.arr_includes (App.interests f) (toLowerCase (trim x))) eqn:E;
    cbn [negb].
  - now apply arr_includes_In.
  - apply in_or_app. right. now left.
Qed.

Lemma entered_keeps typed :
  forall f tag,
    In tag (App.interests f) ->
    In tag
       (App.interests (fold_left (App.enter_tag trim toLowerCase) typed f)).
Proof.
  induction typed as [|x typed IH]; intros f tag Hin; [assumption|].
  cbn [fold_left]. apply IH. now apply enter_tag_keeps.
Qed.

Lemma entered_adds typed :
  forall f x,
    In x typed -> Js.nonempty (toLowerCase (trim x)) = true ->
    In (toLowerCase (trim x))
       (App.interests (fold_left (App.enter_tag trim toLowerCase) typed f)).
Proof.
  induction typed as [|y typed IH]; intros f x Hin Hne; [contradiction|].
  cbn [fold_left]. destruct Hin as [-> | Hin].
  - apply entered_keeps. now apply enter_tag_adds.
  - now apply IH.
Qed.

Lemma entered_normal typed :
  forall f,
    Forall (fun tag => exists x, tag = toLowerCase (trim x))
           (App.interests f) ->
    Forall (fun tag => exists x, tag = toLowerCase (trim x))
           (App.interests (fold_left (App.enter_tag trim toLowerCase) typed f)).
Proof.
  induction typed as [|y typed IH]; intros f Hf; [assumption|].
  cbn [fold_left]. apply IH. rewrite enter_tag_interests.
  destruct (_ && _); [|assumption].
  apply Forall_app. split; [assumption|].
  constructor; [now exists y | constructor].
Qed.

Lemma tags_of_normal typed :
  Forall (fun tag => exists x, tag = toLowerCase (trim x))
         (App.tags_of trim toLowerCase typed).
Proof. apply entered_normal. constructor. Qed.

Lemma tags_of_adds typed x :
  In x typed -> Js.nonempty (toLowerCase (trim x)) = true ->
  In (toLowerCase (trim x)) (App.tags_of trim toLowerCase typed).
Proof. apply entered_adds. Qed.

End Normalised.

(** The server itself compares tags as they are. *)
Lemma server_compares_exactly :
  passes ["Music"] (mkQueuedUser "w" ["music"]) = false.
Proof. reflexivity. Qed.

(** C9: the form trims and lower-cases every tag it accepts, so the tags of
    a request are all case-normalised, and two participants who typed tags
    that are equal up to letter case (and surrounding blanks) are
    compatible: the scan of [join_mode] stops at the waiting one. *)
Theorem case_insensitive_match :
  forall (trim toLowerCase : string -> string) typedA typedB a b,
    In a typedA ->
    In b typedB ->
    toLowerCase (trim a) = toLowerCase (trim b) ->
    Js.nonempty (toLowerCase (trim a)) = true ->
    let tagsA := App.tags_of trim toLowerCase typedA in
    let tagsB := App.tags_of trim toLowerCase typedB in
    Forall (fun tag => exists x, tag = toLowerCase (trim x)) tagsA /\
    Forall (fun tag => exists x, tag = toLowerCase (trim x)) tagsB /\
    tag_compatible tagsA tagsB /\
    (forall waiting rest i,
       interests waiting = tagsB ->
       scan tagsA (waiting :: rest) i = i).
Proof.
  intros trim toLowerCase typedA typedB a b Ha Hb Heq Hne tagsA tagsB.
  assert (HA : In (toLowerCase (trim a)) tagsA) by now apply tags_of_adds.
  assert (HB : In (toLowerCase (trim a)) tagsB)
    by (rewrite Heq; apply tags_of_adds; [assumption | now rewrite <- Heq]).
  assert (Hc : tag_compatible tagsA tagsB).
  { right. repeat split.
    - intros E. now rewrite E in HA.
    - intros E. now rewrite E in HB.
    - now exists (toLowerCase (trim a)). }
  repeat split; try apply tags_of_normal; try assumption.
  intros waiting rest i Hw. rewrite scan_cons.
  rewrite (proj2 (passes_spec tagsA waiting)); [reflexivity|].
  now rewrite Hw.
Qed.

Lemma case_insensitive_match_witness :
  App.tags_of Js.trim Js.toLowerCase ["Music"] = ["music"] /\
  App.tags_of Js.trim Js.toLowerCase ["travel"; " music "] =
    ["travel"; "music"] /\
  scan (App.tags_of Js.trim Js.toLowerCase ["Music"])
       [mkQueuedUser "B" (App.tags_of Js.trim Js.toLowerCase
                            ["travel"; " music "])] 0 = 0%Z.
Proof.
  split; [reflexivity|]. split; [reflexivity|].
  apply (case_insensitive_match Js.trim Js.toLowerCase
           ["Music"] ["travel"; " music "] "Music" " music ").
  - left. reflexivity.
  - right. left. reflexivity.
  - reflexivity.
  - reflexivity.
  - reflexivity.
Defined.

End Tags.

(** ** ASCII tags are stored in lower case *)

Module Lowercase.

Lemma lower_ascii_idempotent (c : ascii) :
  Js.lower_ascii (Js.lower_ascii c) = Js.lower_ascii c.
Proof.
  destruct c as [[] [] [] [] [] [] [] []]; reflexivity.
Qed.

Lemma toLowerCase_idempotent (s : string) :
  Js.toLowerCase (Js.toLowerCase s) = Js.toLowerCase s.
Proof.
  induction s as [|c s IH]; [reflexivity|].
  cbn [Js.toLowerCase]. now rewrite lower_ascii_idempotent, IH.
Qed.

(** Every tag of a request built by the form is its own lower-case form. *)
Lemma tags_lowercase (typed : list string) :
  Forall (fun tag => Js.toLowerCase tag = tag)
         (App.tags_of Js.trim Js.toLowerCase typed).
Proof.
  eapply Forall_impl; [|apply Tags.tags_of_normal].
  cbn beta. intros tag [x ->]. apply toLowerCase_idempotent.
Qed.

End Lowercase.

(** ** The scenarios of the specification *)

Module Scenarios.

Import Shared Server Spec.

(** Agent mode: an immediate match with the initiator role; the rooms are
    untouched and the queue only loses a stale entry of the requester. *)
Lemma join_mode_ai st sid tags :
  join_mode sid (mkChatRequest ai tags) st =
  (mkState (sanitize sid (waitingQueue st)) (sockets st) (adapter st),
   [(sid,
     match_found (mkChatInstance ("ai_" ++ sid)%string "ai-agent" true) true)]).
Proof. reflexivity. Qed.

(** Tags [music], then [sports], then [music, travel]: the first two are
    enqueued, the third is matched with the first, who becomes initiator. *)
Example three_tagged_trace :
  run init Samples.three_tagged =
  (mkState [mkQueuedUser "B" ["sports"]] ["A"; "B"; "C"]
           [("A", "A"); ("B", "B"); ("C", "C");
            ("C", "room_A_C"); ("A", "room_A_C")],
   [("A", waiting_in_queue); ("B", waiting_in_queue);
    ("A", match_found (mkChatInstance "room_A_C" "C" false) true);
    ("C", match_found (mkChatInstance "room_A_C" "A" false) false)]).
Proof. reflexivity. Qed.

(** A and B are matched and A drops off: B is told once, and a later
    [leave_chat] of B tells nobody. *)
Example disconnect_mid_handshake :
  snd (run (fst (run init Samples.paired))
           [Disconnecting "A"; LeaveChat "B"]) =
  [("B", peer_disconnected)].
Proof. reflexivity. Qed.

(** B's hook, whose peer is A, drops a signal that names another sender and
    feeds one that names A. *)
Example signals_of_old_session :
  WebRTC.handleIncomingSignal Samples.stale Samples.answering =
    Samples.answering /\
  option_map WebRTC.signalled
    (WebRTC.peer
       (WebRTC.handleIncomingSignal (WebRTC.mkIncoming "offer" "A")
          Samples.answering)) = Some ["offer"].
Proof. split; reflexivity. Qed.

End Scenarios.

(** * Further properties *)

(** ** The retry loop of the agent adapter *)

Module Backoff.

Import Agent.

Lemma attempts_sleeps_bound backend retries delay fuel :
  forall attempt,
    (length (snd (attempts backend retries delay fuel attempt)) <=
     retries - attempt)%nat.
Proof.
  induction fuel as [|fuel IH]; intros attempt; [cbn; lia|].
  cbn [attempts]. destruct (try_generate backend attempt) as [resText|error];
    [cbn; lia|].
  destruct (attempt <? retries)%nat eqn:Hlt; cbn [andb]; [|cbn; lia].
  destruct (transient (message_of error)); [|cbn; lia].
  specialize (IH (S attempt)).
  destruct (attempts backend retries delay fuel (S attempt)) as [o ds].
  cbn [snd length] in *. apply Nat.ltb_lt in Hlt. lia.
Qed.

(** X1: whatever the backend does, the delays waited by one call are
    [delay * 2], [delay * 4], ... in this order, one for each failed attempt
    that is retried, and there are at most [retries - 1] of them: the backend
    is called at most [retries] times. *)
Theorem retry_schedule :
  forall backend retries delay,
    let slept := snd (callGeminiRetry backend retries delay) in
    slept = map (fun k => (delay * 2 ^ Z.of_nat k)%Z) (seq 1 (length slept)) /\
    (length slept <= retries - 1)%nat.
Proof.
  intros backend retries delay slept. split.
  - destruct (AgentFacts.attempts_delays backend retries delay retries 1)
      as [n Hn].
    unfold slept, callGeminiRetry. rewrite Hn.
    now rewrite length_map, length_seq.
  - apply attempts_sleeps_bound.
Qed.

Lemma try_generate_text backend attempt resText :
  try_generate backend attempt = inl resText -> resText <> "".
Proof.
  unfold try_generate. destruct (backend attempt) as [res_text|error];
    [|discriminate].
  destruct res_text as [[|c t]|]; cbn; try discriminate.
  intros H. inversion H. discriminate.
Qed.

Lemma attempts_text backend retries delay fuel :
  forall attempt resText,
    fst (attempts backend retries delay fuel attempt) = Returned resText ->
    resText <> "".
Proof.
  induction fuel as [|fuel IH]; intros attempt resText.
  - cbn. intros H. inversion H. discriminate.
  - cbn [attempts].
    destruct (try_generate backend attempt) as [t|error] eqn:Htry.
    + cbn. intros H. inversion H. subst. eapply try_generate_text; eassumption.
    + destruct ((attempt <? retries)%nat && transient (message_of error)).
      * specialize (IH (S attempt) resText).
        destruct (attempts backend retries delay fuel (S attempt)).
        cbn [fst] in *. exact IH.
      * cbn. discriminate.
Qed.

(** X2: a call that returns hands back a text that is not empty, whatever
    the backend answered and whatever the number of attempts. *)
Theorem returned_text_nonempty :
  forall backend retries delay,
    match fst (callGeminiRetry backend retries delay) with
    | Returned resText => resText <> ""
    | Thrown _ => True
    end.
Proof.
  intros backend retries delay.
  destruct (fst (callGeminiRetry backend retries delay)) as [t|e] eqn:E;
    [|exact I].
  eapply attempts_text. exact E.
Qed.

(** The loop from iteration [attempt] on, when at least one iteration is
    left: the attempts before the last one made failed with a transient
    error, and the last one made decides. *)
Lemma attempts_decided backend retries delay fuel :
  forall attempt,
    (attempt + fuel = retries)%nat ->
    let res := attempts backend retries delay (S fuel) attempt in
    let n := length (snd res) in
    (forall k, (attempt <= k < attempt + n)%nat ->
       exists error,
         try_generate backend k = inr error /\
         transient (message_of error) = true) /\
    match fst res with
    | Returned resText => try_generate backend (attempt + n) = inl resText
    | Thrown error =>
        try_generate backend (attempt + n) = inr error /\
        (transient (message_of error) = false \/ (attempt + n)%nat = retries)
    end.
Proof.
  induction fuel as [|fuel IH]; intros attempt Hsum.
  - cbn [attempts].
    destruct (try_generate backend attempt) as [t|error] eqn:Htry.
    + cbn. rewrite Nat.add_0_r. split; [intros k Hk; lia | assumption].
    + replace (attempt <? retries)%nat with false
        by (symmetry; apply Nat.ltb_ge; lia).
      cbn. rewrite Nat.add_0_r. split; [intros k Hk; lia|].
      split; [assumption | right; lia].
  - cbn zeta. remember (S fuel) as fuel' eqn:Hf. cbn [attempts].
    destruct (try_generate backend attempt) as [t|error] eqn:Htry.
    + cbn. rewrite Nat.add_0_r. split; [intros k Hk; lia | assumption].
    + destruct (transient (message_of error)) eqn:Htr.
      * replace (attempt <? retries)%nat with true
          by (symmetry; apply Nat.ltb_lt; lia).
        cbn [andb]. subst fuel'.
        specialize (IH (S attempt) ltac:(lia)). cbn zeta in IH.
        destruct (attempts backend retries delay (S fuel) (S attempt))
          as [o ds].
        cbn [fst snd length] in *. destruct IH as [Hbefore Hlast].
        replace (attempt + S (length ds))%nat with (S attempt + length ds)%nat
          by lia.
        split; [|exact Hlast].
        intros k Hk. destruct (Nat.eq_dec k attempt) as [-> | Hne].
        -- now exists error.
        -- apply Hbefore. lia.
      * rewrite andb_false_r. cbn. rewrite Nat.add_0_r.
        split; [intros k Hk; lia|]. split; [assumption | now left].
Qed.

(** X3: with at least one attempt allowed, the fallback sentence of the last
    line is never what the call returns by itself: after [n] delays, the
    attempts 1 to [n] failed with a transient error and attempt [n + 1]
    decides, either by the text it got or by the error it met, an error that
    is not transient or that of the last attempt allowed. *)
Theorem outcome_of_last_attempt :
  forall backend retries delay,
    (1 <= retries)%nat ->
    let res := callGeminiRetry backend retries delay in
    let n := length (snd res) in
    (forall k, (1 <= k <= n)%nat ->
       exists error,
         try_generate backend k = inr error /\
         transient (message_of error) = true) /\
    match fst res with
    | Returned resText => try_generate backend (S n) = inl resText
    | Thrown error =>
        try_generate backend (S n) = inr error /\
        (transient (message_of error) = false \/ S n = retries)
    end.
Proof.
  intros backend retries delay Hr res n.
  destruct retries as [|fuel]; [lia|].
  pose proof (attempts_decided backend (S fuel) delay fuel 1 ltac:(lia)) as H.
  cbn zeta in H. fold (callGeminiRetry backend (S fuel) delay) in H.
  fold res in H. fold n in H. destruct H as [Hbefore Hlast].
  split; [intros k Hk; apply Hbefore; lia | exact Hlast].
Qed.

Lemma outcome_of_last_attempt_witness :
  (1 <= 3)%nat /\
  try_generate Samples.unavailable_then_hi
    (S (length (snd (callGeminiRetry Samples.unavailable_then_hi 3 1000)))) =
  inl "hi".
Proof.
  split; [lia|].
  destruct (outcome_of_last_attempt Samples.unavailable_then_hi 3 1000)
    as [_ Hlast]; [lia|].
  exact Hlast.
Defined.

(** X4: a rejected call is retried only for a transient error and only
    while attempts remain: an error whose message has none of the three
    signatures (an error without message among them), or the error of the
    last attempt allowed, is rethrown at once, without a delay. *)
Theorem failure_not_retried :
  forall backend retries delay fuel attempt error,
    backend attempt = Failure error ->
    transient (message_of error) = false \/ (retries <= attempt)%nat ->
    attempts backend retries delay (S fuel) attempt = (Thrown error, []).
Proof.
  intros backend retries delay fuel attempt error Hb Hwhy.
  apply AgentFacts.attempts_terminal.
  - now apply AgentFacts.try_generate_failure.
  - destruct Hwhy as [Htr | Hle].
    + rewrite Htr. apply andb_false_r.
    + replace (attempt <? retries)%nat with false
        by (symmetry; apply Nat.ltb_ge; lia).
      reflexivity.
Qed.

Lemma failure_not_retried_witness :
  transient (message_of (mkError None)) = false /\
  attempts (fun _ => Failure (mkError None)) 3 1000 3 1 =
    (Thrown (mkError None), []).
Proof.
  split; [reflexivity|].
  apply (failure_not_retried (fun _ => Failure (mkError None)) 3 1000 2 1
           (mkError None)); [reflexivity | left; reflexivity].
Defined.

End Backoff.

(** ** The waiting queue *)

Module Waiting.

Import Shared Server Spec Protocol Matchmaking Exclusivity.

Lemma tag_compatible_sym a b : tag_compatible a b -> tag_compatible b a.
Proof.
  intros [[Ha Hb] | [Ha [Hb [tag [Hina Hinb]]]]]; [left; now split | right].
  repeat split; try assumption. now exists tag.
Qed.

Section Pairs.

Variable R : QueuedUser -> QueuedUser -> Prop.

Lemma pairs_filter (p : QueuedUser -> bool) (l : list QueuedUser) :
  ForallOrdPairs R l -> ForallOrdPairs R (filter p l).
Proof.
  induction 1 as [|a l Ha Hl IH]; cbn [filter]; [constructor|].
  destruct (p a); [|exact IH]. constructor; [|exact IH].
  rewrite Forall_forall in *. intros x Hx. apply filter_In in Hx. now apply Ha.
Qed.

Lemma pairs_without (pre : list QueuedUser) e post :
  ForallOrdPairs R (pre ++ e :: post) -> ForallOrdPairs R (pre ++ post).
Proof.
  induction pre as [|a pre IH]; cbn [app]; intros H;
    inversion H as [|x l Hx Hl]; subst; [assumption|].
  constructor; [|now apply IH].
  rewrite Forall_forall in *. intros y Hy. apply Hx.
  apply in_app_or in Hy. apply in_or_app.
  destruct Hy; [now left | right; now right].
Qed.

Lemma pairs_snoc (l : list QueuedUser) x :
  ForallOrdPairs R l -> Forall (fun u => R u x) l ->
  ForallOrdPairs R (l ++ [x]).
Proof.
  induction 1 as [|a l Ha Hl IH]; cbn [app]; intros Hx.
  - repeat constructor.
  - inversion Hx as [|y l' Hax Hlx]; subst.
    constructor; [|now apply IH].
    apply Forall_app. split; [assumption | now constructor].
Qed.

End Pairs.

(** One event keeps the waiting entries pairwise incompatible. *)
Lemma step_strangers st e :
  strangers (waitingQueue st) -> strangers (waitingQueue (fst (step st e))).
Proof.
  unfold strangers. intros Hs.
  assert (Hsan : forall sid,
             ForallOrdPairs
               (fun u v => ~ tag_compatible (interests u) (interests v))
               (sanitize sid (waitingQueue st)))
    by (intros sid; now apply pairs_filter).
  destruct e as [sid | sid [[|] userTags] | sid target payload | sid | sid];
    cbn [step].
  - exact Hs.
  - destruct (first_passing userTags (sanitize sid (waitingQueue st)))
      as [Hnone | [pre [e [post [Hq [Hpre He]]]]]].
    + rewrite (join_mode_enqueued st sid userTags Hnone).
      cbn [fst waitingQueue]. apply pairs_snoc; [apply Hsan|].
      eapply Forall_impl; [|exact Hnone].
      cbn beta. intros u Hu Hc. cbn [interests] in Hc.
      apply tag_compatible_sym in Hc. apply passes_spec in Hc. congruence.
    + pose proof (join_mode_matched st sid userTags pre e post Hq Hpre He)
        as Hj.
      cbv zeta in Hj. rewrite Hj. cbn [fst waitingQueue].
      specialize (Hsan sid). rewrite Hq in Hsan.
      now apply pairs_without in Hsan.
  - unfold join_mode. cbn [mode fst waitingQueue]. apply Hsan.
  - exact Hs.
  - unfold leave_chat.
    destruct (leave_rooms sid (rooms_of (adapter st) sid) (adapter st)).
    cbn [fst waitingQueue]. apply Hsan.
  - unfold disconnecting. cbn [fst waitingQueue]. apply Hsan.
Qed.

(** X5: whatever the sockets do, no two participants that could be matched
    with each other wait at the same time: the entries of the queue are
    pairwise incompatible (in particular at most one of them has no tags). *)
Theorem queue_of_strangers :
  forall es, strangers (waitingQueue (fst (run init es))).
Proof.
  intros es.
  assert (H : forall st, strangers (waitingQueue st) ->
                         strangers (waitingQueue (fst (run st es)))).
  { induction es as [|e es IH]; intros st Hs; [exact Hs|].
    rewrite fst_run_cons. apply IH. now apply step_strangers. }
  apply H. constructor.
Qed.

Lemma not_queued_after_sanitize sid queue l :
  incl l (sanitize sid queue) -> ~ In sid (map id l).
Proof.
  intros Hincl Hin. apply in_map_iff in Hin. destruct Hin as [u [Hu Hin]].
  apply Hincl, sanitize_In in Hin. tauto.
Qed.

(** X6: [join_mode] always answers the requester, with [waiting_in_queue]
    or with a [match_found], never with both; and the requester is in the
    queue afterwards exactly when the answer was [waiting_in_queue] (so
    never after a match, and never in agent mode). *)
Theorem join_mode_reply :
  forall st sid request,
    let res := join_mode sid request st in
    let queued := In sid (map id (waitingQueue (fst res))) in
    (In (sid, waiting_in_queue) (snd res) <-> queued) /\
    ((exists chatData initiator,
         In (sid, match_found chatData initiator) (snd res)) <-> ~ queued).
Proof.
  intros st sid [[|] userTags] res queued; unfold queued, res; clear queued res.
  - destruct (first_passing userTags (sanitize sid (waitingQueue st)))
      as [Hnone | [pre [e [post [Hq [Hpre He]]]]]].
    + rewrite (join_mode_enqueued st sid userTags Hnone).
      cbn [fst snd waitingQueue].
      assert (Hin : In sid (map id (sanitize sid (waitingQueue st) ++
                                    [mkQueuedUser sid userTags]))).
      { rewrite map_app. apply in_or_app. right. now left. }
      split; split; try tauto.
      * intros _. now left.
      * intros [chatData [initiator [H | []]]]. discriminate.
    + pose proof (join_mode_matched st sid userTags pre e post Hq Hpre He)
        as Hj.
      cbv zeta in Hj. rewrite Hj. cbn [fst snd waitingQueue].
      assert (Hout : ~ In sid (map id (pre ++ post))).
      { apply (not_queued_after_sanitize sid (waitingQueue st)).
        rewrite Hq. intros u Hu. apply in_app_or in Hu. apply in_or_app.
        destruct Hu; [now left | right; now right]. }
      split; split; try tauto.
      * intros Hin. apply in_app_or in Hin. destruct Hin as [Hin | [H | []]].
        -- unfold emit_room in Hin. apply in_map_iff in Hin.
           destruct Hin as [t [Ht _]]. discriminate.
        -- discriminate.
      * intros _. do 2 eexists. apply in_or_app. right. now left.
  - unfold join_mode. cbn [mode fst snd waitingQueue emit_socket].
    assert (Hout : ~ In sid (map id (sanitize sid (waitingQueue st))))
      by (apply (not_queued_after_sanitize sid (waitingQueue st)), incl_refl).
    split; split; try tauto.
    + intros [H | []]. discriminate.
    + intros _. do 2 eexists. now left.
Qed.

(** With distinct ids, removing the entries of [sid] removes one entry at
    most, in place. *)
Lemma sanitize_one sid queue :
  NoDup (map id queue) ->
  (sanitize sid queue = queue /\ ~ In sid (map id queue)) \/
  exists pre u post,
    queue = pre ++ u :: post /\ id u = sid /\ sanitize sid queue = pre ++ post.
Proof.
  unfold sanitize. induction queue as [|v queue IH]; intros Hnd.
  - left. split; [reflexivity | intros []].
  - cbn [map] in Hnd. apply NoDup_cons_iff in Hnd. destruct Hnd as [Hv Hnd].
    cbn [filter]. destruct (String.eqb (id v) sid) eqn:E; cbn [negb].
    + apply String.eqb_eq in E. right. exists [], v, queue.
      repeat split; [assumption|]. cbn [app].
      apply Rooms.filter_all. intros u Hu.
      apply negb_true_iff, String.eqb_neq. intros Heq. apply Hv.
      rewrite E, <- Heq. now apply in_map.
    + apply String.eqb_neq in E.
      destruct (IH Hnd) as [[Heq Hnot] | [pre [u [post [Hq [Hu Heq]]]]]].
      * left. split; [now rewrite Heq|]. cbn [map]. intros [H | H]; tauto.
      * right. exists (v :: pre), u, post. cbn [app].
        repeat split; [now rewrite Hq | assumption | now rewrite Heq].
Qed.

(** X7: a [leave_chat] or a disconnect takes the socket out of the queue
    and touches no other entry: either the socket was not queued and the
    queue is as before, or exactly its one entry is removed and the entries
    around it keep their order. *)
Theorem withdrawal_purges_queue :
  forall es sid e,
    withdrawal sid e ->
    let queue := waitingQueue (fst (run init es)) in
    let queue' := waitingQueue (fst (step (fst (run init es)) e)) in
    (queue' = queue /\ (In sid (map id queue) -> False)) \/
    exists pre u post,
      queue = pre ++ u :: post /\ id u = sid /\ queue' = pre ++ post /\
      (In sid (map id queue') -> False).
Proof.
  intros es sid e He queue queue'.
  assert (Hnd : NoDup (map id queue))
    by (apply run_queue_unique; constructor).
  assert (Hq : queue' = sanitize sid queue).
  { unfold queue', queue. destruct He as [-> | ->]; cbn [step].
    - unfold leave_chat.
      now destruct (leave_rooms sid _ (adapter (fst (run init es)))).
    - reflexivity. }
  rewrite Hq.
  destruct (sanitize_one sid queue Hnd)
    as [[Heq Hnot] | [pre [u [post [Hsplit [Hu Heq]]]]]].
  - left. now split.
  - right. exists pre, u, post. repeat split; try assumption.
    apply sanitize_id_fresh.
Qed.

Lemma withdrawal_purges_queue_witness :
  withdrawal "B" (LeaveChat "B") /\
  ((waitingQueue (fst (step three_waiting (LeaveChat "B"))) =
      waitingQueue three_waiting /\
    (In "B" (map id (waitingQueue three_waiting)) -> False)) \/
   exists pre u post,
     waitingQueue three_waiting = pre ++ u :: post /\
     id u = "B" /\
     waitingQueue (fst (step three_waiting (LeaveChat "B"))) = pre ++ post /\
     (In "B" (map id (waitingQueue (fst (step three_waiting (LeaveChat "B")))))
      -> False)).
Proof.
  split; [left; reflexivity|].
  apply (withdrawal_purges_queue
           [Connection "A"; Connection "B"; Connection "C"; Connection "R";
            JoinMode "A" (mkChatRequest human ["x"]);
            JoinMode "B" (mkChatRequest human ["y"]);
            JoinMode "C" (mkChatRequest human ["z"])]
           "B" (LeaveChat "B")).
  left. reflexivity.
Defined.

End Waiting.

(** ** Leaving and disconnecting *)

Module Withdrawal.

Import Shared Server Spec Protocol Rooms Exclusivity Relay.

(** Dropping memberships of [sid] changes the other sockets of no room. *)
Lemma others_filter f ad sid room :
  (forall m, f m = false -> fst m = sid) ->
  others (filter f ad) sid room = others ad sid room.
Proof.
  intros Hf. unfold others, members.
  induction ad as [|m ad IH]; [reflexivity|].
  cbn [filter]. destruct (f m) eqn:E.
  - cbn [filter]. destruct (String.eqb (snd m) room); cbn [map filter];
      [|exact IH].
    destruct (negb (String.eqb (fst m) sid)); now rewrite IH.
  - rewrite IH. destruct (String.eqb (snd m) room); cbn [map filter];
      [|reflexivity].
    rewrite (Hf m E), String.eqb_refl. reflexivity.
Qed.

Lemma others_leave ad sid room room' :
  others (leave ad sid room) sid room' = others ad sid room'.
Proof.
  apply others_filter. intros m Hm. apply negb_false_iff in Hm.
  apply same_member_eq in Hm. now subst.
Qed.

(** What [leave_rooms] emits does not depend on the memberships of [sid]
    that it drops on its way. *)
Lemma leave_rooms_notifications sid rooms :
  forall ad ad0,
    (forall room, others ad sid room = others ad0 sid room) ->
    snd (leave_rooms sid rooms ad) = notify_rooms sid rooms ad0.
Proof.
  unfold notify_rooms.
  induction rooms as [|room rooms IH]; intros ad ad0 Hsame; [reflexivity|].
  cbn [leave_rooms flat_map]. destruct (negb (String.eqb room sid)).
  - specialize (IH (leave ad sid room) ad0).
    destruct (leave_rooms sid rooms (leave ad sid room)) as [ad' outs].
    cbn [snd] in *. rewrite IH.
    + f_equal. unfold emit_room_except. fold (others ad sid room).
      fold (others ad0 sid room). now rewrite Hsame.
    + intros room'. now rewrite others_leave.
  - cbn [app]. now apply IH.
Qed.

(** X8: an explicit [leave_chat] and a disconnect tell the same sockets, in
    the same order: the two handlers emit the same notifications in every
    state. *)
Theorem leave_and_disconnect_notify_alike :
  forall st sid, snd (leave_chat sid st) = snd (disconnecting sid st).
Proof.
  intros st sid. unfold leave_chat, disconnecting. cbn [snd].
  rewrite <- (leave_rooms_notifications sid (rooms_of (adapter st) sid)
                (adapter st) (adapter st)) by reflexivity.
  now destruct (leave_rooms sid (rooms_of (adapter st) sid) (adapter st)).
Qed.

Lemma rooms_of_filter_other f ad sid other :
  (forall m, f m = false -> fst m = sid) ->
  other <> sid ->
  rooms_of (filter f ad) other = rooms_of ad other.
Proof.
  intros Hf Hne. unfold rooms_of. f_equal. rewrite filter_filter.
  apply filter_ext_in. intros m _.
  destruct (f m) eqn:E; [reflexivity|]. cbn [andb].
  rewrite (Hf m E). symmetry. apply String.eqb_neq. congruence.
Qed.

Lemma kept_only_drops_own sid rooms m : kept sid rooms m = false -> fst m = sid.
Proof.
  unfold kept. intros H. apply negb_false_iff in H.
  apply andb_true_iff in H. destruct H as [H _].
  apply andb_true_iff in H. destruct H as [H _]. now apply String.eqb_eq.
Qed.

Lemma kept_default sid rooms : kept sid rooms (sid, sid) = true.
Proof. unfold kept. cbn [fst snd]. now rewrite String.eqb_refl. Qed.

(** X9: a withdrawal changes the rooms of no other socket and leaves the
    socket itself in no session room.  [leave_chat] keeps the socket
    connected and in the room of its own id, where later events still reach
    it; a disconnect takes it out of every room and out of the connected
    sockets. *)
Theorem withdrawal_frame :
  forall st sid e,
    withdrawal sid e ->
    let st' := fst (step st e) in
    (forall other,
       other <> sid ->
       rooms_of (adapter st') other = rooms_of (adapter st) other) /\
    session_rooms st' sid = [] /\
    (e = LeaveChat sid ->
     sockets st' = sockets st /\
     (In (sid, sid) (adapter st) -> In (sid, sid) (adapter st'))) /\
    (e = Disconnecting sid ->
     rooms_of (adapter st') sid = [] /\ (In sid (sockets st') -> False)).
Proof.
  intros st sid e He st'.
  assert (Hleave : adapter (fst (leave_chat sid st)) =
                   filter (kept sid (rooms_of (adapter st) sid)) (adapter st)
                   /\ sockets (fst (leave_chat sid st)) = sockets st).
  { unfold leave_chat.
    pose proof (leave_rooms_adapter sid (rooms_of (adapter st) sid)
                  (adapter st)) as Had.
    destruct (leave_rooms sid (rooms_of (adapter st) sid) (adapter st)).
    cbn [fst adapter sockets] in *. now split. }
  destruct Hleave as [Had Hsock].
  split; [|split; [now apply withdrawal_leaves|split]].
  - intros other Hne. unfold st'. destruct He as [-> | ->]; cbn [step].
    + rewrite Had. apply (rooms_of_filter_other _ _ sid); [|assumption].
      intros m Hm. eapply kept_only_drops_own. exact Hm.
    + unfold disconnecting, leaveAll. cbn [fst adapter].
      apply (rooms_of_filter_other _ _ sid); [|assumption].
      intros m Hm. apply negb_false_iff in Hm. now apply String.eqb_eq.
  - intros ->. unfold st'. cbn [step]. split; [exact Hsock|].
    rewrite Had. intros Hin. apply filter_In. split; [assumption|].
    apply kept_default.
  - intros ->. unfold st'. cbn [step]. unfold disconnecting.
    cbn [fst adapter sockets]. split.
    + apply nil_of_no_In. intros room Hin. unfold rooms_of in Hin.
      apply in_map_iff in Hin. destruct Hin as [m [_ Hin]].
      apply filter_In in Hin. destruct Hin as [Hin Hm].
      unfold leaveAll in Hin. apply filter_In in Hin. destruct Hin as [_ Hn].
      rewrite Hm in Hn. discriminate.
    + intros Hin. apply filter_In in Hin. destruct Hin as [_ Hn].
      now rewrite String.eqb_refl in Hn.
Qed.

Lemma withdrawal_frame_witness :
  rooms_of (adapter (fst (step (fst (run init Samples.paired))
                               (LeaveChat "B")))) "B" = ["B"] /\
  rooms_of (adapter (fst (step (fst (run init Samples.paired))
                               (LeaveChat "B")))) "A" = ["A"; "room_A_B"] /\
  session_rooms (fst (step (fst (run init Samples.paired)) (LeaveChat "B")))
                "B" = [].
Proof.
  destruct (withdrawal_frame (fst (run init Samples.paired)) "B"
              (LeaveChat "B") (or_introl eq_refl))
    as [Hothers [Hnone _]].
  split; [reflexivity|]. split; [|exact Hnone].
  rewrite (Hothers "A"); [reflexivity | discriminate].
Defined.

Lemma in_others ad sid room t :
  In t (others ad sid room) <-> In (t, room) ad /\ t <> sid.
Proof.
  unfold others. rewrite filter_In, members_In, negb_true_iff, String.eqb_neq.
  reflexivity.
Qed.

(** X10: a withdrawal sends nothing but [peer_disconnected], never to the
    socket that withdraws, and exactly to the other sockets of the session
    rooms it is in. *)
Theorem withdrawal_recipients :
  forall st sid e,
    withdrawal sid e ->
    forall t ev,
      In (t, ev) (snd (step st e)) <->
      ev = peer_disconnected /\ t <> sid /\
      exists room,
        In room (session_rooms st sid) /\ In (t, room) (adapter st).
Proof.
  intros st sid e He t ev.
  assert (Hout : snd (step st e) =
                 flat_map
                   (fun room =>
                      emit_room_except (adapter st) sid room peer_disconnected)
                   (session_rooms st sid)).
  { destruct He as [-> | ->]; cbn [step].
    - unfold leave_chat.
      pose proof (leave_rooms_notifications sid (rooms_of (adapter st) sid)
                    (adapter st) (adapter st) (fun _ => eq_refl)) as H.
      destruct (leave_rooms sid (rooms_of (adapter st) sid) (adapter st)).
      cbn [snd] in *. rewrite H. apply notify_rooms_filter.
    - unfold disconnecting. cbn [snd]. apply notify_rooms_filter. }
  rewrite Hout, in_flat_map. split.
  - intros [room [Hroom Hin]]. unfold emit_room_except in Hin.
    fold (others (adapter st) sid room) in Hin. apply in_map_iff in Hin.
    destruct Hin as [t' [Heq Hin]]. inversion Heq; subst.
    apply in_others in Hin. destruct Hin as [Hin Hne].
    repeat split; try assumption. now exists room.
  - intros [-> [Hne [room [Hroom Hin]]]]. exists room. split; [assumption|].
    unfold emit_room_except. fold (others (adapter st) sid room).
    apply in_map_iff. exists t. split; [reflexivity|].
    now apply in_others.
Qed.

Lemma withdrawal_recipients_witness :
  In ("A", peer_disconnected)
     (snd (step (fst (run init Samples.paired)) (Disconnecting "B"))).
Proof.
  apply (withdrawal_recipients (fst (run init Samples.paired)) "B"
           (Disconnecting "B") (or_intror eq_refl) "A" peer_disconnected).
  split; [reflexivity|]. split; [discriminate|].
  exists "room_A_B". split; [left; reflexivity | right; right; right; now left].
Defined.

End Withdrawal.

(** ** Withdrawing twice *)

Module Idempotence.

Import Shared Server Spec Protocol Rooms Exclusivity Relay Withdrawal.

(** What a withdrawal emits: one [socket.to(room)] notification for each
    session room of the socket, in the order of [socket.rooms]. *)
Lemma withdrawal_output st p e :
  withdrawal p e ->
  snd (step st e) =
  flat_map (fun room => emit_room_except (adapter st) p room peer_disconnected)
           (session_rooms st p).
Proof.
  intros [-> | ->]; cbn [step].
  - unfold leave_chat.
    pose proof (leave_rooms_notifications p (rooms_of (adapter st) p)
                  (adapter st) (adapter st) (fun _ => eq_refl)) as H.
    destruct (leave_rooms p (rooms_of (adapter st) p) (adapter st)).
    cbn [snd] in *. rewrite H. apply notify_rooms_filter.
  - unfold disconnecting. cbn [snd]. apply notify_rooms_filter.
Qed.

Lemma notified_room_absent ad sid room q :
  is_member ad q room = false ->
  notified q (emit_room_except ad sid room peer_disconnected) = 0%nat.
Proof.
  intros Hno. unfold emit_room_except. rewrite notified_emit.
  apply length_zero_iff_nil, nil_of_no_In. intros t Ht.
  apply filter_In in Ht. destruct Ht as [Ht Heq].
  apply String.eqb_eq in Heq. subst t.
  apply filter_In in Ht. destruct Ht as [Ht _].
  apply members_In, is_member_In in Ht. congruence.
Qed.

(** The notifications of [q] over a list of rooms: one for each room that
    [q] is in. *)
Lemma notified_rooms ad p q rooms :
  NoDup ad -> q <> p ->
  notified q
    (flat_map (fun room => emit_room_except ad p room peer_disconnected)
              rooms) =
  length (filter (fun room => is_member ad q room) rooms).
Proof.
  intros Hnd Hne. induction rooms as [|room rooms IH]; [reflexivity|].
  cbn [flat_map filter]. rewrite notified_app, IH.
  destruct (is_member ad q room) eqn:E.
  - rewrite notified_room_except; [reflexivity | assumption | | assumption].
    now apply members_In, is_member_In.
  - now rewrite notified_room_absent.
Qed.

(** C5, as the code has it: of any two withdrawals of a participant [p]
    ([leave_chat] or disconnect, in any order) the second emits nothing, and
    together they deliver to another socket [q] one [peer_disconnected] for
    each session room that [p] shares with [q]: never more than one, and
    exactly one to a peer, when every [join_mode] came from a socket that had
    left its previous room (as the client does, which emits [leave_chat]
    before it joins again). *)
Theorem withdrawal_notifies_once :
  forall es p q e1 e2,
    let st := fst (run init es) in
    withdrawal p e1 ->
    withdrawal p e2 ->
    q <> p ->
    let r1 := step st e1 in
    let r2 := step (fst r1) e2 in
    snd r2 = [] /\
    notified q (snd r1 ++ snd r2) = length (shared_rooms st p q) /\
    (polite init es = true ->
     (notified q (snd r1 ++ snd r2) <= 1)%nat /\
     (shared_rooms st p q <> [] ->
      notified q (snd r1 ++ snd r2) = 1%nat)).
Proof.
  intros es p q e1 e2 st He1 He2 Hne r1 r2.
  assert (Hnd : NoDup (adapter st))
    by (apply run_adapter_NoDup; constructor).
  assert (H2 : snd r2 = []).
  { unfold r2. apply (withdrawal_silent _ p); [|assumption].
    now apply withdrawal_leaves. }
  assert (Hcount : notified q (snd r1 ++ snd r2) =
                   length (shared_rooms st p q)).
  { rewrite H2, app_nil_r. unfold r1.
    rewrite (withdrawal_output st p e1 He1). now apply notified_rooms. }
  split; [exact H2|]. split; [exact Hcount|].
  intros Hpol. rewrite Hcount.
  pose proof (run_exclusive es init exclusive_init Hpol) as [_ [_ Hone]].
  specialize (Hone p). fold st in Hone.
  assert (Hle : (length (shared_rooms st p q) <= 1)%nat).
  { unfold shared_rooms.
    eapply Nat.le_trans; [apply filter_length_le | exact Hone]. }
  split; [exact Hle|].
  intros Hsome. destruct (shared_rooms st p q) as [|room rest];
    [now elim Hsome | cbn [length] in *; lia].
Qed.

Lemma withdrawal_notifies_once_witness :
  polite init Samples.paired = true /\
  shared_rooms (fst (run init Samples.paired)) "B" "A" = ["room_A_B"] /\
  snd (step (fst (step (fst (run init Samples.paired)) (LeaveChat "B")))
            (Disconnecting "B")) = [] /\
  notified "A"
    (snd (step (fst (run init Samples.paired)) (LeaveChat "B")) ++
     snd (step (fst (step (fst (run init Samples.paired)) (LeaveChat "B")))
            (Disconnecting "B"))) = 1%nat.
Proof.
  destruct (withdrawal_notifies_once Samples.paired "B" "A"
              (LeaveChat "B") (Disconnecting "B"))
    as [Hsilent [_ Hpol]].
  - left. reflexivity.
  - right. reflexivity.
  - discriminate.
  - split; [reflexivity|]. split; [reflexivity|]. split; [exact Hsilent|].
    apply Hpol; [reflexivity | discriminate].
Defined.

(** C5 as stated fails: A and B, matched with each other a second time while
    both are still in their first room, share two rooms, and one
    [leave_chat] of A (followed by its disconnect) sends B two
    notifications. *)
Lemma withdrawal_notifies_once_counterexample :
  session_rooms (fst (run init Samples.rematched)) "A" =
    ["room_A_B"; "room_B_A"] /\
  members (adapter (fst (run init Samples.rematched))) "room_A_B" =
    ["B"; "A"] /\
  snd (step (fst (run init Samples.rematched)) (LeaveChat "A")) =
    [("B", peer_disconnected); ("B", peer_disconnected)] /\
  ~ (forall es p q room e1 e2,
       In room (session_rooms (fst (run init es)) p) ->
       In q (members (adapter (fst (run init es))) room) ->
       q <> p ->
       withdrawal p e1 ->
       withdrawal p e2 ->
       notified q
         (snd (step (fst (run init es)) e1) ++
          snd (step (fst (step (fst (run init es)) e1)) e2)) = 1%nat).
Proof.
  split; [reflexivity|]. split; [reflexivity|]. split; [reflexivity|].
  intros H.
  specialize (H Samples.rematched "A" "B" "room_A_B"
                (LeaveChat "A") (Disconnecting "A")).
  assert (Hcount :
            notified "B"
              (snd (step (fst (run init Samples.rematched)) (LeaveChat "A")) ++
               snd (step (fst (step (fst (run init Samples.rematched))
                                    (LeaveChat "A")))
                         (Disconnecting "A"))) = 2%nat) by reflexivity.
  rewrite H in Hcount.
  - discriminate.
  - left. reflexivity.
  - left. reflexivity.
  - discriminate.
  - left. reflexivity.
  - right. reflexivity.
Qed.

End Idempotence.

(** ** Sockets that leave before they join again *)

Module Alternation.

Import Shared Server Spec Protocol Matchmaking Rooms Exclusivity Relay.

Lemma listed_In s l : listed s l = true <-> In s l.
Proof.
  unfold listed. rewrite existsb_exists. split.
  - intros [x [Hx Heq]]. apply String.eqb_eq in Heq. now subst.
  - intros H. exists s. split; [assumption | apply String.eqb_refl].
Qed.

Lemma listed_cons s x l :
  listed s (x :: l) = false -> s <> x /\ listed s l = false.
Proof.
  unfold listed. cbn [existsb]. intros H. apply orb_false_iff in H.
  destruct H as [Hx Hl]. apply String.eqb_neq in Hx. now split.
Qed.

Lemma listed_without s sid l :
  listed s (filter (fun x => negb (String.eqb x sid)) l) = false ->
  s = sid \/ listed s l = false.
Proof.
  intros H. destruct (String.eqb s sid) eqn:E.
  - left. now apply String.eqb_eq.
  - right. destruct (listed s l) eqn:El; [|reflexivity].
    apply listed_In in El.
    assert (Hin : In s (filter (fun x => negb (String.eqb x sid)) l))
      by (apply filter_In; split; [assumption | now rewrite E]).
    apply listed_In in Hin. congruence.
Qed.

Lemma quiet_shrink st joined queue' socks' f :
  quiet st joined ->
  incl queue' (waitingQueue st) ->
  quiet (mkState queue' socks' (filter f (adapter st))) joined.
Proof.
  intros Hq Hincl s Hs. destruct (Hq s Hs) as [Hrooms Hqueue]. split.
  - unfold session_rooms in *. cbn [adapter]. apply length_le_0_nil.
    pose proof (sessions_of_filter_le f (adapter st) s) as Hle.
    now rewrite Hrooms in Hle.
  - cbn [waitingQueue]. intros Hin. apply Hqueue.
    apply in_map_iff in Hin. destruct Hin as [u [Hu Hin]].
    apply in_map_iff. exists u. split; [assumption | now apply Hincl].
Qed.

(** A join of a socket that is not listed comes from the lobby, and its
    effects stay among the listed sockets. *)
Lemma join_quiet st joined sid request :
  quiet st joined ->
  listed sid joined = false ->
  from_lobby st (JoinMode sid request) = true /\
  quiet (fst (join_mode sid request st)) (sid :: joined).
Proof.
  intros Hq Hsid. destruct (Hq sid Hsid) as [Hrooms _]. split.
  - cbn [from_lobby]. now rewrite Hrooms.
  - destruct request as [[|] userTags].
    + destruct (join_mode_human_cases st sid userTags)
        as [Heq | [pre [e [post [Hsan Heq]]]]]; rewrite Heq; cbn [fst];
        intros s Hs; apply listed_cons in Hs; destruct Hs as [Hne Hs];
        destruct (Hq s Hs) as [Hr Hw].
      * split; [exact Hr|]. cbn [waitingQueue]. rewrite map_app, in_app_iff.
        intros [Hin | [Heq' | []]]; [|now apply Hne].
        apply Hw. apply in_map_iff in Hin. destruct Hin as [u [Hu Hin]].
        apply in_map_iff. exists u. split; [assumption|].
        now apply sanitize_incl in Hin.
      * assert (He : In e (waitingQueue st))
          by (apply (sanitize_incl sid); rewrite Hsan; apply in_elt).
        assert (Hse : s <> id e)
          by (intros ->; apply Hw; now apply in_map).
        split.
        -- unfold session_rooms in *. cbn [adapter].
           now rewrite sessions_of_matched.
        -- cbn [waitingQueue]. intros Hin. apply Hw.
           apply in_map_iff in Hin. destruct Hin as [u [Hu Hin]].
           apply in_map_iff. exists u. split; [assumption|].
           apply (sanitize_incl sid). rewrite Hsan.
           apply in_app_or in Hin. apply in_or_app.
           destruct Hin; [now left | right; now right].
    + unfold join_mode. cbn [mode fst]. intros s Hs.
      apply listed_cons in Hs. destruct Hs as [_ Hs].
      rewrite <- (filter_true (adapter st)).
      apply (quiet_shrink st joined); [assumption | apply sanitize_incl |].
      exact Hs.
Qed.

(** A withdrawal makes the socket quiet. *)
Lemma withdrawal_quiet st joined sid e :
  quiet st joined ->
  withdrawal sid e ->
  quiet (fst (step st e))
        (filter (fun x => negb (String.eqb x sid)) joined).
Proof.
  intros Hq He s Hs. apply listed_without in Hs.
  destruct Hs as [-> | Hs].
  - split; [now apply withdrawal_leaves|].
    destruct He as [-> | ->]; cbn [step].
    + unfold leave_chat.
      destruct (leave_rooms sid (rooms_of (adapter st) sid) (adapter st)).
      cbn [fst waitingQueue]. apply sanitize_id_fresh.
    + unfold disconnecting. cbn [fst waitingQueue]. apply sanitize_id_fresh.
  - destruct He as [-> | ->]; cbn [step].
    + unfold leave_chat.
      pose proof (leave_rooms_adapter sid (rooms_of (adapter st) sid)
                    (adapter st)) as Had.
      destruct (leave_rooms sid (rooms_of (adapter st) sid) (adapter st))
        as [ad out].
      cbn [fst] in *. subst ad.
      apply (quiet_shrink st joined); [assumption | apply sanitize_incl |].
      exact Hs.
    + unfold disconnecting, leaveAll. cbn [fst].
      apply (quiet_shrink st joined); [assumption | apply sanitize_incl |].
      exact Hs.
Qed.

Lemma alternating_polite es :
  forall st joined,
    quiet st joined -> alternating joined es = true -> polite st es = true.
Proof.
  induction es as [|e es IH]; intros st joined Hq Halt; [reflexivity|].
  cbn [polite]. apply andb_true_iff.
  destruct e as [sid | sid request | sid target payload | sid | sid];
    cbn [alternating] in Halt.
  - split; [reflexivity|]. apply (IH _ joined); [|assumption].
    cbn [step]. unfold connection. intros s Hs.
    destruct (Hq s Hs) as [Hr Hw]. split; [|exact Hw].
    unfold session_rooms in *. cbn [fst adapter].
    now rewrite sessions_of_join_default.
  - apply andb_true_iff in Halt. destruct Halt as [Hsid Halt].
    apply negb_true_iff in Hsid.
    destruct (join_quiet st joined sid request Hq Hsid) as [Hlobby Hq'].
    split; [exact Hlobby|]. now apply (IH _ (sid :: joined)).
  - split; [reflexivity|]. now apply (IH _ joined).
  - split; [reflexivity|]. eapply IH; [|exact Halt].
    apply withdrawal_quiet; [assumption | now left].
  - split; [reflexivity|]. eapply IH; [|exact Halt].
    apply withdrawal_quiet; [assumption | now right].
Qed.

(** X11: when no socket sends two [join_mode] without a [leave_chat] or a
    disconnect of its own in between, every [join_mode] finds its socket in
    no session room, and no socket is ever in more than one session room. *)
Theorem alternating_is_exclusive :
  forall es,
    alternating [] es = true ->
    polite init es = true /\
    forall sid, (length (session_rooms (fst (run init es)) sid) <= 1)%nat.
Proof.
  intros es Halt.
  assert (Hpol : polite init es = true).
  { apply (alternating_polite es init []); [|assumption].
    intros s _. split; [reflexivity | intros []]. }
  split; [exact Hpol|].
  now apply (run_exclusive es init exclusive_init Hpol).
Qed.

Lemma alternating_is_exclusive_witness :
  alternating [] Samples.three_tagged = true /\
  polite init Samples.three_tagged = true /\
  (length (session_rooms (fst (run init Samples.three_tagged)) "C") <= 1)%nat.
Proof.
  split; [reflexivity|].
  destruct (alternating_is_exclusive Samples.three_tagged eq_refl)
    as [Hpol Hone].
  split; [exact Hpol | apply Hone].
Defined.

End Alternation.

(** ** Chat messages and handshake signals through the server *)

Module Messages.

Import Shared Server Spec Protocol Matchmaking Rooms Exclusivity Relay.

Lemma join_member ad sid room : In (sid, room) (join ad sid room).
Proof.
  unfold join. destruct (is_member ad sid room) eqn:E.
  - now apply is_member_In.
  - apply in_or_app. right. now left.
Qed.

(** After a match both sides are in the new room, the waiting one provided
    it is still connected. *)
Lemma matched_adapter_members st sid partnerId :
  let roomId := ("room_" ++ partnerId ++ "_" ++ sid)%string in
  In (sid, roomId) (matched_adapter st sid partnerId) /\
  (In partnerId (sockets st) ->
   In (partnerId, roomId) (matched_adapter st sid partnerId)).
Proof.
  intros roomId. unfold matched_adapter. fold roomId.
  destruct (existsb (String.eqb partnerId) (sockets st)) eqn:E.
  - split; [apply join_incl, join_member | intros _; apply join_member].
  - split; [apply join_member|]. intros Hin.
    assert (existsb (String.eqb partnerId) (sockets st) = true)
      by (apply existsb_exists; exists partnerId;
          split; [assumption | apply String.eqb_refl]).
    congruence.
Qed.

Lemma human_message_delivered backend random_id now sid data st t :
  m_isAi data = false ->
  In (t, m_roomId data) (adapter st) ->
  t <> sid ->
  In (t, receive_message (mkChatMessage random_id peer (m_text data) now))
     (fst (send_message backend random_id now sid data st)).
Proof.
  intros Hai Hin Hne. unfold send_message. rewrite Hai. cbn [fst].
  unfold emit_room_except. apply in_map_iff. exists t.
  split; [reflexivity|]. apply filter_In. split; [now apply members_In|].
  now apply negb_true_iff, String.eqb_neq.
Qed.

(** X12: once two participants are matched (the waiting one still being
    connected), a chat message that either of them sends to the room of
    their [match_found] is delivered to the other one, as a message from
    [peer] with the text as it was sent. *)
Theorem chat_reaches_peer :
  forall backend random_id now st sid userTags pre partner post text history,
    oldest_compatible userTags (sanitize sid (waitingQueue st))
                      pre partner post ->
    In (id partner) (sockets st) ->
    let st' := fst (join_mode sid (mkChatRequest human userTags) st) in
    let roomId := ("room_" ++ id partner ++ "_" ++ sid)%string in
    let data := mkMessageData roomId text false history in
    let delivered := receive_message (mkChatMessage random_id peer text now) in
    In (id partner, delivered)
       (fst (send_message backend random_id now sid data st')) /\
    In (sid, delivered)
       (fst (send_message backend random_id now (id partner) data st')).
Proof.
  intros backend random_id now st sid userTags pre partner post text history
         Hold Hconn st' roomId data delivered.
  assert (Hne : id partner <> sid).
  { destruct Hold as [Hq _].
    assert (Hin : In partner (sanitize sid (waitingQueue st)))
      by (rewrite Hq; apply in_elt).
    now apply sanitize_In in Hin. }
  apply oldest_compatible_passes in Hold. destruct Hold as [Hq [Hpre Hp]].
  pose proof (join_mode_matched st sid userTags pre partner post Hq Hpre Hp)
    as Hj.
  cbv zeta in Hj.
  assert (Had : adapter st' = matched_adapter st sid (id partner))
    by (unfold st'; now rewrite Hj).
  destruct (matched_adapter_members st sid (id partner)) as [Hs Hp'].
  split.
  - apply (human_message_delivered backend random_id now sid data st');
      [reflexivity | rewrite Had; now apply Hp' | assumption].
  - apply (human_message_delivered backend random_id now (id partner) data st');
      [reflexivity | rewrite Had; exact Hs | congruence].
Qed.

Lemma chat_reaches_peer_witness :
  In ("A",
      receive_message (mkChatMessage "r4nd0m" peer "hello" 1700000000000))
     (fst (send_message Samples.always_limited "r4nd0m" 1700000000000 "R"
             (mkMessageData "room_A_R" "hello" false None)
             (fst (join_mode "R" (mkChatRequest human ["x"; "y"; "z"])
                     three_waiting)))).
Proof.
  destruct (chat_reaches_peer Samples.always_limited "r4nd0m" 1700000000000
              three_waiting "R" ["x"; "y"; "z"] []
              (mkQueuedUser "A" ["x"])
              [mkQueuedUser "B" ["y"]; mkQueuedUser "C" ["z"]] "hello" None)
    as [Hto _].
  - split; [reflexivity|]. split; [constructor|].
    apply passes_spec. reflexivity.
  - left. reflexivity.
  - exact Hto.
Defined.

(** X13: a message to the agent is answered with exactly one message, sent
    to the sender alone, whatever the backend does: either a text of the
    agent that is not empty, or the system message that the agent is
    offline. *)
Theorem agent_reply :
  forall backend random_id now sid data st,
    m_isAi data = true ->
    exists msg,
      fst (send_message backend random_id now sid data st) =
        [(sid, receive_message msg)] /\
      ((sender msg = ai_sender /\ text msg <> "") \/
       msg = offline_message now).
Proof.
  intros backend random_id now sid data st Hai.
  unfold send_message. rewrite Hai.
  destruct (Agent.callGeminiRetry_default (backend (history_of data)))
    as [[resText|error] slept] eqn:E.
  - eexists. split; [reflexivity|]. left. split; [reflexivity|].
    cbn [text]. unfold Agent.callGeminiRetry_default, Agent.callGeminiRetry in E.
    apply (Backoff.attempts_text (backend (history_of data)) 3 1000 3 1).
    now rewrite E.
  - eexists. split; [reflexivity|]. now right.
Qed.

Lemma agent_reply_witness :
  exists msg,
    fst (send_message (fun _ => Samples.unavailable_then_hi) "r4nd0m" 17 "A"
           Samples.ai_question init) = [("A", receive_message msg)] /\
    ((sender msg = ai_sender /\ text msg <> "") \/ msg = offline_message 17).
Proof.
  apply (agent_reply (fun _ => Samples.unavailable_then_hi) "r4nd0m" 17 "A"
           Samples.ai_question init).
  reflexivity.
Defined.

(** X14: in every state the server reaches, a chat message to a room is
    delivered once to each socket of that room other than the sender, and to
    nobody else; the sender never gets its own message back. *)
Theorem human_message_recipients :
  forall backend random_id now es sid data,
    m_isAi data = false ->
    let st := fst (run init es) in
    exists recipients,
      fst (send_message backend random_id now sid data st) =
        map (fun t =>
               (t, receive_message
                     (mkChatMessage random_id peer (m_text data) now)))
            recipients /\
      NoDup recipients /\
      forall t,
        In t recipients <-> In (t, m_roomId data) (adapter st) /\ t <> sid.
Proof.
  intros backend random_id now es sid data Hai st.
  exists (others (adapter st) sid (m_roomId data)). split; [|split].
  - unfold send_message. now rewrite Hai.
  - apply NoDup_filter, members_NoDup, run_adapter_NoDup. constructor.
  - intros t. apply Withdrawal.in_others.
Qed.

Lemma human_message_recipients_witness :
  exists recipients,
    fst (send_message Samples.always_limited "r4nd0m" 17 "B"
           (mkMessageData "room_A_B" "hi" false None)
           (fst (run init Samples.paired))) =
      map (fun t => (t, receive_message (mkChatMessage "r4nd0m" peer "hi" 17)))
          recipients /\
    NoDup recipients /\
    forall t,
      In t recipients <->
      In (t, "room_A_B") (adapter (fst (run init Samples.paired))) /\
      t <> "B".
Proof.
  apply (human_message_recipients Samples.always_limited "r4nd0m" 17
           Samples.paired "B" (mkMessageData "room_A_B" "hi" false None)).
  reflexivity.
Defined.

End Messages.

(** ** The handshake between two matched participants *)

Module Signalling.

Import Shared Server Spec Matchmaking Relay.

Lemma signal_delivered st sid target payload :
  In target (members (adapter st) target) ->
  In (target, signal_received payload sid)
     (snd (signal sid target payload st)).
Proof.
  intros Hin. unfold signal, emit_room. cbn [snd].
  apply in_map_iff. now exists target.
Qed.

(** X15: after a match of two connected participants, with the hook of each
    side set up from the [match_found] it received, a signal that the peer
    object of one side emits is addressed to the other side, is relayed
    there by the server under the sender's id, and is handed to the peer
    object of the other side; this holds in both directions. *)
Theorem handshake_both_ways :
  forall st sid userTags pre partner post cameraI cameraR payload,
    oldest_compatible userTags (sanitize sid (waitingQueue st))
                      pre partner post ->
    In (id partner) (members (adapter st) (id partner)) ->
    In sid (members (adapter st) sid) ->
    let res := join_mode sid (mkChatRequest human userTags) st in
    let roomId := ("room_" ++ id partner ++ "_" ++ sid)%string in
    let toInitiator :=
      WebRTC.mkChatData (mkChatInstance roomId sid false) true in
    let toResponder :=
      WebRTC.mkChatData (mkChatInstance roomId (id partner) false) false in
    let hookI :=
      WebRTC.setup (Some toInitiator) (Some cameraI) false WebRTC.initial in
    let hookR :=
      WebRTC.setup (Some toResponder) (Some cameraR) false WebRTC.initial in
    (In (id partner, match_found (WebRTC.chat toInitiator) true) (snd res) /\
     In (sid, match_found (WebRTC.chat toResponder) false) (snd res)) /\
    (Negotiation.on_signal payload hookI = [(sid, payload)] /\
     In (sid, signal_received payload (id partner))
        (snd (signal (id partner) sid payload (fst res))) /\
     option_map WebRTC.signalled
       (WebRTC.peer
          (WebRTC.handleIncomingSignal
             (WebRTC.mkIncoming payload (id partner)) hookR)) =
     Some [payload]) /\
    (Negotiation.on_signal payload hookR = [(id partner, payload)] /\
     In (id partner, signal_received payload sid)
        (snd (signal sid (id partner) payload (fst res))) /\
     option_map WebRTC.signalled
       (WebRTC.peer
          (WebRTC.handleIncomingSignal (WebRTC.mkIncoming payload sid) hookI)) =
     Some [payload]).
Proof.
  intros st sid userTags pre partner post cameraI cameraR payload
         Hold Hp Hs res roomId toInitiator toResponder hookI hookR.
  apply oldest_compatible_passes in Hold. destruct Hold as [Hq [Hpre Hpass]].
  pose proof (join_mode_matched st sid userTags pre partner post Hq Hpre Hpass)
    as Hj.
  cbv zeta in Hj. fold roomId in Hj.
  assert (Hincl : forall t,
             In t (members (adapter st) t) ->
             In t (members (adapter (fst res)) t)).
  { intros t Ht. unfold res. rewrite Hj. cbn [fst adapter].
    eapply members_incl; [apply matched_adapter_incl | exact Ht]. }
  split; [|split].
  - unfold res. rewrite Hj. cbn [snd]. split.
    + apply in_or_app. left. unfold emit_room. apply in_map_iff.
      exists (id partner). split; [reflexivity|].
      eapply members_incl; [apply matched_adapter_incl | exact Hp].
    + apply in_or_app. right. now left.
  - split; [reflexivity|]. split; [now apply signal_delivered, Hincl|].
    unfold hookR, WebRTC.handleIncomingSignal, WebRTC.setup.
    cbn. now rewrite String.eqb_refl.
  - split; [reflexivity|]. split; [now apply signal_delivered, Hincl|].
    unfold hookI, WebRTC.handleIncomingSignal, WebRTC.setup.
    cbn. now rewrite String.eqb_refl.
Qed.

Lemma handshake_both_ways_witness :
  In ("R", signal_received "offer" "A")
     (snd (signal "A" "R" "offer"
             (fst (join_mode "R" (mkChatRequest human ["x"; "y"; "z"])
                     three_waiting)))) /\
  option_map WebRTC.signalled
    (WebRTC.peer
       (WebRTC.handleIncomingSignal (WebRTC.mkIncoming "offer" "A")
          (WebRTC.setup
             (Some (WebRTC.mkChatData
                      (mkChatInstance "room_A_R" "A" false) false))
             (Some "camera") false WebRTC.initial))) = Some ["offer"].
Proof.
  destruct (handshake_both_ways three_waiting "R" ["x"; "y"; "z"] []
              (mkQueuedUser "A" ["x"])
              [mkQueuedUser "B" ["y"]; mkQueuedUser "C" ["z"]]
              "camera" "camera" "offer")
    as [_ [[_ [Hrelay Hfed]] _]].
  - split; [reflexivity|]. split; [constructor|].
    apply passes_spec. reflexivity.
  - left. reflexivity.
  - left. reflexivity.
  - split; [exact Hrelay | exact Hfed].
Defined.

End Signalling.

(** ** The interest tags of the form *)

Module Interests.

Import Shared Protocol.

Section Form.

Variables (trim toLowerCase : string -> string).

Lemma filter_snoc_fresh (l : list string) (v : string) :
  ~ In v l -> filter (fun tag => negb (String.eqb tag v)) (l ++ [v]) = l.
Proof.
  intros Hnot. rewrite filter_app. cbn [filter].
  rewrite String.eqb_refl. cbn [negb]. rewrite app_nil_r.
  apply Rooms.filter_all. intros x Hx.
  apply negb_true_iff, String.eqb_neq. intros ->. contradiction.
Qed.

(** X16: removing a tag takes it out of the form, and removing a tag right
    after it was added to a form that did not have it gives back the tags
    of before, in the same order. *)
Theorem add_then_remove :
  forall f x,
    Js.nonempty (toLowerCase (trim x)) = true ->
    ~ In (toLowerCase (trim x)) (App.interests f) ->
    App.interests
      (App.handleRemoveInterest (toLowerCase (trim x))
         (App.enter_tag trim toLowerCase f x)) = App.interests f /\
    forall tag g, In tag (App.interests (App.handleRemoveInterest tag g)) ->
                  False.
Proof.
  intros f x Hne Hnot. split.
  - unfold App.handleRemoveInterest. cbn [App.interests].
    rewrite Tags.enter_tag_interests, Hne. cbn [andb].
    assert (Hinc : Js.arr_includes (App.interests f) (toLowerCase (trim x))
                   = false).
    { destruct (Js.arr_includes _ _) eqn:E; [|reflexivity].
      apply Matchmaking.arr_includes_In in E. contradiction. }
    rewrite Hinc. cbn [negb]. now apply filter_snoc_fresh.
  - intros tag g Hin. unfold App.handleRemoveInterest in Hin.
    cbn [App.interests] in Hin. apply filter_In in Hin. destruct Hin as [_ H].
    now rewrite String.eqb_refl in H.
Qed.

(** X17: a tag that only differs from an earlier input by letter case or
    surrounding blanks is not added a second time: entering it leaves the
    tags as they are. *)
Theorem variant_not_added_twice :
  forall f x y,
    toLowerCase (trim x) = toLowerCase (trim y) ->
    App.interests
      (App.enter_tag trim toLowerCase (App.enter_tag trim toLowerCase f x) y) =
    App.interests (App.enter_tag trim toLowerCase f x).
Proof.
  intros f x y Heq.
  rewrite (Tags.enter_tag_interests trim toLowerCase
             (App.enter_tag trim toLowerCase f x) y).
  rewrite <- Heq.
  destruct (Js.nonempty (toLowerCase (trim x))) eqn:Hne; [|reflexivity].
  cbn [andb].
  rewrite (proj2 (Matchmaking.arr_includes_In _ _)
             (Tags.enter_tag_adds trim toLowerCase f x Hne)).
  reflexivity.
Qed.

Lemma clean_add (inputs : string -> Prop) f key :
  inputs (App.interestInput f) ->
  clean trim toLowerCase inputs (App.interests f) ->
  clean trim toLowerCase inputs
        (App.interests (App.handleAddInterest trim toLowerCase key f)).
Proof.
  intros Hfield [Hnd Hall]. unfold App.handleAddInterest.
  destruct (String.eqb key "Enter" || String.eqb key ","); [|now split].
  cbn [App.interests].
  destruct (Js.nonempty (toLowerCase (trim (App.interestInput f)))) eqn:Hne;
    [|now split].
  destruct (Js.arr_includes (App.interests f) _) eqn:Hinc; [now split|].
  cbn [andb negb]. split.
  - apply Exclusivity.NoDup_snoc; [assumption|]. intros Hin.
    apply Matchmaking.arr_includes_In in Hin. congruence.
  - apply Forall_app. split; [assumption|].
    constructor; [|constructor]. split; [assumption|].
    now exists (App.interestInput f).
Qed.

Lemma clean_remove (inputs : string -> Prop) f tag :
  clean trim toLowerCase inputs (App.interests f) ->
  clean trim toLowerCase inputs
        (App.interests (App.handleRemoveInterest tag f)).
Proof.
  intros [Hnd Hall]. unfold App.handleRemoveInterest. cbn [App.interests].
  split; [now apply NoDup_filter|].
  rewrite Forall_forall in *. intros t Ht. apply filter_In in Ht.
  now apply Hall.
Qed.

(** More inputs, same tags. *)
Lemma clean_more (inputs inputs' : string -> Prop) tags :
  (forall x, inputs x -> inputs' x) ->
  clean trim toLowerCase inputs tags ->
  clean trim toLowerCase inputs' tags.
Proof.
  intros Hsub [Hnd Hall]. split; [assumption|].
  eapply Forall_impl; [|exact Hall].
  intros tag [Hne [x [Hx Heq]]]. split; [assumption|].
  exists x. split; [now apply Hsub | assumption].
Qed.

End Form.

Lemma add_then_remove_witness :
  Js.nonempty (Js.toLowerCase (Js.trim " Music")) = true /\
  App.interests
    (App.handleRemoveInterest "music"
       (App.enter_tag Js.trim Js.toLowerCase
          (App.mkForm "" ["travel"]) " Music")) = ["travel"].
Proof.
  split; [reflexivity|].
  destruct (add_then_remove Js.trim Js.toLowerCase (App.mkForm "" ["travel"])
              " Music") as [Hback _].
  - reflexivity.
  - intros [H | []]. discriminate.
  - exact Hback.
Defined.

Lemma variant_not_added_twice_witness :
  App.interests
    (App.enter_tag Js.trim Js.toLowerCase
       (App.enter_tag Js.trim Js.toLowerCase App.empty_form "Music")
       " music ") = ["music"].
Proof.
  rewrite (variant_not_added_twice Js.trim Js.toLowerCase App.empty_form
             "Music" " music "); reflexivity.
Defined.

End Interests.

(** ** The chat of the component *)

Module Conversation.

Import Shared Chat.

Lemma lastMsg_snoc (prev : list ChatMessage) (m : ChatMessage) :
  lastMsg (prev ++ [m]) = Some m.
Proof.
  unfold lastMsg. rewrite length_app. cbn [length].
  replace (length prev + 1 - 1)%nat with (length prev) by lia.
  rewrite nth_error_app2 by lia. now rewrite Nat.sub_diag.
Qed.

Lemma note_disconnect_last now_id now prev :
  exists m,
    lastMsg (note_disconnect now_id now prev) = Some m /\
    text m = disconnected_text.
Proof.
  unfold note_disconnect. destruct (lastMsg prev) as [m|] eqn:E.
  - destruct (String.eqb (text m) disconnected_text) eqn:Et.
    + exists m. split; [assumption | now apply String.eqb_eq].
    + eexists. split; [apply lastMsg_snoc | reflexivity].
  - eexists. split; [apply lastMsg_snoc | reflexivity].
Qed.

Lemma note_disconnect_again now_id now now_id' now' prev :
  note_disconnect now_id' now' (note_disconnect now_id now prev) =
  note_disconnect now_id now prev.
Proof.
  destruct (note_disconnect_last now_id now prev) as [m [Hlast Htext]].
  unfold note_disconnect at 1. rewrite Hlast, Htext.
  now rewrite String.eqb_refl.
Qed.

(** X18: the [peer_disconnected] listener is idempotent: a second
    notification, at whatever time, changes nothing.  After the first one
    the peer is marked as gone and the chat ends with the notice that the
    partner has disconnected, which was added at most once. *)
Theorem disconnect_noted_once :
  forall now_id now now_id' now' st,
    let st' := on_peer_disconnected now_id now st in
    on_peer_disconnected now_id' now' st' = st' /\
    isPeerDisconnected st' = true /\
    (exists m,
        lastMsg (messages st') = Some m /\ text m = disconnected_text) /\
    (length (messages st') <= S (length (messages st)))%nat.
Proof.
  intros now_id now now_id' now' st st'. unfold st', on_peer_disconnected.
  cbn [view form mode hardwareRequested chatData isPeerDisconnected messages
       messageInput].
  split; [now rewrite note_disconnect_again|]. split; [reflexivity|].
  split; [apply note_disconnect_last|].
  unfold note_disconnect. destruct (lastMsg (messages st)) as [m|].
  - destruct (String.eqb (text m) disconnected_text);
      [lia | rewrite length_app; cbn; lia].
  - rewrite length_app. cbn. lia.
Qed.


Section Sending.

Variable trim : string -> string.


End Sending.


End Conversation.

(** ** What one component emits *)

Module Session.

Import Shared Chat Protocol.

Section Component.
Variables (trim toLowerCase : string -> string).

Lemma fst_play_cons st a rest :
  fst (play trim toLowerCase st (a :: rest)) =
  fst (play trim toLowerCase (fst (act trim toLowerCase st a)) rest).
Proof.
  cbn [play]. destruct (act trim toLowerCase st a) as [st1 out1]. cbn [fst].
  now destruct (play trim toLowerCase st1 rest).
Qed.

Lemma snd_play_cons st a rest :
  snd (play trim toLowerCase st (a :: rest)) =
  snd (act trim toLowerCase st a) ++
  snd (play trim toLowerCase (fst (act trim toLowerCase st a)) rest).
Proof.
  cbn [play]. destruct (act trim toLowerCase st a) as [st1 out1].
  cbn [fst snd]. now destruct (play trim toLowerCase st1 rest).
Qed.

Lemma handleSendMessage_out now_id now st :
  form (fst (handleSendMessage trim now_id now st)) = form st /\
  view (fst (handleSendMessage trim now_id now st)) = view st /\
  (snd (handleSendMessage trim now_id now st) = [] \/
   exists data, snd (handleSendMessage trim now_id now st) = [send_message data]).
Proof.
  unfold handleSendMessage. destruct (chatData st) as [cd|].
  - destruct (negb (Js.nonempty (trim (messageInput st))) ||
              isPeerDisconnected st); cbn [fst snd form view].
    + repeat split. now left.
    + repeat split. right. eexists. reflexivity.
  - cbn [fst snd]. repeat split. now left.
Qed.

Ltac crush_ifs :=
  repeat match goal with
         | |- context [if ?c then _ else _] => destruct c
         end.

(** The form after one action: as before, with a new content of the field,
    or after one of the two tag handlers. *)
Lemma act_form st a :
  form (fst (act trim toLowerCase st a)) = form st \/
  (exists value,
     a = TypeInterest value /\
     form (fst (act trim toLowerCase st a)) =
     App.setInterestInput value (form st)) \/
  (exists key,
     form (fst (act trim toLowerCase st a)) =
     App.handleAddInterest trim toLowerCase key (form st)) \/
  (exists tag,
     form (fst (act trim toLowerCase st a)) =
     App.handleRemoveInterest tag (form st)).
Proof.
  destruct a; cbn [act];
    try (crush_ifs; cbn; now left).
  - crush_ifs; cbn [fst setForm form];
      [right; left; now exists value | now left].
  - crush_ifs; cbn [fst setForm form];
      [right; right; left; now exists key | now left].
  - crush_ifs; cbn [fst setForm form];
      [right; right; right; now exists tag | now left].
  - unfold hardware_effect. destruct (view st); try (cbn; now left).
    destruct myStream; cbn; now left.
  - crush_ifs; [|cbn; now left].
    destruct (handleSendMessage_out now_id now st) as [Hf _]. rewrite Hf. now left.
  - crush_ifs; try (cbn; now left). unfold handleKeyDown. crush_ifs; [|cbn; now left].
    destruct (handleSendMessage_out now_id now st) as [Hf _]. rewrite Hf. now left.
Qed.

Lemma act_joins st a m tags :
  In (join_mode m tags) (snd (act trim toLowerCase st a)) ->
  tags = App.interests (form st).
Proof.
  destruct a; cbn [act]; try (crush_ifs; cbn; tauto).
  - unfold hardware_effect. destruct (view st); try (cbn; tauto).
    destruct myStream; cbn; [|tauto]. intros [H | []]. now inversion H.
  - crush_ifs; cbn; [|tauto]. intros [H | []]. discriminate.
  - crush_ifs; cbn; [|tauto]. intros [H | [H | []]]; [discriminate | now inversion H].
  - crush_ifs; [|cbn; tauto].
    destruct (handleSendMessage_out now_id now st) as [_ [_ [-> | [data ->]]]].
    + intros [].
    + intros [H | []]. discriminate.
  - crush_ifs; try (cbn; tauto). unfold handleKeyDown. crush_ifs; [|cbn; tauto].
    destruct (handleSendMessage_out now_id now st) as [_ [_ [-> | [data ->]]]].
    + intros [].
    + intros [H | []]. discriminate.
Qed.

Lemma handleSendMessage_sends now_id now st data :
  In (send_message data) (snd (handleSendMessage trim now_id now st)) ->
  Js.nonempty (Server.m_text data) = true /\
  exists cd,
    chatData st = Some cd /\
    Server.m_roomId data = roomId (WebRTC.chat cd) /\
    Server.m_isAi data = isAi (WebRTC.chat cd).
Proof.
  unfold handleSendMessage. destruct (chatData st) as [cd|]; [|intros []].
  destruct (Js.nonempty (trim (messageInput st))) eqn:Hne; cbn [negb orb];
    [|intros []].
  destruct (isPeerDisconnected st); [intros []|].
  intros [H | []]. inversion H; subst data. cbn.
  split; [assumption|]. now exists cd.
Qed.

Lemma handleSendMessage_session now_id now st :
  chatData (fst (handleSendMessage trim now_id now st)) = chatData st.
Proof.
  unfold handleSendMessage. destruct (chatData st) as [cd|] eqn:E;
    [|exact E].
  destruct (negb (Js.nonempty (trim (messageInput st))) ||
            isPeerDisconnected st); cbn [fst chatData];
    [exact E | reflexivity].
Qed.

Lemma act_sends st a data :
  In (send_message data) (snd (act trim toLowerCase st a)) ->
  Js.nonempty (Server.m_text data) = true /\
  exists cd,
    chatData st = Some cd /\
    Server.m_roomId data = roomId (WebRTC.chat cd) /\
    Server.m_isAi data = isAi (WebRTC.chat cd).
Proof.
  destruct a; cbn [act]; try (crush_ifs; cbn; tauto).
  - unfold hardware_effect. destruct (view st); try (cbn; tauto).
    destruct myStream; cbn; [|tauto]. intros [H | []]. discriminate.
  - crush_ifs; cbn; [|tauto]. intros [H | []]. discriminate.
  - crush_ifs; cbn; [|tauto]. intros [H | [H | []]]; discriminate.
  - crush_ifs; [|cbn; tauto]. apply handleSendMessage_sends.
  - crush_ifs; try (cbn; tauto). unfold handleKeyDown.
    crush_ifs; [|cbn; tauto]. apply handleSendMessage_sends.
Qed.

Lemma act_session st a cd :
  chatData (fst (act trim toLowerCase st a)) = Some cd ->
  chatData st = Some cd \/ a = OnMatchFound cd.
Proof.
  destruct a; cbn [act]; try (crush_ifs; cbn; tauto).
  - unfold hardware_effect. destruct (view st); try (cbn; tauto).
    destruct myStream; cbn; tauto.
  - crush_ifs; cbn; [discriminate | tauto].
  - crush_ifs; cbn; [discriminate | tauto].
  - crush_ifs; [|cbn; tauto]. rewrite handleSendMessage_session. tauto.
  - crush_ifs; try (cbn; tauto). unfold handleKeyDown.
    crush_ifs; [|cbn; tauto]. rewrite handleSendMessage_session. tauto.
  - cbn. intros H. inversion H. now right.
Qed.

Lemma play_sends steps :
  forall st (R : WebRTC.ChatData -> Prop) data,
    (forall cd, chatData st = Some cd -> R cd) ->
    In (send_message data) (snd (play trim toLowerCase st steps)) ->
    Js.nonempty (Server.m_text data) = true /\
    exists cd,
      (R cd \/ In (OnMatchFound cd) steps) /\
      Server.m_roomId data = roomId (WebRTC.chat cd) /\
      Server.m_isAi data = isAi (WebRTC.chat cd).
Proof.
  induction steps as [|a rest IH]; intros st R data HR Hin; [destruct Hin|].
  rewrite snd_play_cons in Hin. apply in_app_or in Hin.
  destruct Hin as [Hin | Hin].
  - apply act_sends in Hin. destruct Hin as [Hne [cd [Hcd [Hroom Hai]]]].
    split; [assumption|]. exists cd. split; [left; now apply HR | now split].
  - apply (IH _ (fun cd => R cd \/ a = OnMatchFound cd)) in Hin.
    + destruct Hin as [Hne [cd [Hwhere [Hroom Hai]]]].
      split; [assumption|]. exists cd. split; [|now split].
      destruct Hwhere as [[HRcd | ->] | Hlater];
        [now left | right; now left | right; now right].
    + intros cd Hcd. apply act_session in Hcd.
      destruct Hcd as [Hcd | ->]; [left; now apply HR | now right].
Qed.

Lemma alternates_app j out out' :
  alternates j (out ++ out') =
  alternates j out && alternates (joined_after j out) out'.
Proof.
  revert j. induction out as [|e out IH]; intros j; [reflexivity|].
  destruct e; cbn [app alternates joined_after]; rewrite IH;
    [now rewrite andb_assoc | reflexivity | reflexivity].
Qed.

Lemma joined_after_app j out out' :
  joined_after j (out ++ out') = joined_after (joined_after j out) out'.
Proof.
  revert j. induction out as [|e out IH]; intros j; [reflexivity|].
  destruct e; cbn [app joined_after]; apply IH.
Qed.

Lemma handleSendMessage_emits now_id now st j :
  alternates j (snd (handleSendMessage trim now_id now st)) = true /\
  joined_after j (snd (handleSendMessage trim now_id now st)) = j /\
  view (fst (handleSendMessage trim now_id now st)) = view st.
Proof.
  destruct (handleSendMessage_out now_id now st)
    as [_ [Hv [-> | [data ->]]]]; now repeat split.
Qed.

Lemma act_alternates st a j :
  settled j st ->
  alternates j (snd (act trim toLowerCase st a)) = true /\
  settled (joined_after j (snd (act trim toLowerCase st a)))
          (fst (act trim toLowerCase st a)).
Proof.
  unfold settled, in_view. intros Hj.
  destruct a; cbn [act]; unfold in_view, hardware_effect, handleKeyDown;
    try (destruct (handleSendMessage_emits now_id now st j) as [Ha [Hj' Hv]]);
    destruct (view st) eqn:Ev; destruct j;
    cbn [andb orb negb fst snd alternates joined_after setView setForm view
         handleStop handleNext on_waiting_in_queue on_match_found
         on_receive_message on_peer_disconnected setMessages] in *;
    crush_ifs;
    cbn [andb orb negb fst snd alternates joined_after setView setForm view
         handleStop handleNext] in *;
    rewrite ?Ha, ?Hj', ?Hv, ?Ev;
    try (split; [reflexivity | intros H; try discriminate; try reflexivity;
                               try (now apply Hj)]);
    try (specialize (Hj eq_refl); discriminate).
Qed.


(** The field holds nothing or one of [inputs], and the tags come from
    [inputs]. *)
Lemma act_clean (inputs : string -> Prop) st a :
  inputs "" ->
  inputs (App.interestInput (form st)) ->
  clean trim toLowerCase inputs (App.interests (form st)) ->
  (inputs (App.interestInput (form (fst (act trim toLowerCase st a)))) \/
   a = TypeInterest
         (App.interestInput (form (fst (act trim toLowerCase st a))))) /\
  clean trim toLowerCase inputs
        (App.interests (form (fst (act trim toLowerCase st a)))).
Proof.
  intros Hempty Hfield Hc.
  destruct (act_form st a)
    as [-> | [[value [-> ->]] | [[key ->] | [tag ->]]]].
  - split; [now left | assumption].
  - split; [now right | assumption].
  - split; [|now apply Interests.clean_add].
    left. unfold App.handleAddInterest.
    destruct (String.eqb key "Enter" || String.eqb key ","); assumption.
  - split; [now left | now apply Interests.clean_remove].
Qed.

Lemma play_clean steps :
  forall (inputs : string -> Prop) st m tags,
    inputs "" ->
    inputs (App.interestInput (form st)) ->
    clean trim toLowerCase inputs (App.interests (form st)) ->
    In (join_mode m tags) (snd (play trim toLowerCase st steps)) ->
    clean trim toLowerCase
          (fun x => inputs x \/ In (TypeInterest x) steps) tags.
Proof.
  induction steps as [|a rest IH]; intros inputs st m tags Hempty Hfield Hc Hin;
    [destruct Hin|].
  rewrite snd_play_cons in Hin. apply in_app_or in Hin.
  destruct Hin as [Hin | Hin].
  - apply act_joins in Hin. subst tags.
    eapply Interests.clean_more; [|exact Hc]. intros x Hx. now left.
  - destruct (act_clean inputs st a Hempty Hfield Hc) as [Hfield' Hc'].
    apply (IH (fun x => inputs x \/ a = TypeInterest x)) in Hin.
    + eapply Interests.clean_more; [|exact Hin].
      intros x [[Hx | ->] | Hx];
        [now left | right; now left | right; now right].
    + now left.
    + exact Hfield'.
    + eapply Interests.clean_more; [|exact Hc']. intros x Hx. now left.
Qed.

(** X20: whatever the user and the server do, every [join_mode] that the
    component emits carries tags as the form keeps them: pairwise distinct,
    none empty, each one the trimmed lower-case form of what the interest
    field held, which is a value that was typed into it (or the empty field,
    where the trimmed lower-case form of the empty string is not empty). *)
Theorem requests_carry_clean_tags :
  forall steps m tags,
    In (join_mode m tags) (snd (play trim toLowerCase initial steps)) ->
    clean trim toLowerCase (typed steps) tags /\
    (Js.nonempty (toLowerCase (trim "")) = false ->
     clean trim toLowerCase (fun x => In (TypeInterest x) steps) tags).
Proof.
  intros steps m tags Hin.
  assert (Hc : clean trim toLowerCase (typed steps) tags).
  { apply (play_clean steps (fun x => x = "") initial m tags) in Hin;
      [exact Hin | reflexivity | reflexivity | split; constructor]. }
  split; [exact Hc|]. intros Hblank. destruct Hc as [Hnd Hall].
  split; [assumption|]. eapply Forall_impl; [|exact Hall].
  intros tag [Hne [x [[-> | Hx] Heq]]].
  - rewrite Heq in Hne. congruence.
  - split; [assumption|]. now exists x.
Qed.

(** X21: the component sends a chat message only with a text that is not
    empty, and only to the room of a [match_found] it received before, with
    the agent flag of that match. *)
Theorem sends_follow_a_match :
  forall steps data,
    In (send_message data) (snd (play trim toLowerCase initial steps)) ->
    Js.nonempty (Server.m_text data) = true /\
    exists cd,
      In (OnMatchFound cd) steps /\
      Server.m_roomId data = roomId (WebRTC.chat cd) /\
      Server.m_isAi data = isAi (WebRTC.chat cd).
Proof.
  intros steps data Hin.
  apply (play_sends steps initial (fun _ => False)) in Hin.
  - destruct Hin as [Hne [cd [[[] | Hcd] Hrest]]].
    split; [assumption|]. now exists cd.
  - intros cd Hcd. discriminate.
Qed.

Lemma play_alternates steps :
  forall st j,
    settled j st ->
    alternates j (snd (play trim toLowerCase st steps)) = true.
Proof.
  induction steps as [|a rest IH]; intros st j Hj; [reflexivity|].
  rewrite snd_play_cons, alternates_app.
  destruct (act_alternates st a j Hj) as [Ha Hj'].
  rewrite Ha. cbn [andb]. now apply IH.
Qed.

(** X22: whatever the user and the server do, the component never emits two
    [join_mode] without a [leave_chat] in between. *)
Theorem component_alternates :
  forall steps,
    alternates false (snd (play trim toLowerCase initial steps)) = true.
Proof.
  intros steps. apply play_alternates. intros H. discriminate.
Qed.

End Component.

Lemma listed_other s x l : s <> x -> listed s (x :: l) = listed s l.
Proof.
  intros Hne. unfold listed. cbn [existsb].
  apply String.eqb_neq in Hne. now rewrite Hne.
Qed.

Lemma listed_self s l : listed s (s :: l) = true.
Proof. unfold listed. cbn [existsb]. now rewrite String.eqb_refl. Qed.

Lemma listed_without_other s sid l :
  s <> sid ->
  listed s (filter (fun x => negb (String.eqb x sid)) l) = listed s l.
Proof.
  intros Hne. unfold listed. induction l as [|x l IH]; [reflexivity|].
  cbn [filter existsb]. destruct (String.eqb x sid) eqn:E; cbn [negb existsb].
  - apply String.eqb_eq in E. subst x. apply String.eqb_neq in Hne.
    now rewrite Hne.
  - now rewrite IH.
Qed.

Lemma listed_without_self sid l :
  listed sid (filter (fun x => negb (String.eqb x sid)) l) = false.
Proof.
  unfold listed. induction l as [|x l IH]; [reflexivity|].
  cbn [filter]. destruct (String.eqb x sid) eqn:E; cbn [negb existsb];
    [exact IH|].
  rewrite IH, String.eqb_sym, E. reflexivity.
Qed.

(** Whether a stream of one socket alternates only depends on whether that
    socket is listed. *)
Lemma alternating_owned sid stream :
  Forall (fun e => owner e = sid) stream ->
  forall J J',
    listed sid J = listed sid J' ->
    alternating J stream = alternating J' stream.
Proof.
  induction 1 as [|e stream He Hrest IH]; intros J J' Hsame; [reflexivity|].
  destruct e as [s | s r | s t p | s | s]; cbn [owner] in He; subst s;
    cbn [alternating].
  - now apply IH.
  - rewrite Hsame. f_equal. apply IH. now rewrite !listed_self.
  - now apply IH.
  - apply IH. now rewrite !listed_without_self.
  - apply IH. now rewrite !listed_without_self.
Qed.

Lemma events_alternate sid out :
  forall j J tail,
    alternates j out = true ->
    listed sid J = j ->
    tail = [] \/ tail = [Server.Disconnecting sid] ->
    alternating J (flat_map (to_event sid) out ++ tail) = true.
Proof.
  induction out as [|e out IH]; intros j J tail Halt Hj Htail.
  - cbn [flat_map app]. destruct Htail as [-> | ->]; reflexivity.
  - destruct e as [m tags| |data]; cbn [flat_map to_event app alternating];
      cbn [alternates] in Halt.
    + apply andb_true_iff in Halt. destruct Halt as [Hnot Halt].
      apply negb_true_iff in Hnot. rewrite Hnot in Hj. rewrite Hj.
      cbn [negb andb].
      apply (IH true); [assumption | apply listed_self | assumption].
    + apply (IH false); [assumption | apply listed_without_self | assumption].
    + now apply (IH j).
Qed.

Lemma events_owned sid out tail :
  Forall (fun e => owner e = sid) tail ->
  Forall (fun e => owner e = sid) (flat_map (to_event sid) out ++ tail).
Proof.
  intros Htail. apply Forall_app. split; [|assumption].
  apply Forall_forall. intros e He. apply in_flat_map in He.
  destruct He as [x [_ He]]. destruct x; cbn in He;
    try (destruct He as [<- | []]; reflexivity). destruct He.
Qed.

Lemma streams_relisted J J' sids streams :
  streams_alternate J sids streams ->
  (forall sid, In sid sids -> listed sid J = listed sid J') ->
  streams_alternate J' sids streams.
Proof.
  unfold streams_alternate.
  induction 1 as [|sid stream sids streams [Hown Halt] Hrest IH]; intros Hsame;
    constructor.
  - split; [assumption|]. rewrite <- Halt. symmetry.
    apply (alternating_owned sid); [assumption | apply Hsame; now left].
  - apply IH. intros s Hs. apply Hsame. now right.
Qed.

Lemma interleaving_alternating streams es :
  interleaving streams es ->
  forall sids J,
    streams_alternate J sids streams ->
    NoDup sids ->
    alternating J es = true.
Proof.
  induction 1 as [streams Hdone | before e stream after es Hil IH];
    intros sids J Hstreams Hnd; [reflexivity|].
  unfold streams_alternate in Hstreams.
  apply Forall2_app_inv_r in Hstreams.
  destruct Hstreams as [sb [srest [Hb [Hrest ->]]]].
  inversion Hrest as [|s x sa y [Hown Halt] Ha]; subst.
  inversion Hown as [|e' l' He Hstream]; subst.
  apply NoDup_remove_2 in Hnd as Hfresh.
  assert (Hnext : forall J',
             alternating J' stream = true ->
             (forall sid, sid <> owner e -> listed sid J = listed sid J') ->
             alternating J' es = true).
  { intros J' Halt' Hsame. apply (IH (sb ++ owner e :: sa) J'); [|assumption].
    apply Forall2_app.
    - apply (streams_relisted J); [assumption|].
      intros sid Hsid. apply Hsame. intros ->. apply Hfresh.
      apply in_or_app. now left.
    - constructor; [now split|].
      apply (streams_relisted J); [assumption|].
      intros sid Hsid. apply Hsame. intros ->. apply Hfresh.
      apply in_or_app. now right. }
  destruct e as [s | s r | s t p | s | s]; cbn [owner] in *;
    cbn [alternating] in *.
  - now apply Hnext.
  - apply andb_true_iff in Halt. destruct Halt as [Hnot Halt].
    rewrite Hnot. cbn [andb]. apply Hnext; [assumption|].
    intros sid Hne. symmetry. now apply listed_other.
  - now apply Hnext.
  - apply Hnext; [assumption|]. intros sid Hne. symmetry.
    now apply listed_without_other.
  - apply Hnext; [assumption|]. intros sid Hne. symmetry.
    now apply listed_without_other.
Qed.

(** X23: with any number of clients running the component, each on its own
    socket, whatever their users do and however the server interleaves what
    they send (each client's events in the order it sent them), no socket
    sends two [join_mode] without a withdrawal in between, and so no socket
    is ever in more than one session room. *)
Theorem app_clients_are_exclusive :
  forall trim toLowerCase clients es,
    NoDup (map socket clients) ->
    interleaving (map (client_events trim toLowerCase) clients) es ->
    alternating [] es = true /\
    forall sid,
      (length (Server.session_rooms (fst (Server.run Server.init es)) sid)
       <= 1)%nat.
Proof.
  intros trim toLowerCase clients es Hnd Hil.
  assert (Halt : alternating [] es = true).
  { apply (interleaving_alternating _ _ Hil (map socket clients));
      [|assumption].
    unfold streams_alternate. clear Hnd Hil.
    induction clients as [|c clients IH]; cbn [map]; constructor; [|exact IH].
    unfold client_events. split.
    - constructor; [reflexivity|]. apply events_owned.
      destruct (closes c); repeat constructor.
    - cbn [alternating]. apply (events_alternate _ _ false).
      + apply play_alternates. intros H. discriminate.
      + reflexivity.
      + destruct (closes c); [now right | now left]. }
  split; [assumption|].
  assert (Hpol : Spec.polite Server.init es = true).
  { apply (Alternation.alternating_polite es Server.init []); [|assumption].
    intros s _. split; [reflexivity | intros []]. }
  now apply (Exclusivity.run_exclusive es Server.init
               Exclusivity.exclusive_init Hpol).
Qed.

Lemma requests_carry_clean_tags_witness :
  In (join_mode (Some human) ["music"])
     (snd (play Js.trim Js.toLowerCase initial Cases.first_visit)) /\
  Js.nonempty (Js.toLowerCase (Js.trim "")) = false /\
  clean Js.trim Js.toLowerCase
        (fun x => In (TypeInterest x) Cases.first_visit) ["music"].
Proof.
  split; [left; reflexivity|]. split; [reflexivity|].
  apply (requests_carry_clean_tags Js.trim Js.toLowerCase Cases.first_visit
           (Some human) ["music"]).
  - left. reflexivity.
  - reflexivity.
Defined.

Lemma sends_follow_a_match_witness :
  In (send_message
        (Server.mkMessageData "room_B_A" "hello" false
           (Some [("user", "hello")])))
     (snd (play Js.trim Js.toLowerCase initial Cases.first_chat)) /\
  exists cd,
    In (OnMatchFound cd) Cases.first_chat /\
    "room_B_A" = roomId (WebRTC.chat cd) /\
    false = isAi (WebRTC.chat cd).
Proof.
  split; [right; left; reflexivity|].
  destruct (sends_follow_a_match Js.trim Js.toLowerCase Cases.first_chat
              (Server.mkMessageData "room_B_A" "hello" false
                 (Some [("user", "hello")])))
    as [_ Hcd]; [right; left; reflexivity | exact Hcd].
Defined.

Lemma two_clients_interleaved :
  interleaving (map (client_events Js.trim Js.toLowerCase) Cases.two_clients)
               Cases.two_clients_trace.
Proof.
  apply (interleaving_next [] _ _ [_]).
  apply (interleaving_next [_] _ _ []).
  apply (interleaving_next [] _ _ [_]).
  apply (interleaving_next [_] _ _ []).
  apply (interleaving_next [_] _ _ []).
  apply (interleaving_next [_] _ _ []).
  apply (interleaving_next [_] _ _ []).
  apply interleaving_done. repeat constructor.
Qed.

Lemma app_clients_are_exclusive_witness :
  NoDup (map socket Cases.two_clients) /\
  alternating [] Cases.two_clients_trace = true /\
  (length (Server.session_rooms
             (fst (Server.run Server.init Cases.two_clients_trace)) "A")
   <= 1)%nat.
Proof.
  assert (Hnd : NoDup (map socket Cases.two_clients)).
  { repeat constructor; cbn; intuition discriminate. }
  split; [exact Hnd|].
  destruct (app_clients_are_exclusive Js.trim Js.toLowerCase Cases.two_clients
              Cases.two_clients_trace Hnd two_clients_interleaved)
    as [Halt Hone].
  split; [exact Halt | apply Hone].
Defined.

End Session.

(** ** The peer object of the [useWebRTC] hook *)

Module Lifecycle.

Import Shared WebRTC Negotiation.

(** X24: the effect and both teardown paths are idempotent: running the
    effect again while a peer is referenced builds no second peer, and a
    second teardown (by the cleanup or by the [isPeerDisconnected] effect)
    finds nothing left to destroy or to reset. *)
Theorem setup_and_teardown_idempotent :
  forall chatData myStream isPeerDisconnected h,
    setup chatData myStream isPeerDisconnected
          (setup chatData myStream isPeerDisconnected h) =
    setup chatData myStream isPeerDisconnected h /\
    cleanup (cleanup h) = cleanup h /\
    on_peer_disconnected isPeerDisconnected
      (on_peer_disconnected isPeerDisconnected h) =
    on_peer_disconnected isPeerDisconnected h.
Proof.
  intros chatData myStream isPeerDisconnected h. split; [|split].
  - unfold setup. destruct chatData as [cd|], myStream as [s|];
      try reflexivity.
    destruct isPeerDisconnected; [reflexivity|].
    destruct (peerRef h) eqn:E; [now rewrite E | reflexivity].
  - reflexivity.
  - unfold on_peer_disconnected.
    destruct isPeerDisconnected; cbn [andb]; [|reflexivity].
    destruct (peerRef h) eqn:E; [reflexivity | now rewrite E].
Qed.

Lemma alive_fed ps cs payload p pr l :
  peer_alive (mkHook ps cs (feed payload p) pr l) =
  peer_alive (mkHook ps cs p pr l).
Proof. unfold peer_alive. cbn [peer]. now destruct p. Qed.

Lemma alive_destroyed ps cs p pr l :
  peer_alive (mkHook ps cs (destroy p) pr l) = false.
Proof. unfold peer_alive. cbn [peer]. now destruct p. Qed.

Lemma alive_same ps cs pr l h :
  peer_alive (mkHook ps cs (peer h) pr l) = peer_alive h.
Proof. reflexivity. Qed.

Lemma torn_down_consistent p l :
  peer_alive (mkHook None idle p false l) = false ->
  consistent (mkHook None idle p false l).
Proof.
  intros Halive. unfold consistent.
  cbn [peerRef connectionState peerStream]. rewrite Halive.
  split; [split; [discriminate | intros [H _]; discriminate]|].
  repeat split; intros; try reflexivity; discriminate.
Qed.

(** Every event keeps the hook consistent. *)
Lemma step_consistent h e :
  consistent h -> consistent (step h e).
Proof.
  intros Hc. pose proof Hc as [Halive [Hidle [Hnone Hconn]]].
  destruct e as [cd s ipd| |ipd|remote| |data]; cbn [step].
  - unfold setup. destruct cd as [cd|]; [|exact Hc].
    destruct s as [s|]; [|exact Hc]. destruct ipd; [exact Hc|].
    destruct (peerRef h); [exact Hc|].
    unfold consistent, peer_alive.
    cbn [peer peerRef connectionState peerStream destroyed negb].
    split; [split; [intros _; split; [reflexivity | discriminate]
                   | reflexivity]|].
    repeat split; intros; discriminate.
  - unfold cleanup. apply torn_down_consistent.
    destruct (peerRef h) eqn:E; [apply alive_destroyed|].
    rewrite alive_same. destruct (peer_alive h); [|reflexivity].
    destruct (proj1 Halive eq_refl) as [H _]. discriminate.
  - unfold on_peer_disconnected. destruct ipd; cbn [andb]; [|exact Hc].
    destruct (peerRef h); [|exact Hc].
    apply torn_down_consistent, alive_destroyed.
  - destruct (peer_alive h) eqn:E; [|exact Hc].
    destruct (proj1 Halive eq_refl) as [Href _].
    unfold on_stream, consistent.
    cbn [peerRef connectionState peerStream]. rewrite alive_same, E, Href.
    split; [split; [intros _; split; [reflexivity | discriminate]
                   | reflexivity]|].
    repeat split; intros; discriminate.
  - destruct (peer_alive h) eqn:E; [|exact Hc].
    destruct (proj1 Halive eq_refl) as [Href _].
    unfold on_error, consistent.
    cbn [peerRef connectionState peerStream]. rewrite alive_destroyed, Href.
    split; [split; [discriminate | intros [_ H]; now elim H]|].
    repeat split; intros; discriminate.
  - unfold handleIncomingSignal. destruct (listener h) as [cd|]; [|exact Hc].
    destruct (String.eqb (from data) (peerId (chat cd))); [|exact Hc].
    unfold consistent. cbn [peerRef connectionState peerStream].
    rewrite alive_fed, alive_same. exact Hc.
Qed.

Lemma run_consistent events :
  forall h, consistent h -> consistent (fold_left step events h).
Proof.
  induction events as [|e events IH]; intros h Hc; [exact Hc|].
  cbn [fold_left]. apply IH. now apply step_consistent.
Qed.

Lemma initial_consistent : consistent initial.
Proof.
  unfold consistent. cbn.
  split; [split; [discriminate | intros [H _]; discriminate]|].
  repeat split; intros; try reflexivity; discriminate.
Qed.


(** X26: whatever happens to the hook, the state it reports is [idle]
    exactly while it holds no peer, it shows no remote stream while it is
    idle, and it is [connected] only with a remote stream at hand. *)
Theorem reported_state_follows_peer :
  forall events,
    (connectionState (run events) = idle <-> peerRef (run events) = false) /\
    (connectionState (run events) = idle -> peerStream (run events) = None) /\
    (connectionState (run events) = connected ->
     exists remoteStream, peerStream (run events) = Some remoteStream).
Proof.
  intros events.
  destruct (run_consistent events initial initial_consistent)
    as [_ [Hidle [Hnone Hconn]]].
  split; [exact Hidle|]. split; [exact Hnone|].
  unfold run. intros H. specialize (Hconn H).
  destruct (peerStream (fold_left step events initial)) as [s|];
    [now exists s | now elim Hconn].
Qed.

(** A session from match to teardown: the peer is built once, fed by its
    peer's signal, connected by the remote stream and destroyed when the
    peer leaves; a late stream changes nothing. *)
Example one_session :
  run [Setup (Some Cases.matched_with_B) (Some "camera") false;
       Setup (Some Cases.matched_with_B) (Some "camera") false;
       Incoming (mkIncoming "answer" "B");
       Stream "remote";
       PeerDisconnected true;
       Stream "late"] =
  mkHook None idle (Some (mkPeer true "camera" ["answer"] true)) false
         (Some Cases.matched_with_B).
Proof. reflexivity. Qed.

(** A negotiation that fails: the error leaves the hook in state [failed]
    with a reference to the destroyed peer; running the effect again builds
    nothing, and the cleanup brings the hook back to [idle]. *)
Example failed_session :
  run [Setup (Some Cases.matched_with_B) (Some "camera") false;
       Error;
       Setup (Some Cases.matched_with_B) (Some "camera") false] =
  mkHook None failed (Some (mkPeer true "camera" [] true)) true
         (Some Cases.matched_with_B) /\
  run [Setup (Some Cases.matched_with_B) (Some "camera") false;
       Error;
       Cleanup] =
  mkHook None idle (Some (mkPeer true "camera" [] true)) false None.
Proof. split; reflexivity. Qed.

End Lifecycle.

(** ** The camera stream of the [useMediaStream] hook *)

Module Camera.

Import Media.

Lemma stop_tracks_all s running :
  (forall t, In t running -> t = s) -> stop_tracks s running = [].
Proof.
  intros Hall. unfold stop_tracks. apply Rooms.nil_of_no_In.
  intros t Ht. apply filter_In in Ht. destruct Ht as [Hin Hne].
  rewrite (Hall t Hin), String.eqb_refl in Hne. discriminate.
Qed.

Lemma release_all h : tidy h -> release h = [].
Proof.
  intros [Hlive _]. unfold release. destruct (streamRef h) as [s|] eqn:E.
  - apply stop_tracks_all. intros t Ht. destruct (Hlive t Ht) as [Href _].
    congruence.
  - apply Rooms.nil_of_no_In. intros t Ht.
    destruct (Hlive t Ht) as [Href _]. congruence.
Qed.

Lemma cleanup_tidy h : tidy h -> tidy (cleanup h) /\ live (cleanup h) = [].
Proof.
  intros Ht. unfold cleanup, tidy.
  cbn [live streamRef stream mounted pending]. rewrite (release_all h Ht).
  split; [|reflexivity]. split; [intros t []|]. split; [cbn; lia|].
  intros r Hr. discriminate.
Qed.

Lemma in_settle r run h : In r (settle run h) -> In r (pending h) /\ r <> run.
Proof.
  unfold settle. rewrite filter_In, negb_true_iff, Nat.eqb_neq. tauto.
Qed.

(** Every event keeps the hook tidy. *)
Lemma step_tidy h e : tidy h -> tidy (step h e).
Proof.
  intros Ht. destruct e as [enabled| |run cs|run]; cbn [step].
  - destruct (cleanup_tidy h Ht) as [[Hlive [Hlen Hwait]] Hnone].
    unfold effect. destruct enabled; unfold tidy;
      cbn [live streamRef stream mounted pending].
    + rewrite Hnone. split; [intros t []|]. split; [cbn; lia|].
      intros r _ _. now split.
    + rewrite (release_all (cleanup h)) by (now apply cleanup_tidy).
      split; [intros t []|]. split; [cbn; lia|].
      intros r _ _. now split.
  - now apply cleanup_tidy.
  - unfold granted. destruct (existsb (Nat.eqb run) (pending h)) eqn:Ep;
      [|exact Ht].
    apply existsb_exists in Ep. destruct Ep as [r0 [Hr Heq]].
    apply Nat.eqb_eq in Heq. subst r0.
    destruct Ht as [Hlive [Hlen Hwait]].
    destruct (is_mounted run h) eqn:Em; unfold tidy;
      cbn [live streamRef stream mounted pending].
    + unfold is_mounted in Em. destruct (mounted h) as [r|] eqn:Emr;
        [|discriminate].
      apply Nat.eqb_eq in Em. subst r.
      destruct (Hwait run eq_refl Hr) as [_ Hnone]. rewrite Hnone.
      split; [|split].
      * intros t [<- | []]. now split.
      * cbn. lia.
      * intros r Hm Hin. inversion Hm; subst r.
        apply in_settle in Hin. tauto.
    + split; [|split].
      * intros t Hin. unfold stop_tracks in Hin. cbn [filter] in Hin.
        rewrite String.eqb_refl in Hin. cbn [negb] in Hin.
        apply filter_In in Hin. now apply Hlive.
      * unfold stop_tracks. cbn [filter]. rewrite String.eqb_refl.
        cbn [negb]. eapply Nat.le_trans; [apply filter_length_le | exact Hlen].
      * intros r Hm Hin. apply in_settle in Hin. destruct Hin as [Hin Hne].
        unfold is_mounted in Em. rewrite Hm in Em.
        apply Nat.eqb_neq in Em. destruct (Hwait r Hm Hin) as [Href Hnone].
        split; [assumption|]. rewrite Hnone in *. 
        unfold stop_tracks. cbn [filter]. now rewrite String.eqb_refl.
  - unfold denied. destruct (existsb (Nat.eqb run) (pending h)); [|exact Ht].
    destruct Ht as [Hlive [Hlen Hwait]]. unfold tidy.
    cbn [live streamRef stream mounted pending].
    split; [exact Hlive|]. split; [exact Hlen|].
    intros r Hm Hin. apply in_settle in Hin. now apply (Hwait r).
Qed.

Lemma run_tidy events : forall h, tidy h -> tidy (fold_left step events h).
Proof.
  induction events as [|e events IH]; intros h Ht; [exact Ht|].
  cbn [fold_left]. apply IH. now apply step_tidy.
Qed.

Lemma initial_tidy : tidy initial.
Proof.
  unfold tidy. cbn [initial live streamRef stream mounted pending].
  split; [intros t []|]. split; [cbn; lia|]. intros r Hm. discriminate.
Qed.

(** X27: whatever the order of renders, grants and refusals, the hook never
    leaks a camera: at most one stream has running tracks, and it is the
    stream that the hook returns and that [streamRef] points to.  Unmounting
    the hook, or rendering it with [enabled] false, leaves no track running,
    and a stream granted to a run that is no longer mounted is stopped at
    once without becoming the stream of the hook. *)
Theorem no_camera_left_on :
  forall events,
    let h := run events in
    (forall s, In s (live h) -> streamRef h = Some s /\ stream h = Some s) /\
    (length (live h) <= 1)%nat /\
    live (step h Unmount) = [] /\
    (live (step h (Render false)) = [] /\
     stream (step h (Render false)) = None) /\
    (forall r currentStream,
        In r (pending h) ->
        is_mounted r h = false ->
        stream (step h (Granted r currentStream)) = stream h /\
        (In currentStream (live (step h (Granted r currentStream))) -> False)).
Proof.
  intros events h.
  assert (Ht : tidy h) by apply (run_tidy events initial initial_tidy).
  pose proof Ht as [Hlive [Hlen _]].
  split; [exact Hlive|]. split; [exact Hlen|].
  split; [now apply cleanup_tidy|]. split.
  - cbn [step]. unfold effect. cbn [live stream]. split; [|reflexivity].
    apply release_all. now apply cleanup_tidy.
  - intros r cs Hr Hm. cbn [step]. unfold granted.
    assert (Hp : existsb (Nat.eqb r) (pending h) = true)
      by (apply existsb_exists; exists r; split;
          [assumption | apply Nat.eqb_refl]).
    rewrite Hp, Hm. cbn [stream live]. split; [reflexivity|].
    intros Hin. unfold stop_tracks in Hin. apply filter_In in Hin.
    destruct Hin as [_ Hne]. now rewrite String.eqb_refl in Hne.
Qed.

(** The camera is granted and shown; disabling the hook stops it.  When the
    grant arrives after the hook was disabled, the stream is stopped at
    once. *)
Example camera_on_and_off :
  live (run [Render true; Granted 0 "camera"]) = ["camera"] /\
  stream (run [Render true; Granted 0 "camera"]) = Some "camera" /\
  live (run [Render true; Granted 0 "camera"; Render false]) = [] /\
  live (run [Render true; Render false; Granted 0 "camera"]) = [] /\
  stream (run [Render true; Render false; Granted 0 "camera"]) = None.
Proof. repeat split. Qed.

End Camera.
